(** * lazy.js: lazily evaluated, memoized properties on an object

    A shallow embedding of the two versions of [lazy] found in the
    repository:

    - [Flag]    : src/lazy.js             (memoization by the boolean
                                           [isMemoized], default name "lazy");
    - [Rewrite] : src/unnamed/part_000    (memoization by assigning the
                                           resolved value back through the
                                           property, default name "set").

    The JavaScript object model is written out as far as the code uses it:
    own properties with their attributes, the [[Extensible]] flag, property
    reads and writes of non-strict code, [delete], and the two shapes of
    [Object.defineProperty] the code calls.

    There are two models of the engine.  In the first one, which comes
    first, a function of the caller is called and returns or throws, and
    leaves the context alone; a context is its own data properties, and
    reading a name it does not own yields [undefined].  The second one,
    [Reentrant], further down, lets the caller's functions act on the
    context they are called with ([this]) and lets the context inherit; the
    first model is the second one cut down. *)

From Stdlib Require Import ZArith.
From stdpp Require Import base strings gmap list.

Open Scope string_scope.
Open Scope list_scope.

(** ** Values *)

(** JavaScript values as the engine sees them.  Objects and the caller's
    functions are known by identity only. [VDeclare] is the declaration
    function that the modelled call of [lazy] creates (together with its
    [restore]). *)
Inductive value : Type :=
  | VUndefined
  | VNull
  | VBool (b : bool)
  | VNum (z : Z)
  | VStr (s : string)
  | VObj (o : nat)
  | VFun (f : nat)
  | VDeclare.

#[global] Instance value_eq_dec : EqDecision value.
Proof. solve_decision. Defined.

(** What a [throw] carries: a [TypeError] raised by the language itself, or
    whatever a function of the caller threw. *)
Inductive thrown : Type :=
  | TypeError
  | Raised (v : value).

#[global] Instance thrown_eq_dec : EqDecision thrown.
Proof. solve_decision. Defined.

Inductive completion (A : Type) : Type :=
  | Normal (a : A)
  | Throw (e : thrown).
Arguments Normal {A} a.
Arguments Throw {A} e.

(** The caller's functions.  [getCall w f] tells whether
    [typeof f.getCall === 'function']; [invoke w f i] is what the call of [f]
    that has [i] calls of [f] before it completes with (so a function such as
    [Math.random] may answer differently each time). *)
Record world : Type := {
  getCall : nat -> bool;
  invoke : nat -> nat -> completion value
}.

(** [typeof v === 'function'] *)
Definition is_function (v : value) : bool :=
  match v with
  | VFun _ | VDeclare => true
  | _ => false
  end.

(** [typeof v.getCall === 'function'], for a function [v]; the declaration
    function carries [restore] and nothing else. *)
Definition has_getCall (w : world) (v : value) : bool :=
  match v with
  | VFun f => getCall w f
  | _ => false
  end.

(** ** Objects *)

(** A data property. *)
Record data : Type := {
  value_of : value;
  writable : bool;
  enumerable : bool;
  configurable : bool
}.

(** The object a caller hands to [lazy]: data properties and the
    [[Extensible]] flag. *)
Record object : Type := {
  fields : gmap string data;
  o_extensible : bool
}.

(** [{}] *)
Definition empty_object : object := {| fields := ∅; o_extensible := true |}.

(** A property of the context: a data property, or an accessor whose [get]
    and [set] are the two functions of closure [k] (created by one call of
    the declaration function). *)
Inductive property : Type :=
  | Data (d : data)
  | Accessor (k : nat) (e c : bool).

Definition p_enumerable (p : property) : bool :=
  match p with
  | Data d => enumerable d
  | Accessor _ e _ => e
  end.

Definition p_configurable (p : property) : bool :=
  match p with
  | Data d => configurable d
  | Accessor _ _ c => c
  end.

Record context : Type := {
  own : gmap string property;
  extensible : bool
}.

Definition adopt (o : object) : context :=
  {| own := Data <$> fields o; extensible := o_extensible o |}.

Definition with_own (c : context) (m : gmap string property) : context :=
  {| own := m; extensible := extensible c |}.

(** [Object.keys(context)], as a set. *)
Definition keys (c : context) : gset string :=
  dom (filter (λ np, p_enumerable np.2 = true) (own c)).

(** [context.hasOwnProperty(n)] *)
Definition hasOwnProperty (c : context) (n : string) : bool :=
  bool_decide (is_Some (own c !! n)).

(** [delete context[n]] in non-strict code: a configurable property is
    removed; a missing or non-configurable one is left as it is, and nothing
    is thrown. *)
Definition delete_property (n : string) (c : context) : context :=
  match own c !! n with
  | Some p => if p_configurable p then with_own c (delete n (own c)) else c
  | None => c
  end.

(** [Object.defineProperty(context, n, {get: .., set: .., configurable: true})],
    with [enumerable: true] too when [enum] is [Some true].  [get] and [set]
    are the fresh functions of closure [k], so they never equal the ones
    already there.  A new property takes [false] for an attribute the
    descriptor leaves out; a redefined one keeps what it had. *)
Definition define_accessor (k : nat) (enum : option bool)
    (c : context) (n : string) : completion context :=
  match own c !! n with
  | None =>
      if extensible c
      then Normal (with_own c (<[n := Accessor k (default false enum) true]> (own c)))
      else Throw TypeError
  | Some p =>
      if p_configurable p
      then Normal (with_own c
             (<[n := Accessor k (default (p_enumerable p) enum) true]> (own c)))
      else Throw TypeError
  end.

(** [Object.defineProperty(context, n, {value: v})] for a fresh function [v]. *)
Definition define_value (v : value) (c : context) (n : string)
    : completion context :=
  match own c !! n with
  | None =>
      if extensible c
      then Normal (with_own c (<[n := Data
             {| value_of := v; writable := false;
                enumerable := false; configurable := false |}]> (own c)))
      else Throw TypeError
  | Some (Data d) =>
      if configurable d || writable d
      then Normal (with_own c (<[n := Data
             {| value_of := v; writable := writable d;
                enumerable := enumerable d; configurable := configurable d |}]> (own c)))
      else Throw TypeError
  | Some (Accessor _ e c') =>
      if c'
      then Normal (with_own c (<[n := Data
             {| value_of := v; writable := false;
                enumerable := e; configurable := c' |}]> (own c)))
      else Throw TypeError
  end.

(** ** The state of one engine instance *)

(** The context, the closure variable [cache] (the array read from its end:
    the name pushed last comes first), the closures of the accessors created
    so far (closure [k] is [heap !! k]) and the log of the calls made to the
    caller's functions (latest first). *)
Record state (K : Type) : Type := {
  ctx : context;
  cache : list string;
  heap : list K;
  calls : list nat
}.
Arguments ctx {K} s.
Arguments cache {K} s.
Arguments heap {K} s.
Arguments calls {K} s.

Definition initial {K : Type} (c : context) : state K :=
  {| ctx := c; cache := []; heap := []; calls := [] |}.

Definition with_ctx {K : Type} (s : state K) (c : context) : state K :=
  {| ctx := c; cache := cache s; heap := heap s; calls := calls s |}.

Definition with_heap {K : Type} (s : state K) (h : list K) : state K :=
  {| ctx := ctx s; cache := cache s; heap := h; calls := calls s |}.

(** How often [f] was called so far. *)
Definition times (f : nat) (log : list nat) : nat :=
  length (filter (λ g, g = f) log).

(** A call [f.call(this)] of a function of the caller. *)
Definition invoke_user {K : Type} (w : world) (f : nat) (s : state K)
    : completion value * state K :=
  (invoke w f (times f (calls s)),
   {| ctx := ctx s; cache := cache s; heap := heap s; calls := f :: calls s |}).

(** [context[n] = v] in non-strict code.  An accessor hands [v] to its
    setter; a write that cannot be done is dropped silently. *)
Definition Put {K : Type} (setter : nat -> value -> state K -> state K)
    (n : string) (v : value) (s : state K) : state K :=
  match own (ctx s) !! n with
  | Some (Data d) =>
      if writable d
      then with_ctx s (with_own (ctx s) (<[n := Data
             {| value_of := v; writable := true;
                enumerable := enumerable d; configurable := configurable d |}]>
             (own (ctx s))))
      else s
  | Some (Accessor k _ _) => setter k v s
  | None =>
      if extensible (ctx s)
      then with_ctx s (with_own (ctx s) (<[n := Data
             {| value_of := v; writable := true;
                enumerable := true; configurable := true |}]> (own (ctx s))))
      else s
  end.

(** [context[n]] *)
Definition Get {K : Type} (getter : nat -> state K -> completion value * state K)
    (n : string) (s : state K) : completion value * state K :=
  match own (ctx s) !! n with
  | Some (Data d) => (Normal (value_of d), s)
  | Some (Accessor k _ _) => getter k s
  | None => (Normal VUndefined, s)
  end.

(** [method || d] *)
Definition or_default (method : option string) (d : string) : string :=
  match method with
  | Some m => if decide (m = "") then d else m
  | None => d
  end.

(** [restore], the same text in both files (src/lazy.js 79-83,
    src/unnamed/part_000 79-83):
    [while (cache.length) { delete context[cache.pop()]; }] *)
Fixpoint restore_loop (cache : list string) (c : context) : context :=
  match cache with
  | [] => c
  | n :: rest => restore_loop rest (delete_property n c)
  end.

Definition restore {K : Type} (s : state K) : completion value * state K :=
  (Normal VUndefined,
   {| ctx := restore_loop (cache s) (ctx s); cache := [];
      heap := heap s; calls := calls s |}).

(** ** Operations a caller performs on an attached context *)

(** The assignment is one of non-strict code, as the engine's own are: a
    write that cannot be done is dropped, not thrown. *)
Inductive op : Type :=
  | OpDeclare (n : string) (args : list value)   (* context[method](n, ...args) *)
  | OpRead (n : string)                          (* context[n] *)
  | OpAssign (n : string) (v : value)            (* context[n] = v *)
  | OpRestore.                                   (* context[method].restore() *)

(** ** src/lazy.js: the flag-based version *)

Module Flag.

(** The variables one call of the declaration function closes over. *)
Record closure : Type := {
  name : string;
  subject : value;
  isMemoized : bool
}.

Definition init (c : context) : state closure := initial c.

(** The declaration function (lines 43-68): [args] are the arguments after
    [name]; [arguments.length === 2] when there is exactly one. *)
Definition declare (name : string) (args : list value) (s : state closure)
    : completion value * state closure :=
  let subject := match args with [value] => value | _ => VNull end in
  let k := length (heap s) in
  let s1 := {| ctx := ctx s;
               cache := name :: cache s;
               heap := heap s ++ [{| name := name; subject := subject;
                                     isMemoized := false |}];
               calls := calls s |} in
  match define_accessor k None (ctx s1) name with
  | Normal c => (Normal VUndefined, with_ctx s1 c)
  | Throw e => (Throw e, s1)
  end.

(** [subject.call(this)] for a function [v].  The declaration function
    called without arguments declares the name [undefined], which as a
    property key reads "undefined". *)
Definition call (w : world) (v : value) (s : state closure)
    : completion value * state closure :=
  match v with
  | VFun f => invoke_user w f s
  | VDeclare => declare "undefined" [] s
  | _ => (Throw TypeError, s)
  end.

(** [set: function (value) { subject = value; isMemoized = false; }] *)
Definition setter (k : nat) (v : value) (s : state closure) : state closure :=
  with_heap s (alter (λ cl, {| name := name cl; subject := v;
                               isMemoized := false |}) k (heap s)).

(** [get] (lines 50-61).  The case of a closure that is not in the heap is
    never reached: an accessor always has its closure (lemma
    [flag_run_bound]). *)
Definition getter (w : world) (k : nat) (s : state closure)
    : completion value * state closure :=
  match heap s !! k with
  | None => (Normal VUndefined, s)
  | Some cl =>
      if isMemoized cl then (Normal (subject cl), s) else
      let isFunction := is_function (subject cl) in
      let isMocked := isFunction && has_getCall w (subject cl) in
      let s1 := with_heap s (alter (λ cl, {| name := name cl; subject := subject cl;
                                             isMemoized := true |}) k (heap s)) in
      if isFunction && negb isMocked then
        match call w (subject cl) s1 with
        | (Normal r, s2) =>
            (Normal r,
             with_heap s2 (alter (λ cl, {| name := name cl; subject := r;
                                           isMemoized := isMemoized cl |}) k (heap s2)))
        | (Throw e, s2) => (Throw e, s2)
        end
      else (Normal (subject cl), s1)
  end.

Definition read (w : world) : string -> state closure -> completion value * state closure :=
  Get (getter w).

Definition assign : string -> value -> state closure -> state closure :=
  Put setter.

(** [lazy(context, method)] (lines 38-86). *)
Definition lazy (w : world) (context : option object) (method : option string)
    : completion (state closure) :=
  let method := or_default method "lazy" in
  match context with
  | None => Throw TypeError
  | Some o =>
      let s := assign method VDeclare (init (adopt o)) in
      match read w method s with
      | (Normal VUndefined, _) | (Normal VNull, _) => Throw TypeError
      | (Normal _, s') => Normal s'
      | (Throw e, _) => Throw e
      end
  end.

Definition step (w : world) (o : op) (s : state closure)
    : completion value * state closure :=
  match o with
  | OpDeclare n args => declare n args s
  | OpRead n => read w n s
  | OpAssign n v => (Normal v, assign n v s)
  | OpRestore => restore s
  end.

Fixpoint run (w : world) (ops : list op) (s : state closure)
    : list (completion value) * state closure :=
  match ops with
  | [] => ([], s)
  | o :: rest =>
      let '(r, s1) := step w o s in
      let '(rs, s2) := run w rest s1 in
      (r :: rs, s2)
  end.

End Flag.

(** ** src/unnamed/part_000: the self-rewriting version *)

Module Rewrite.

Record closure : Type := {
  name : string;
  subject : value
}.

Definition init (c : context) : state closure := initial c.

(** The declaration function (lines 46-67). *)
Definition declare (name : string) (args : list value) (s : state closure)
    : completion value * state closure :=
  let subject := match args with [value] => value | _ => VNull end in
  let k := length (heap s) in
  let s1 := {| ctx := ctx s;
               cache := name :: cache s;
               heap := heap s ++ [{| name := name; subject := subject |}];
               calls := calls s |} in
  match define_accessor k (Some true) (ctx s1) name with
  | Normal c => (Normal VUndefined, with_ctx s1 c)
  | Throw e => (Throw e, s1)
  end.

Definition call (w : world) (v : value) (s : state closure)
    : completion value * state closure :=
  match v with
  | VFun f => invoke_user w f s
  | VDeclare => declare "undefined" [] s
  | _ => (Throw TypeError, s)
  end.

(** [set: function (value) { subject = value; }] *)
Definition setter (k : nat) (v : value) (s : state closure) : state closure :=
  with_heap s (alter (λ cl, {| name := name cl; subject := v |}) k (heap s)).

Definition assign : string -> value -> state closure -> state closure :=
  Put setter.

(** [get] (lines 52-60): the resolved value is assigned to [context[name]],
    that is, handed to whatever that property is by then.  The case of a
    closure that is not in the heap is never reached (lemma
    [rewrite_run_bound]). *)
Definition getter (w : world) (k : nat) (s : state closure)
    : completion value * state closure :=
  match heap s !! k with
  | None => (Normal VUndefined, s)
  | Some cl =>
      let isFunction := is_function (subject cl) in
      let isMocked := isFunction && has_getCall w (subject cl) in
      if isFunction && negb isMocked then
        match call w (subject cl) s with
        | (Normal r, s1) => (Normal r, assign (name cl) r s1)
        | (Throw e, s1) => (Throw e, s1)
        end
      else (Normal (subject cl), assign (name cl) (subject cl) s)
  end.

Definition read (w : world) : string -> state closure -> completion value * state closure :=
  Get (getter w).

(** [lazy(context, method)] (lines 39-86).  Once the property is defined,
    [context[method]] is the new function, and [restore] is stored on it. *)
Definition lazy (context : option object) (method : option string)
    : completion (state closure) :=
  let method := or_default method "set" in
  let context := default empty_object context in
  match define_value VDeclare (adopt context) method with
  | Normal c => Normal (init c)
  | Throw e => Throw e
  end.

Definition step (w : world) (o : op) (s : state closure)
    : completion value * state closure :=
  match o with
  | OpDeclare n args => declare n args s
  | OpRead n => read w n s
  | OpAssign n v => (Normal v, assign n v s)
  | OpRestore => restore s
  end.

Fixpoint run (w : world) (ops : list op) (s : state closure)
    : list (completion value) * state closure :=
  match ops with
  | [] => ([], s)
  | o :: rest =>
      let '(r, s1) := step w o s in
      let '(rs, s2) := run w rest s1 in
      (r :: rs, s2)
  end.

End Rewrite.

(** ** Notions used in the statements *)

(** The operations that declare the names of [ds], in order. *)
Definition declarations (ds : list (string * list value)) : list op :=
  map (λ d, OpDeclare d.1 d.2) ds.

(** The subject a declaration stores. *)
Definition subject_of (args : list value) : value :=
  match args with
  | [v] => v
  | _ => VNull
  end.

(** [isFunction && !isMocked]: a subject the getter calls. *)
Definition plain_function (w : world) (v : value) : bool :=
  is_function v && negb (has_getCall w v).

(** [v === undefined || v === null]: a value that has no properties. *)
Definition nullish (v : value) : bool :=
  match v with
  | VUndefined | VNull => true
  | _ => false
  end.

(** [context[m]] is the declaration function. *)
Definition installed {K : Type} (s : state K) (m : string) : Prop :=
  exists d, own (ctx s) !! m = Some (Data d) /\ value_of d = VDeclare.

(** Whether [Object.defineProperty(o, m, {value: f})] can be done for a
    fresh function [f], and whether the assignment [o[m] = f] takes effect. *)
Definition can_define (o : object) (m : string) : bool :=
  match fields o !! m with
  | None => o_extensible o
  | Some d => configurable d || writable d
  end.

Definition can_put (o : object) (m : string) : bool :=
  match fields o !! m with
  | None => o_extensible o
  | Some d => writable d
  end.

(** [restorable s n]: [n] is in the registry, and the property the context
    owns at [n], if any, is configurable. *)
Definition restorable {K : Type} (s : state K) (n : string) : Prop :=
  n ∈ cache s /\ forall p, own (ctx s) !! n = Some p -> p_configurable p = true.

(** [stuck c n]: no accessor can be defined at [n], because the property
    there is not configurable, or because there is none and the context is
    not extensible. *)
Definition stuck (c : context) (n : string) : Prop :=
  match own c !! n with
  | None => extensible c = false
  | Some p => p_configurable p = false
  end.

(** [cache_sound s]: a name in the registry stands for an accessor, or for
    a property the engine could not replace (a data property that is not
    configurable, or none on a context that is not extensible). *)
Definition cache_sound {K : Type} (s : state K) : Prop :=
  forall n, n ∈ cache s ->
    match own (ctx s) !! n with
    | None => extensible (ctx s) = false
    | Some (Data d) => configurable d = false
    | Some (Accessor _ _ _) => True
    end.

(** [closures_bound s]: every accessor of the context is the accessor of a
    closure in the heap. *)
Definition closures_bound {K : Type} (s : state K) : Prop :=
  forall n k e c, own (ctx s) !! n = Some (Accessor k e c) -> k < length (heap s).

(** ** Sample objects, worlds and runs *)

(** [Object.freeze({})] *)
Definition frozen_object : object := {| fields := ∅; o_extensible := false |}.

(** [Object.defineProperty({}, n, {value: v})]: one property, neither
    writable nor enumerable nor configurable. *)
Definition fixed_object (n : string) (v : value) : object :=
  {| fields := {[ n := {| value_of := v; writable := false;
                          enumerable := false; configurable := false |} ]};
     o_extensible := true |}.

(** The state [lazy({})] returns in each version (lemmas
    [flag_lazy_fresh], [rewrite_lazy_fresh]). *)
Definition flag_fresh : state Flag.closure :=
  initial {| own := {[ "lazy" := Data {| value_of := VDeclare; writable := true;
                                         enumerable := true; configurable := true |} ]};
             extensible := true |}.

Definition rewrite_fresh : state Rewrite.closure :=
  initial {| own := {[ "set" := Data {| value_of := VDeclare; writable := false;
                                        enumerable := false; configurable := false |} ]};
             extensible := true |}.

(** A world in which every function of the caller is a spy: it has
    [getCall], and would return [undefined] if it were called. *)
Definition spy_world : world :=
  {| getCall := λ _, true; invoke := λ _ _, Normal VUndefined |}.

(** A world whose function 0 returns function 1, which returns 1; no
    function has [getCall]. *)
Definition nested_world : world :=
  {| getCall := λ _, false;
     invoke := λ f _, match f with
                      | 0 => Normal (VFun 1)
                      | _ => Normal (VNum 1)
                      end |}.

(** A world whose functions all throw "boom"; no function has [getCall]. *)
Definition failing_world : world :=
  {| getCall := λ _, false; invoke := λ _ _, Throw (Raised (VStr "boom")) |}.

(** A world whose functions count their calls: call number [i] of any
    function returns [i]; no function has [getCall]. *)
Definition counting_world : world :=
  {| getCall := λ _, false; invoke := λ _ i, Normal (VNum (Z.of_nat i)) |}.

(** A run that declares a factory, reads it twice, assigns another factory
    over it, reads again, restores and reads once more. *)
Definition sample_ops : list op :=
  [OpDeclare "k" [VFun 0]; OpRead "k"; OpRead "k"; OpAssign "k" (VFun 1);
   OpRead "k"; OpRestore; OpRead "k"].

(** ** Declared properties along a run *)

(** [names_kept name_of h h']: every closure of [h] is still in [h'], under
    the name it was created with. *)
Definition names_kept {K : Type} (name_of : K -> string) (h h' : list K) : Prop :=
  forall k cl, h !! k = Some cl ->
    exists cl', h' !! k = Some cl' /\ name_of cl' = name_of cl.

(** [attached_ok name_of s]: every accessor of the context is configurable,
    stands in the registry, and is the accessor of a closure created for
    its name. *)
Definition attached_ok {K : Type} (name_of : K -> string) (s : state K) : Prop :=
  forall n k e c, own (ctx s) !! n = Some (Accessor k e c) ->
    c = true /\ n ∈ cache s /\
    exists cl, heap s !! k = Some cl /\ name_of cl = n.

(** The data property that [Object.defineProperty(context, m, {value: f})]
    creates on a context that has none at [m]. *)
Definition sealed_method : data :=
  {| value_of := VDeclare; writable := false;
     enumerable := false; configurable := false |}.


(** ** src/lazy-test.js: the suite helpers

    The helpers [test], [run], [print] and [puts] at the end of the test
    file.  They take whatever they are given: [fn] is any value, and a test
    may throw any value.  [run] calls a test as [test.fn()], so the
    function receives the record of its test as [this] and may assign to
    the [msg] and the [fn] that the report reads afterwards.  What calling
    a function does, and what reading [toString] or [stack] of a value
    does, is not the helpers' business and is given by the [world].
    Outside this model: a test function that defines an accessor on its
    record, reaches the record of another test, rebinds one of the helpers
    or ends the process itself, and a failure to write one of the two
    summaries.  (A test function that registers further tests changes
    nothing: [run] works on a copy of the suite and has read its length.) *)
Module Runner.

(** [{msg: msg, fn: fn}] *)
Record test_case : Type := { msg : value; fn : value }.

(** [{msg: test.msg, fn: test.fn, err: err}] *)
Record failure : Type := { f_msg : value; f_fn : value; err : thrown }.

(** [invoke w v i t]: the call of the function [v] that has [i] calls of
    [v] before it, made with the record [t] as [this]: how it completes,
    and what the record holds at [msg] and [fn] afterwards ([t] for a
    function that leaves them alone, [undefined] where it deleted one).
    [source w v]: what [v.toString().replace(/\n/g, ..)] throws, if it
    throws, for a [v] other than [null] and [undefined] ([None] for a
    function or a value with the built-in [toString]).  [stack w v]: what
    reading [v.stack] throws, if it throws, for such a [v] ([None] unless
    [v] has a getter there that throws).  [format w f]: what formatting the
    report of the failure [f] throws, if it throws ([None] for a message
    and a stack that print). *)
Record world : Type := {
  invoke : value -> nat -> test_case -> completion value * test_case;
  source : value -> option thrown;
  stack : value -> option thrown;
  format : failure -> option thrown
}.

(** What [puts] is given: the report of one failure, or one of the two
    summaries. *)
Inductive line : Type :=
  | Report (m : value) (e : thrown) (f : value)
  | Completed (total errors : nat)
  | Passing (total : nat).

(** How the script ends: [process.exit(code)], or an exception that nothing
    catches. *)
Inductive outcome : Type :=
  | Exit (code : Z)
  | Uncaught (e : thrown).

(** What the process has written, the values [run] has tried to call
    (latest first), and how it ended. *)
Record process : Type := {
  stdout : list line;
  tried : list value;
  status : outcome
}.

(** [test.suite = test.suite || []; test.suite.push({msg: msg, fn: fn})];
    [None] is a [test.suite] that is still undefined. *)
Definition test (m : value) (f : value) (suite : option (list test_case))
    : option (list test_case) :=
  Some (default [] suite ++ [{| msg := m; fn := f |}]).

Definition puts (l : line) (out : list line) : list line := out ++ [l].

(** How often [v] was tried so far. *)
Definition times (v : value) (log : list value) : nat :=
  length (filter (λ g, g = v) log).

(** [test.fn()]: calling what is not a function throws a [TypeError], and
    the record is as it was. *)
Definition call (w : world) (t : test_case) (log : list value)
    : completion value * test_case :=
  if is_function (fn t) then invoke w (fn t) (times (fn t) log) t
  else (Throw TypeError, t).

(** [test.fn.toString().replace(..)]: [null] and [undefined] have no
    properties. *)
Definition source_of (w : world) (v : value) : option thrown :=
  if nullish v then Some TypeError else source w v.

(** [test.err.stack]: a [TypeError] of the language has one; [null] and
    [undefined] have no properties. *)
Definition stack_of (w : world) (e : thrown) : option thrown :=
  match e with
  | TypeError => None
  | Raised v => if nullish v then Some TypeError else stack w v
  end.

(** What the report of a failure throws, if it throws: line 131 comes
    before line 132, where the arguments of [puts] come before its call. *)
Definition unprintable (w : world) (f : failure) : option thrown :=
  match source_of w (f_fn f) with
  | Some e => Some e
  | None =>
      match stack_of w (err f) with
      | Some e => Some e
      | None => format w f
      end
  end.

(** The [forEach] of [print]. *)
Fixpoint report (w : world) (fails : list failure) (out : list line)
    : list line * option thrown :=
  match fails with
  | [] => (out, None)
  | f :: rest =>
      match unprintable w f with
      | Some e => (out, Some e)
      | None => report w rest (puts (Report (f_msg f) (err f) (f_fn f)) out)
      end
  end.

Definition print (w : world) (fails : list failure) (total : nat)
    (out : list line) : list line * outcome :=
  match fails with
  | [] => (puts (Passing total) out, Exit 0)
  | _ :: _ =>
      match report w fails out with
      | (out', Some e) => (out', Uncaught e)
      | (out', None) => (puts (Completed total (length fails)) out', Exit 1)
      end
  end.

(** The [while (suite.length)] loop of [run]; the failure is
    [{msg: test.msg, fn: test.fn, err: err}], read from the record as the
    call has left it. *)
Fixpoint loop (w : world) (suite : list test_case) (fails : list failure)
    (log : list value) : list failure * list value :=
  match suite with
  | [] => (fails, log)
  | t :: rest =>
      match call w t log with
      | (Normal _, _) => loop w rest fails (fn t :: log)
      | (Throw e, t') =>
          loop w rest (fails ++ [{| f_msg := msg t'; f_fn := fn t'; err := e |}])
               (fn t :: log)
      end
  end.

(** [run(suite)]; [suite.length] of an undefined suite throws. *)
Definition run (w : world) (suite : option (list test_case)) : process :=
  match suite with
  | None => {| stdout := []; tried := []; status := Uncaught TypeError |}
  | Some l =>
      let '(fails, log) := loop w l [] [] in
      let '(out, st) := print w fails (length l) [] in
      {| stdout := out; tried := log; status := st |}
  end.

(** The script: the [test(msg, fn)] calls in the order of the file, then
    [run(test.suite)]. *)
Definition script (w : world) (tests : list (value * value)) : process :=
  run w (foldl (λ suite t, test t.1 t.2 suite) None tests).

(** What the [i]-th test [t] of a suite does when the tests before it have
    run, after the tries [pre], and what it leaves of its record. *)
Definition outcome_at (w : world) (pre : list value) (suite : list test_case)
    (i : nat) (t : test_case) : completion value * test_case :=
  call w t (pre ++ (fn <$> take i suite)).

Definition verdicts (w : world) (pre : list value) (suite : list test_case)
    : list (completion value * test_case) :=
  imap (λ i t, outcome_at w pre suite i t) suite.

(** The failure that a test leaves, if it threw. *)
Definition failed (tr : completion value * test_case) : option failure :=
  match tr.1 with
  | Throw e => Some {| f_msg := msg tr.2; f_fn := fn tr.2; err := e |}
  | Normal _ => None
  end.

Definition report_line (f : failure) : line :=
  Report (f_msg f) (err f) (f_fn f).

Definition summary (l : line) : bool :=
  match l with Report _ _ _ => false | _ => true end.

Definition suite_of (tests : list (value * value)) : list test_case :=
  (λ t, {| msg := t.1; fn := t.2 |}) <$> tests.

(** A world for the examples: every function throws "boom" and leaves its
    record alone; values print as usual. *)
Definition failing : world :=
  {| invoke := λ _ _ t, (Throw (Raised (VStr "boom")), t);
     source := λ _, None; stack := λ _, None; format := λ _, None |}.

(** Another one: function 0 is
    [function () { delete this.fn; throw 'boom'; }], the others return. *)
Definition forgetful : world :=
  {| invoke := λ v _ t,
       match v with
       | VFun 0 => (Throw (Raised (VStr "boom")), {| msg := msg t; fn := VUndefined |})
       | _ => (Normal VUndefined, t)
       end;
     source := λ _, None; stack := λ _, None; format := λ _, None |}.

End Runner.

(** * Functions that use the context, and inherited properties

    The model above takes a function of the caller as an oracle: it is
    called, it returns or throws, and the context is as it was.  That is
    the engine for callers whose functions leave the context alone (lemmas
    [flag_models_agree] and [rewrite_models_agree] make this precise).  But
    the getter calls [subject.call(this)]: the function receives the
    context, and the documented use is a factory that reads other lazy
    properties ([this.options]).  The model of this part lets a function of
    the caller act on the context while it runs, so that the engine is
    entered again from inside its own getter, and adds what the first model
    leaves out of the object model:

    - [restore] as a value ([context[method].restore] is a plain function,
      which the getters call like any other);
    - [delete context[n]] as an operation of the caller;
    - properties the context inherits: a read falls back on them, and an
      assignment obeys them;
    - accessors that are not the engine's (own or inherited): the model
      keeps their attributes and gives no answer when one is read or
      assigned to.

    Limits of this model, which the statements below inherit: the context
    is an ordinary object; a function of the caller acts on the context by
    the operations [op] only (it does not call [Object.defineProperty],
    [Object.freeze] or [Object.setPrototypeOf] on it, nor change
    [getCall] of a function), and what the context inherits does not change
    during a run.  Code is non-strict, as both files are. *)

Module Reentrant.

(** ** Values *)

(** [VDeclare] and [VRestore] are the declaration function and the
    [restore] function that the modelled call of [lazy] creates. *)
Inductive value : Type :=
  | VUndefined
  | VNull
  | VBool (b : bool)
  | VNum (z : Z)
  | VStr (s : string)
  | VObj (o : nat)
  | VFun (f : nat)
  | VDeclare
  | VRestore.

#[global] Instance value_dec : EqDecision value.
Proof. solve_decision. Defined.

Inductive thrown : Type :=
  | TypeError
  | Raised (v : value).

#[global] Instance thrown_dec : EqDecision thrown.
Proof. solve_decision. Defined.

Inductive completion (A : Type) : Type :=
  | Normal (a : A)
  | Throw (e : thrown).
Arguments Normal {A} a.
Arguments Throw {A} e.

(** ** What is done to an attached context *)

(** The operations of non-strict code on the context, by the caller between
    two reads or by one of its functions during a read. *)
Inductive op : Type :=
  | OpDeclare (n : string) (args : list value)   (* declare(n, ...args) *)
  | OpRead (n : string)                          (* context[n] *)
  | OpAssign (n : string) (v : value)            (* context[n] = v *)
  | OpDelete (n : string)                        (* delete context[n] *)
  | OpRestore.                                   (* restore() *)

(** One call of a function of the caller, as far as the engine can tell:
    the function completes ([Ret]), or it does something to [this], sees
    how that completes (it may catch what a read throws), and goes on. *)
Inductive prog : Type :=
  | Ret (r : completion value)
  | Do (o : op) (k : completion value -> prog).

(** ** Objects *)

Record data : Type := {
  value_of : value;
  writable : bool;
  enumerable : bool;
  configurable : bool
}.

(** An own property of the object handed to [lazy]: a data property, or an
    accessor of the caller's, of which only the attributes are known. *)
Inductive field : Type :=
  | FData (d : data)
  | FAccessor (e c : bool).

(** What the prototype chain holds at a name: the first property found
    there, a data property (its value, and whether it is writable) or an
    accessor. *)
Inductive inherited_property : Type :=
  | IData (v : value) (w : bool)
  | IAccessor.

Record object : Type := {
  fields : gmap string field;
  o_extensible : bool;
  o_inherited : gmap string inherited_property
}.

(** The caller's functions and the environment.  [getCall w f] tells
    whether [typeof f.getCall === 'function']; [invoke w f i] is what the
    call of [f] that has [i] calls of [f] before it does;
    [Object_prototype w] is what [{}] inherits; [store_restore w v] is what
    the assignment [v.restore = ..] throws, if it throws, for a value [v]
    that has properties and is not a function of the engine ([None] for an
    ordinary object or function, which takes the property, and for a
    number, a string or a boolean, on which the assignment is dropped).
    No value stands for the context itself: an object that holds itself
    under the method name is outside the model. *)
Record world : Type := {
  getCall : nat -> bool;
  invoke : nat -> nat -> prog;
  Object_prototype : gmap string inherited_property;
  store_restore : value -> option thrown
}.

(** [{}] *)
Definition empty_object (w : world) : object :=
  {| fields := ∅; o_extensible := true; o_inherited := Object_prototype w |}.

(** [typeof v === 'function'] *)
Definition is_function (v : value) : bool :=
  match v with
  | VFun _ | VDeclare | VRestore => true
  | _ => false
  end.

(** [typeof v.getCall === 'function'], for a function [v]; the two
    functions of the engine have no [getCall]. *)
Definition has_getCall (w : world) (v : value) : bool :=
  match v with
  | VFun f => getCall w f
  | _ => false
  end.

(** A property of the context: a data property, the accessor of closure
    [k] of the engine, or an accessor that is not the engine's. *)
Inductive property : Type :=
  | Data (d : data)
  | Accessor (k : nat) (e c : bool)
  | Foreign (e c : bool).

Definition p_enumerable (p : property) : bool :=
  match p with
  | Data d => enumerable d
  | Accessor _ e _ => e
  | Foreign e _ => e
  end.

Definition p_configurable (p : property) : bool :=
  match p with
  | Data d => configurable d
  | Accessor _ _ c => c
  | Foreign _ c => c
  end.

Record context : Type := {
  own : gmap string property;
  extensible : bool;
  inherited : gmap string inherited_property
}.

Definition to_property (f : field) : property :=
  match f with
  | FData d => Data d
  | FAccessor e c => Foreign e c
  end.

Definition adopt (o : object) : context :=
  {| own := to_property <$> fields o; extensible := o_extensible o;
     inherited := o_inherited o |}.

Definition with_own (c : context) (m : gmap string property) : context :=
  {| own := m; extensible := extensible c; inherited := inherited c |}.

(** [Object.keys(context)], as a set. *)
Definition keys (c : context) : gset string :=
  dom (filter (λ np, p_enumerable np.2 = true) (own c)).

(** [context.hasOwnProperty(n)] *)
Definition hasOwnProperty (c : context) (n : string) : bool :=
  bool_decide (is_Some (own c !! n)).

(** [delete context[n]]: what it evaluates to, and what it leaves. *)
Definition deletable (c : context) (n : string) : bool :=
  match own c !! n with
  | Some p => p_configurable p
  | None => true
  end.

Definition delete_property (n : string) (c : context) : context :=
  match own c !! n with
  | Some p => if p_configurable p then with_own c (delete n (own c)) else c
  | None => c
  end.

(** [Object.defineProperty(context, n, {get: .., set: .., configurable: true})],
    with [enumerable: true] too when [enum] is [Some true]. *)
Definition define_accessor (k : nat) (enum : option bool)
    (c : context) (n : string) : completion context :=
  match own c !! n with
  | None =>
      if extensible c
      then Normal (with_own c (<[n := Accessor k (default false enum) true]> (own c)))
      else Throw TypeError
  | Some p =>
      if p_configurable p
      then Normal (with_own c
             (<[n := Accessor k (default (p_enumerable p) enum) true]> (own c)))
      else Throw TypeError
  end.

(** [Object.defineProperty(context, n, {value: v})] for a fresh function [v]. *)
Definition define_value (v : value) (c : context) (n : string)
    : completion context :=
  match own c !! n with
  | None =>
      if extensible c
      then Normal (with_own c (<[n := Data
             {| value_of := v; writable := false;
                enumerable := false; configurable := false |}]> (own c)))
      else Throw TypeError
  | Some (Data d) =>
      if configurable d || writable d
      then Normal (with_own c (<[n := Data
             {| value_of := v; writable := writable d;
                enumerable := enumerable d; configurable := configurable d |}]> (own c)))
      else Throw TypeError
  | Some (Accessor _ e c') | Some (Foreign e c') =>
      if c'
      then Normal (with_own c (<[n := Data
             {| value_of := v; writable := false;
                enumerable := e; configurable := c' |}]> (own c)))
      else Throw TypeError
  end.

(** [v.restore = function () ..], for the value [v] that
    [context[method]] reads: what it throws, if it throws.  [undefined] and
    [null] have no properties. *)
Definition keep_restore (w : world) (v : value) : option thrown :=
  match v with
  | VUndefined | VNull => Some TypeError
  | VDeclare | VRestore => None
  | _ => store_restore w v
  end.

(** ** The state of one engine instance *)

Record state (K : Type) : Type := {
  ctx : context;
  cache : list string;
  heap : list K;
  calls : list nat
}.
Arguments ctx {K} s.
Arguments cache {K} s.
Arguments heap {K} s.
Arguments calls {K} s.

Definition initial {K : Type} (c : context) : state K :=
  {| ctx := c; cache := []; heap := []; calls := [] |}.

Definition with_ctx {K : Type} (s : state K) (c : context) : state K :=
  {| ctx := c; cache := cache s; heap := heap s; calls := calls s |}.

Definition with_heap {K : Type} (s : state K) (h : list K) : state K :=
  {| ctx := ctx s; cache := cache s; heap := h; calls := calls s |}.

(** The call of [f] enters the log. *)
Definition logged {K : Type} (f : nat) (s : state K) : state K :=
  {| ctx := ctx s; cache := cache s; heap := heap s; calls := f :: calls s |}.

(** [method || d] *)
Definition or_default (method : option string) (d : string) : string :=
  match method with
  | Some m => if decide (m = "") then d else m
  | None => d
  end.

(** [restore] (src/lazy.js 79-83, src/unnamed/part_000 79-83). *)
Fixpoint restore_loop (cache : list string) (c : context) : context :=
  match cache with
  | [] => c
  | n :: rest => restore_loop rest (delete_property n c)
  end.

Definition restore {K : Type} (s : state K) : completion value * state K :=
  (Normal VUndefined,
   {| ctx := restore_loop (cache s) (ctx s); cache := [];
      heap := heap s; calls := calls s |}).

(** ** Reads, writes and calls, for either version

    [declare], [setter] and [getter] are the three functions of a version.
    A result [None] is no answer: an accessor that is not the engine's was
    met, or the getter had to call a function deeper than the depth it was
    given (see [getter] in each version). *)
Section Operations.

Context {K : Type}.
Variable declare : string -> list value -> state K -> completion value * state K.
Variable setter : nat -> value -> state K -> state K.
Variable getter : nat -> state K -> option (completion value * state K).

(** [context[n] = v].  An own data property takes the value if it is
    writable; an accessor of the engine hands it to its setter; without an
    own property the assignment creates one, unless the context is not
    extensible or inherits a property that is read-only.  A write that
    cannot be done is dropped, nothing is thrown. *)
Definition Put (n : string) (v : value) (s : state K) : option (state K) :=
  match own (ctx s) !! n with
  | Some (Data d) =>
      if writable d
      then Some (with_ctx s (with_own (ctx s) (<[n := Data
             {| value_of := v; writable := true;
                enumerable := enumerable d; configurable := configurable d |}]>
             (own (ctx s)))))
      else Some s
  | Some (Accessor k _ _) => Some (setter k v s)
  | Some (Foreign _ _) => None
  | None =>
      match inherited (ctx s) !! n with
      | Some IAccessor => None
      | Some (IData _ false) => Some s
      | Some (IData _ true) | None =>
          if extensible (ctx s)
          then Some (with_ctx s (with_own (ctx s) (<[n := Data
                 {| value_of := v; writable := true;
                    enumerable := true; configurable := true |}]> (own (ctx s)))))
          else Some s
      end
  end.

(** [context[n]] *)
Definition Get (n : string) (s : state K) : option (completion value * state K) :=
  match own (ctx s) !! n with
  | Some (Data d) => Some (Normal (value_of d), s)
  | Some (Accessor k _ _) => getter k s
  | Some (Foreign _ _) => None
  | None =>
      match inherited (ctx s) !! n with
      | Some (IData v _) => Some (Normal v, s)
      | Some IAccessor => None
      | None => Some (Normal VUndefined, s)
      end
  end.

Definition step (o : op) (s : state K) : option (completion value * state K) :=
  match o with
  | OpDeclare n args => Some (declare n args s)
  | OpRead n => Get n s
  | OpAssign n v =>
      match Put n v s with
      | Some s' => Some (Normal v, s')
      | None => None
      end
  | OpDelete n =>
      Some (Normal (VBool (deletable (ctx s) n)),
            with_ctx s (delete_property n (ctx s)))
  | OpRestore => Some (restore s)
  end.

(** The body of a function of the caller, run on the context. *)
Fixpoint exec (p : prog) (s : state K) : option (completion value * state K) :=
  match p with
  | Ret r => Some (r, s)
  | Do o k =>
      match step o s with
      | Some (r, s') => exec (k r) s'
      | None => None
      end
  end.

(** [subject.call(this)] for a function [v].  The declaration function
    called without arguments declares the name [undefined], which as a
    property key reads "undefined". *)
Definition call (w : world) (v : value) (s : state K)
    : option (completion value * state K) :=
  match v with
  | VFun f => exec (invoke w f (times f (calls s))) (logged f s)
  | VDeclare => Some (declare "undefined" [] s)
  | VRestore => Some (restore s)
  | _ => Some (Throw TypeError, s)
  end.

(** What the caller does, one operation after the other. *)
Fixpoint steps (ops : list op) (s : state K)
    : option (list (completion value) * state K) :=
  match ops with
  | [] => Some ([], s)
  | o :: rest =>
      match step o s with
      | Some (r, s1) =>
          match steps rest s1 with
          | Some (rs, s2) => Some (r :: rs, s2)
          | None => None
          end
      | None => None
      end
  end.

End Operations.

(** ** src/lazy.js *)

Module Flag.

Record closure : Type := {
  name : string;
  subject : value;
  isMemoized : bool
}.

Definition init (c : context) : state closure := initial c.

(** The declaration function (lines 43-68). *)
Definition declare (name : string) (args : list value) (s : state closure)
    : completion value * state closure :=
  let subject := match args with [value] => value | _ => VNull end in
  let k := length (heap s) in
  let s1 := {| ctx := ctx s;
               cache := name :: cache s;
               heap := heap s ++ [{| name := name; subject := subject;
                                     isMemoized := false |}];
               calls := calls s |} in
  match define_accessor k None (ctx s1) name with
  | Normal c => (Normal VUndefined, with_ctx s1 c)
  | Throw e => (Throw e, s1)
  end.

(** [set: function (value) { subject = value; isMemoized = false; }] *)
Definition setter (k : nat) (v : value) (s : state closure) : state closure :=
  with_heap s (alter (λ cl, {| name := name cl; subject := v;
                               isMemoized := false |}) k (heap s)).

(** [isMemoized = true;] (line 55) *)
Definition memoize (k : nat) (s : state closure) : state closure :=
  with_heap s (alter (λ cl, {| name := name cl; subject := subject cl;
                               isMemoized := true |}) k (heap s)).

(** [subject = r] (line 60), in whatever state the call has left. *)
Definition store (k : nat) (r : value) (s : state closure) : state closure :=
  with_heap s (alter (λ cl, {| name := name cl; subject := r;
                               isMemoized := isMemoized cl |}) k (heap s)).

(** [get] (lines 50-61).  [d] bounds how deep calls of the caller's
    functions may nest: the getter that has to call its subject hands
    [d - 1] to the reads that function makes, and gives no answer at
    depth 0. *)
Fixpoint getter (w : world) (d : nat) (k : nat) (s : state closure)
    : option (completion value * state closure) :=
  match heap s !! k with
  | None => Some (Normal VUndefined, s)
  | Some cl =>
      if isMemoized cl then Some (Normal (subject cl), s) else
      let isFunction := is_function (subject cl) in
      let isMocked := isFunction && has_getCall w (subject cl) in
      let s1 := memoize k s in
      if isFunction && negb isMocked then
        match d with
        | 0 => None
        | S d' =>
            match call declare setter (getter w d') w (subject cl) s1 with
            | Some (Normal r, s2) => Some (Normal r, store k r s2)
            | Some (Throw e, s2) => Some (Throw e, s2)
            | None => None
            end
        end
      else Some (Normal (subject cl), s1)
  end.

Definition read (w : world) (d : nat) := Get (getter w d).
Definition assign := Put setter.
Definition step (w : world) (d : nat) := Reentrant.step declare setter (getter w d).
Definition call (w : world) (d : nat) := Reentrant.call declare setter (getter w d) w.
Definition run (w : world) (d : nat) := steps declare setter (getter w d).

(** [lazy(context, method)] (lines 38-86).  [context[method] = function ..]
    is an assignment like any other, and [context[method].restore = ..]
    reads the name back: the new function if the assignment took effect,
    else whatever the context has or inherits there, and stores [restore]
    on that. *)
Definition lazy (w : world) (context : option object) (method : option string)
    : option (completion (state closure)) :=
  let method := or_default method "lazy" in
  match context with
  | None => Some (Throw TypeError)
  | Some o =>
      match assign method VDeclare (init (adopt o)) with
      | None => None
      | Some s =>
          match read w 0 method s with
          | None => None
          | Some (Normal v, s') =>
              match keep_restore w v with
              | Some e => Some (Throw e)
              | None => Some (Normal s')
              end
          | Some (Throw e, _) => Some (Throw e)
          end
      end
  end.

End Flag.

(** ** src/unnamed/part_000 *)

Module Rewrite.

Record closure : Type := {
  name : string;
  subject : value
}.

Definition init (c : context) : state closure := initial c.

(** The declaration function (lines 46-67). *)
Definition declare (name : string) (args : list value) (s : state closure)
    : completion value * state closure :=
  let subject := match args with [value] => value | _ => VNull end in
  let k := length (heap s) in
  let s1 := {| ctx := ctx s;
               cache := name :: cache s;
               heap := heap s ++ [{| name := name; subject := subject |}];
               calls := calls s |} in
  match define_accessor k (Some true) (ctx s1) name with
  | Normal c => (Normal VUndefined, with_ctx s1 c)
  | Throw e => (Throw e, s1)
  end.

(** [set: function (value) { subject = value; }] *)
Definition setter (k : nat) (v : value) (s : state closure) : state closure :=
  with_heap s (alter (λ cl, {| name := name cl; subject := v |}) k (heap s)).

Definition assign := Put setter.

(** [get] (lines 52-60): the result is assigned to [context[name]], that
    is, to whatever the context has at that name once the call is over. *)
Fixpoint getter (w : world) (d : nat) (k : nat) (s : state closure)
    : option (completion value * state closure) :=
  match heap s !! k with
  | None => Some (Normal VUndefined, s)
  | Some cl =>
      let isFunction := is_function (subject cl) in
      let isMocked := isFunction && has_getCall w (subject cl) in
      if isFunction && negb isMocked then
        match d with
        | 0 => None
        | S d' =>
            match call declare setter (getter w d') w (subject cl) s with
            | Some (Normal r, s1) =>
                match assign (name cl) r s1 with
                | Some s2 => Some (Normal r, s2)
                | None => None
                end
            | Some (Throw e, s1) => Some (Throw e, s1)
            | None => None
            end
        end
      else
        match assign (name cl) (subject cl) s with
        | Some s' => Some (Normal (subject cl), s')
        | None => None
        end
  end.

Definition read (w : world) (d : nat) := Get (getter w d).
Definition step (w : world) (d : nat) := Reentrant.step declare setter (getter w d).
Definition call (w : world) (d : nat) := Reentrant.call declare setter (getter w d) w.
Definition run (w : world) (d : nat) := steps declare setter (getter w d).

(** [lazy(context, method)] (lines 39-86). *)
Definition lazy (w : world) (context : option object) (method : option string)
    : completion (state closure) :=
  let method := or_default method "set" in
  let context := default (empty_object w) context in
  match define_value VDeclare (adopt context) method with
  | Normal c => Normal (init c)
  | Throw e => Throw e
  end.

End Rewrite.

(** ** Notions used in the statements *)

(** The subject a declaration stores. *)
Definition subject_of (args : list value) : value :=
  match args with
  | [v] => v
  | _ => VNull
  end.

(** [isFunction && !isMocked]: a subject the getter calls. *)
Definition plain_function (w : world) (v : value) : bool :=
  is_function v && negb (has_getCall w v).

(** One of the two functions of the engine. *)
Definition of_engine (v : value) : bool :=
  match v with
  | VDeclare | VRestore => true
  | _ => false
  end.

(** [context[m]] is the declaration function, as an own data property. *)
Definition installed {K : Type} (s : state K) (m : string) : Prop :=
  exists d, own (ctx s) !! m = Some (Data d) /\ value_of d = VDeclare.

(** Whether [Object.defineProperty(o, m, {value: f})] can be done for a
    fresh function [f]. *)
Definition can_define (o : object) (m : string) : bool :=
  match fields o !! m with
  | None => o_extensible o
  | Some (FData d) => configurable d || writable d
  | Some (FAccessor _ c) => c
  end.

(** Whether the assignment [o[m] = f] gives [o] an own data property
    holding [f]. *)
Definition can_put (o : object) (m : string) : bool :=
  match fields o !! m with
  | Some (FData d) => writable d
  | Some (FAccessor _ _) => false
  | None =>
      o_extensible o &&
      match o_inherited o !! m with
      | Some (IData _ w) => w
      | Some IAccessor => false
      | None => true
      end
  end.

(** Whether [o[m]] is an accessor that is not the engine's, so that
    reading it or assigning to it runs code the model does not have. *)
Definition meets_accessor (o : object) (m : string) : bool :=
  match fields o !! m with
  | Some (FAccessor _ _) => true
  | Some (FData _) => false
  | None =>
      match o_inherited o !! m with
      | Some IAccessor => true
      | _ => false
      end
  end.

(** What [o[m]] reads, for a data property or none. *)
Definition lookup (o : object) (m : string) : value :=
  match fields o !! m with
  | Some (FData d) => value_of d
  | Some (FAccessor _ _) => VUndefined
  | None =>
      match o_inherited o !! m with
      | Some (IData v _) => v
      | _ => VUndefined
      end
  end.

(** An operation that the model answers on a context like [c]: it does
    not read or assign a name at which [c] has, or inherits, an accessor
    that is not the engine's. *)
Definition answerable (c : context) (o : op) : Prop :=
  match o with
  | OpRead n | OpAssign n _ =>
      (forall e c', own c !! n ≠ Some (Foreign e c')) /\
      inherited c !! n ≠ Some IAccessor
  | _ => True
  end.

(** Whether [c[n]] is an accessor that is not the engine's, own or
    inherited. *)
Definition foreign_at (c : context) (n : string) : bool :=
  match own c !! n with
  | Some (Foreign _ _) => true
  | Some _ => false
  | None =>
      match inherited c !! n with
      | Some IAccessor => true
      | _ => false
      end
  end.

(** [names_kept name_of h h']: every closure of [h] is still in [h'], under
    the name it was created with. *)
Definition names_kept {K : Type} (name_of : K -> string) (h h' : list K) : Prop :=
  forall k cl, h !! k = Some cl -> exists cl', h' !! k = Some cl' /\ name_of cl' = name_of cl.

(** [attached_ok name_of s]: every accessor of the engine on the context
    is configurable, stands in the registry, and is the accessor of a
    closure created for its name. *)
Definition attached_ok {K : Type} (name_of : K -> string) (s : state K) : Prop :=
  forall n k e c, own (ctx s) !! n = Some (Accessor k e c) ->
    c = true /\ n ∈ cache s /\
    exists cl, heap s !! k = Some cl /\ name_of cl = n.

(** [evolves name_of s s']: what every operation and every call keeps, from
    the state [s] it starts in to the state [s'] it ends in. *)
Definition evolves {K : Type} (name_of : K -> string) (s s' : state K) : Prop :=
  names_kept name_of (heap s) (heap s') /\
  inherited (ctx s') = inherited (ctx s) /\
  extensible (ctx s') = extensible (ctx s) /\
  (exists l, calls s' = l ++ calls s) /\
  (forall n e c, own (ctx s') !! n = Some (Foreign e c) ->
                 own (ctx s) !! n = Some (Foreign e c)) /\
  (attached_ok name_of s -> attached_ok name_of s').

(** The subject that the getter of [context[n]] would call now, if any:
    [n] is a declared property, not memoized (src/lazy.js), and its subject
    is a function without [getCall]. *)
Definition flag_calls (w : world) (s : state Flag.closure) (n : string)
    : option (nat * value) :=
  match own (ctx s) !! n with
  | Some (Accessor k _ _) =>
      match heap s !! k with
      | Some cl =>
          if Flag.isMemoized cl then None
          else if plain_function w (Flag.subject cl)
               then Some (k, Flag.subject cl) else None
      | None => None
      end
  | _ => None
  end.

Definition rewrite_calls (w : world) (s : state Rewrite.closure) (n : string)
    : option (nat * value) :=
  match own (ctx s) !! n with
  | Some (Accessor k _ _) =>
      match heap s !! k with
      | Some cl =>
          if plain_function w (Rewrite.subject cl)
          then Some (k, Rewrite.subject cl) else None
      | None => None
      end
  | _ => None
  end.

(** What a call of the subject of closure [k], declared at [n], has left
    alone when it returns in state [s]: [n] is still the accessor of [k],
    and in src/lazy.js nothing was assigned to it since the getter marked
    it. *)
Definition flag_slot_kept (k : nat) (n : string) (s : state Flag.closure) : Prop :=
  (exists e c, own (ctx s) !! n = Some (Accessor k e c)) /\
  exists cl, heap s !! k = Some cl /\ Flag.isMemoized cl = true.

Definition rewrite_slot_kept (k : nat) (n : string) (s : state Rewrite.closure)
    : Prop :=
  exists e c, own (ctx s) !! n = Some (Accessor k e c).

(** [same_outside s s']: the same context, registry and log of calls. *)
Definition same_outside {K : Type} (s s' : state K) : Prop :=
  ctx s' = ctx s /\ cache s' = cache s /\ calls s' = calls s.

(** ** Sample objects, worlds and runs *)

(** Part of what an ordinary object inherits from [Object.prototype]: two
    of its functions, writable, and the accessor [__proto__]. *)
Definition standard_prototype : gmap string inherited_property :=
  {[ "toString" := IData (VFun 100) true;
     "hasOwnProperty" := IData (VFun 101) true;
     "__proto__" := IAccessor ]}.

(** A world whose functions leave the context alone: call [i] of [f]
    completes with [result f i]. *)
Definition oracle (spy : nat -> bool) (result : nat -> nat -> completion value)
    : world :=
  {| getCall := spy; invoke := λ f i, Ret (result f i);
     Object_prototype := standard_prototype; store_restore := λ _, None |}.

(** Every function is a spy. *)
Definition spy_world : world := oracle (λ _, true) (λ _ _, Normal VUndefined).

(** Function 0 returns function 1, which returns 1. *)
Definition nested_world : world :=
  oracle (λ _, false) (λ f _, match f with
                              | 0 => Normal (VFun 1)
                              | _ => Normal (VNum 1)
                              end).

(** Every function throws "boom". *)
Definition failing_world : world :=
  oracle (λ _, false) (λ _ _, Throw (Raised (VStr "boom"))).

(** Call number [i] of any function returns [i]. *)
Definition counting_world : world :=
  oracle (λ _, false) (λ _ i, Normal (VNum (Z.of_nat i))).

(** The three factories of the README:
    [options: function () { return {model: this.model}; }],
    [model: function () { return new Model; }],
    [view: function () { return new View(this.options); }].
    A factory that meets an exception lets it pass. *)
Definition readme_world : world :=
  {| getCall := λ _, false;
     invoke := λ f _,
       match f with
       | 0 => Do (OpRead "model") (λ r,
                match r with
                | Normal _ => Ret (Normal (VObj 0))
                | Throw e => Ret (Throw e)
                end)
       | 1 => Ret (Normal (VObj 1))
       | _ => Do (OpRead "options") (λ r,
                match r with
                | Normal _ => Ret (Normal (VObj 2))
                | Throw e => Ret (Throw e)
                end)
       end;
     Object_prototype := standard_prototype; store_restore := λ _, None |}.

(** Functions that act on the property they are the factory of:
    0: [function () { this.k = 1; return g; }] with [g] function 1;
    1: [function () { return 7; }];
    2: [function () { delete this.k; return 5; }];
    3: [function () { this.k = 5; throw 'boom'; }]. *)
Definition meddling_world : world :=
  {| getCall := λ _, false;
     invoke := λ f _,
       match f with
       | 0 => Do (OpAssign "k" (VNum 1)) (λ _, Ret (Normal (VFun 1)))
       | 1 => Ret (Normal (VNum 7))
       | 2 => Do (OpDelete "k") (λ _, Ret (Normal (VNum 5)))
       | _ => Do (OpAssign "k" (VNum 5)) (λ _, Ret (Throw (Raised (VStr "boom"))))
       end;
     Object_prototype := standard_prototype; store_restore := λ _, None |}.

(** [{}], [Object.freeze({})] and
    [Object.defineProperty({}, n, {value: v})]. *)
Definition plain_object : object := empty_object spy_world.

Definition frozen_object : object :=
  {| fields := ∅; o_extensible := false; o_inherited := standard_prototype |}.

Definition fixed_object (n : string) (v : value) : object :=
  {| fields := {[ n := FData {| value_of := v; writable := false;
                                enumerable := false; configurable := false |} ]};
     o_extensible := true; o_inherited := standard_prototype |}.

(** The state [lazy({})] returns in each version. *)
Definition flag_fresh : state Flag.closure :=
  initial {| own := {[ "lazy" := Data {| value_of := VDeclare; writable := true;
                                         enumerable := true; configurable := true |} ]};
             extensible := true; inherited := standard_prototype |}.

Definition rewrite_fresh : state Rewrite.closure :=
  initial {| own := {[ "set" := Data {| value_of := VDeclare; writable := false;
                                        enumerable := false; configurable := false |} ]};
             extensible := true; inherited := standard_prototype |}.

(** A run that declares a factory, reads it twice, assigns another factory
    over it, reads again, deletes the property, reads, declares a literal,
    restores, reads once more, and reads a name that is inherited. *)
Definition sample_ops : list op :=
  [OpDeclare "k" [VFun 0]; OpRead "k"; OpRead "k"; OpAssign "k" (VFun 1);
   OpRead "k"; OpDelete "k"; OpRead "k"; OpDeclare "k" [VNum 3]; OpRestore;
   OpRead "k"; OpRead "toString"].

(** The context of the README in each version, with [options] and [model]
    declared and [view] not yet. *)
Definition readme_flag : state Flag.closure :=
  (Flag.declare "model" [VFun 1] (Flag.declare "options" [VFun 0] flag_fresh).2).2.

Definition readme_rewrite : state Rewrite.closure :=
  (Rewrite.declare "model" [VFun 1]
     (Rewrite.declare "options" [VFun 0] rewrite_fresh).2).2.

(** ** Comparing the two versions *)

(** A world in which every call of a function of the caller leaves the
    context alone, returns, and returns a value the getter would not
    call. *)
Definition tame (w : world) : Prop :=
  forall f i, exists v, invoke w f i = Ret (Normal v) /\ plain_function w v = false.

(** An operation that stays off the names [ms] and does not hand a
    function of the engine to the engine as a subject. *)
Definition tame_op (ms : list string) (o : op) : Prop :=
  match o with
  | OpDeclare n args => (n ∉ ms) /\ of_engine (subject_of args) = false
  | OpRead n => n ∉ ms
  | OpAssign n v => (n ∉ ms) /\ of_engine v = false
  | OpDelete n => n ∉ ms
  | OpRestore => True
  end.

(** What the context holds at a name, up to the attribute [enumerable] of
    a declared property and the bookkeeping of its closure. *)
Inductive shape : Type :=
  | Absent
  | Plain (d : data)
  | Lazy (subject : option value) (c : bool)
  | Other (e c : bool).

Definition flag_view (s : state Flag.closure) (n : string) : shape :=
  match own (ctx s) !! n with
  | None => Absent
  | Some (Data d) => Plain d
  | Some (Accessor k _ c) => Lazy (Flag.subject <$> heap s !! k) c
  | Some (Foreign e c) => Other e c
  end.

Definition rewrite_view (s : state Rewrite.closure) (n : string) : shape :=
  match own (ctx s) !! n with
  | None => Absent
  | Some (Data d) => Plain d
  | Some (Accessor k _ c) => Lazy (Rewrite.subject <$> heap s !! k) c
  | Some (Foreign e c) => Other e c
  end.

(** The simulation between a state of src/lazy.js and a state of
    src/unnamed/part_000, off the names [ms]. *)
Definition rel_closure (w : world) (a : Flag.closure) (b : Rewrite.closure) : Prop :=
  Flag.name a = Rewrite.name b /\
  Flag.subject a = Rewrite.subject b /\
  of_engine (Flag.subject a) = false /\
  (Flag.isMemoized a = true -> plain_function w (Flag.subject a) = false).

Definition rel_prop (pa pb : option property) : Prop :=
  match pa, pb with
  | None, None => True
  | Some (Data d), Some (Data d') => d = d'
  | Some (Accessor k _ c), Some (Accessor k' _ c') => k = k' /\ c = c'
  | Some (Foreign e c), Some (Foreign e' c') => e = e' /\ c = c'
  | _, _ => False
  end.

Record related (w : world) (ms : list string)
    (sa : state Flag.closure) (sb : state Rewrite.closure) : Prop := {
  rel_cache : cache sa = cache sb;
  rel_calls : calls sa = calls sb;
  rel_extensible : extensible (ctx sa) = extensible (ctx sb);
  rel_inherited : inherited (ctx sa) = inherited (ctx sb);
  rel_heap : Forall2 (rel_closure w) (heap sa) (heap sb);
  rel_own : forall n, n ∉ ms -> rel_prop (own (ctx sa) !! n) (own (ctx sb) !! n);
  rel_names : forall n k e c, n ∉ ms ->
    own (ctx sb) !! n = Some (Accessor k e c) ->
    exists cl, heap sb !! k = Some cl /\ Rewrite.name cl = n
}.

(** Two results that agree: both without an answer, or both with the same
    outcome and related states. *)
Definition agree {A : Type} (w : world) (ms : list string)
    (ra : option (A * state Flag.closure))
    (rb : option (A * state Rewrite.closure)) : Prop :=
  match ra, rb with
  | Some (a, sa), Some (b, sb) => a = b /\ related w ms sa sb
  | None, None => True
  | _, _ => False
  end.

(** Two runs that went alike, as a caller can tell: both without an
    answer, or the same results, the same registry, the same calls, and off
    the names [ms] the same properties. *)
Definition alike (ms : list string)
    (ra : option (list (completion value) * state Flag.closure))
    (rb : option (list (completion value) * state Rewrite.closure)) : Prop :=
  match ra, rb with
  | Some (rsa, sa), Some (rsb, sb) =>
      rsa = rsb /\ cache sa = cache sb /\ calls sa = calls sb /\
      extensible (ctx sa) = extensible (ctx sb) /\
      forall n, n ∉ ms -> flag_view sa n = rewrite_view sb n
  | None, None => True
  | _, _ => False
  end.

End Reentrant.

(** * The first model inside the second

    The first model is the second one cut down: functions of the caller
    that leave the context alone, a context with data properties of its
    own and nothing inherited, values other than [restore] and no
    [delete].  [up_..] takes the data of the first model to the second
    (lemmas [flag_models_agree] and [rewrite_models_agree]). *)

Definition up_value (v : value) : Reentrant.value :=
  match v with
  | VUndefined => Reentrant.VUndefined
  | VNull => Reentrant.VNull
  | VBool b => Reentrant.VBool b
  | VNum z => Reentrant.VNum z
  | VStr s => Reentrant.VStr s
  | VObj o => Reentrant.VObj o
  | VFun f => Reentrant.VFun f
  | VDeclare => Reentrant.VDeclare
  end.

Definition up_thrown (e : thrown) : Reentrant.thrown :=
  match e with
  | TypeError => Reentrant.TypeError
  | Raised v => Reentrant.Raised (up_value v)
  end.

Definition up_completion {A B : Type} (f : A -> B) (c : completion A)
    : Reentrant.completion B :=
  match c with
  | Normal a => Reentrant.Normal (f a)
  | Throw e => Reentrant.Throw (up_thrown e)
  end.

Definition up_data (d : data) : Reentrant.data :=
  {| Reentrant.value_of := up_value (value_of d);
     Reentrant.writable := writable d;
     Reentrant.enumerable := enumerable d;
     Reentrant.configurable := configurable d |}.

Definition up_property (p : property) : Reentrant.property :=
  match p with
  | Data d => Reentrant.Data (up_data d)
  | Accessor k e c => Reentrant.Accessor k e c
  end.

Definition up_object (o : object) : Reentrant.object :=
  {| Reentrant.fields := (λ d, Reentrant.FData (up_data d)) <$> fields o;
     Reentrant.o_extensible := o_extensible o;
     Reentrant.o_inherited := ∅ |}.

Definition up_context (c : context) : Reentrant.context :=
  {| Reentrant.own := up_property <$> own c;
     Reentrant.extensible := extensible c;
     Reentrant.inherited := ∅ |}.

Definition up_state {K K' : Type} (f : K -> K') (s : state K) : Reentrant.state K' :=
  {| Reentrant.ctx := up_context (ctx s);
     Reentrant.cache := cache s;
     Reentrant.heap := f <$> heap s;
     Reentrant.calls := calls s |}.

Definition up_flag (cl : Flag.closure) : Reentrant.Flag.closure :=
  {| Reentrant.Flag.name := Flag.name cl;
     Reentrant.Flag.subject := up_value (Flag.subject cl);
     Reentrant.Flag.isMemoized := Flag.isMemoized cl |}.

Definition up_rewrite (cl : Rewrite.closure) : Reentrant.Rewrite.closure :=
  {| Reentrant.Rewrite.name := Rewrite.name cl;
     Reentrant.Rewrite.subject := up_value (Rewrite.subject cl) |}.

Definition up_op (o : op) : Reentrant.op :=
  match o with
  | OpDeclare n args => Reentrant.OpDeclare n (up_value <$> args)
  | OpRead n => Reentrant.OpRead n
  | OpAssign n v => Reentrant.OpAssign n (up_value v)
  | OpRestore => Reentrant.OpRestore
  end.

Definition up_world (w : world) : Reentrant.world :=
  {| Reentrant.getCall := getCall w;
     Reentrant.invoke := λ f i, Reentrant.Ret (up_completion up_value (invoke w f i));
     Reentrant.Object_prototype := ∅;
     Reentrant.store_restore := λ _, None |}.

Definition up_result {K K' : Type} (f : K -> K') (r : completion value * state K)
    : Reentrant.completion Reentrant.value * Reentrant.state K' :=
  (up_completion up_value r.1, up_state f r.2).
(** * Properties *)

(** ** The object model *)

Lemma define_accessor_throws k en c n e :
  define_accessor k en c n = Throw e -> e = TypeError.
Proof.
  unfold define_accessor. repeat case_match; congruence.
Qed.

Lemma define_accessor_normal k en c n c' :
  define_accessor k en c n = Normal c' ->
  (exists e, own c' !! n = Some (Accessor k e true)) /\
  (forall n', n' ≠ n -> own c' !! n' = own c !! n') /\
  extensible c' = extensible c.
Proof.
  unfold define_accessor. intros H.
  repeat case_match; simplify_eq; simpl;
    (split; [eexists; apply lookup_insert_eq|]);
    (split; [intros n' Hn'; by rewrite lookup_insert_ne|done]).
Qed.

Lemma define_accessor_unless k en c n :
  (own c !! n = None /\ extensible c = true) \/
  (exists p, own c !! n = Some p /\ p_configurable p = true) ->
  exists c', define_accessor k en c n = Normal c'.
Proof.
  unfold define_accessor.
  intros [[-> ->]|(p & -> & ->)]; eauto.
Qed.

Lemma delete_property_lookup n c n' :
  own (delete_property n c) !! n' =
  match own c !! n' with
  | Some p => if bool_decide (n' = n) && p_configurable p then None else Some p
  | None => None
  end.
Proof.
  unfold delete_property.
  destruct (decide (n' = n)) as [->|Hne].
  - rewrite bool_decide_eq_true_2 by done. simpl.
    destruct (own c !! n) as [p|] eqn:Hp; [|by rewrite Hp].
    destruct (p_configurable p); simpl; [apply lookup_delete_eq|by rewrite Hp].
  - rewrite bool_decide_eq_false_2 by done. simpl.
    destruct (own c !! n) as [p|] eqn:Hp; [|by destruct (own c !! n')].
    destruct (p_configurable p); simpl.
    + rewrite lookup_delete_ne by done. by destruct (own c !! n').
    + by destruct (own c !! n').
Qed.

Lemma delete_property_extensible n c :
  extensible (delete_property n c) = extensible c.
Proof. unfold delete_property. by repeat case_match. Qed.

(** What the loop of [restore] leaves of each property: the configurable
    ones whose names are in the registry are gone, all others stay. *)
Lemma restore_loop_lookup l c n :
  own (restore_loop l c) !! n =
  match own c !! n with
  | Some p => if bool_decide (n ∈ l) && p_configurable p then None else Some p
  | None => None
  end.
Proof.
  revert c. induction l as [|n0 l IH]; intros c; simpl.
  - by destruct (own c !! n).
  - rewrite IH, delete_property_lookup.
    destruct (own c !! n) as [p|]; [|done].
    destruct (decide (n = n0)) as [->|Hne].
    + rewrite bool_decide_eq_true_2 by done.
      rewrite (bool_decide_eq_true_2 (n0 ∈ n0 :: l)) by set_solver.
      destruct (p_configurable p) eqn:Hc; simpl; [done|].
      by rewrite Hc, andb_false_r.
    + rewrite bool_decide_eq_false_2 by done. simpl.
      replace (bool_decide (n ∈ n0 :: l)) with (bool_decide (n ∈ l)); [done|].
      apply bool_decide_ext. rewrite elem_of_cons. tauto.
Qed.

Lemma restore_loop_extensible l c :
  extensible (restore_loop l c) = extensible c.
Proof.
  revert c. induction l as [|n0 l IH]; intros c; simpl; [done|].
  by rewrite IH, delete_property_extensible.
Qed.

Lemma restore_loop_other l c n :
  n ∉ l -> own (restore_loop l c) !! n = own c !! n.
Proof.
  intros Hn. rewrite restore_loop_lookup.
  rewrite bool_decide_eq_false_2 by done. by destruct (own c !! n).
Qed.

Lemma hasOwnProperty_false c n :
  hasOwnProperty c n = false <-> own c !! n = None.
Proof.
  unfold hasOwnProperty. rewrite bool_decide_eq_false, <- eq_None_not_Some.
  done.
Qed.

(** ** The declaration function *)

Lemma flag_declare_cache n args s :
  cache (Flag.declare n args s).2 = n :: cache s.
Proof. unfold Flag.declare. simpl. by case_match. Qed.

Lemma rewrite_declare_cache n args s :
  cache (Rewrite.declare n args s).2 = n :: cache s.
Proof. unfold Rewrite.declare. simpl. by case_match. Qed.

Lemma flag_declare_normal n args s v s' :
  Flag.declare n args s = (Normal v, s') ->
  v = VUndefined /\
  (exists e, own (ctx s') !! n = Some (Accessor (length (heap s)) e true)) /\
  (forall n', n' ≠ n -> own (ctx s') !! n' = own (ctx s) !! n') /\
  extensible (ctx s') = extensible (ctx s) /\
  calls s' = calls s /\
  cache s' = n :: cache s /\
  exists cl, heap s' = heap s ++ [cl] /\ Flag.name cl = n /\
    Flag.subject cl = (match args with [x] => x | _ => VNull end) /\
    Flag.isMemoized cl = false.
Proof.
  unfold Flag.declare. simpl.
  destruct (define_accessor _ _ _ _) as [c|e] eqn:Hd; intros H; simplify_eq.
  apply define_accessor_normal in Hd as (He & Hfr & Hx). simpl.
  split_and!; try done. eexists. split_and!; done.
Qed.

Lemma flag_declare_throw n args s e s' :
  Flag.declare n args s = (Throw e, s') ->
  e = TypeError /\ ctx s' = ctx s /\ calls s' = calls s.
Proof.
  unfold Flag.declare. simpl.
  destruct (define_accessor _ _ _ _) as [c|e'] eqn:Hd; intros H; simplify_eq.
  apply define_accessor_throws in Hd. done.
Qed.

Lemma rewrite_declare_normal n args s v s' :
  Rewrite.declare n args s = (Normal v, s') ->
  v = VUndefined /\
  own (ctx s') !! n = Some (Accessor (length (heap s)) true true) /\
  (forall n', n' ≠ n -> own (ctx s') !! n' = own (ctx s) !! n') /\
  extensible (ctx s') = extensible (ctx s) /\
  calls s' = calls s /\
  cache s' = n :: cache s /\
  exists cl, heap s' = heap s ++ [cl] /\ Rewrite.name cl = n /\
    Rewrite.subject cl = (match args with [x] => x | _ => VNull end).
Proof.
  unfold Rewrite.declare. simpl.
  destruct (define_accessor _ _ _ _) as [c|e] eqn:Hd; intros H; simplify_eq.
  pose proof Hd as Hd'.
  apply define_accessor_normal in Hd as ([e He] & Hfr & Hx). simpl.
  split_and!; try done.
  - unfold define_accessor in Hd'. repeat case_match; simplify_eq; simpl;
      apply lookup_insert_eq.
  - eexists. split_and!; done.
Qed.

Lemma rewrite_declare_throw n args s e s' :
  Rewrite.declare n args s = (Throw e, s') ->
  e = TypeError /\ ctx s' = ctx s /\ calls s' = calls s.
Proof.
  unfold Rewrite.declare. simpl.
  destruct (define_accessor _ _ _ _) as [c|e'] eqn:Hd; intros H; simplify_eq.
  apply define_accessor_throws in Hd. done.
Qed.

Lemma restorable_restore {K} (s : state K) n :
  restorable s n -> own (ctx (restore s).2) !! n = None.
Proof.
  intros [Hin Hc]. simpl. rewrite restore_loop_lookup.
  destruct (own (ctx s) !! n) as [p|] eqn:Hp; [|done].
  by rewrite bool_decide_eq_true_2, (Hc p).
Qed.

Lemma flag_declare_restorable n args s n' :
  restorable s n' -> restorable (Flag.declare n args s).2 n'.
Proof.
  intros [Hin Hc].
  pose proof (flag_declare_cache n args s) as Hca.
  destruct (Flag.declare n args s) as [[v|e] s'] eqn:Hd; simpl in *.
  - apply flag_declare_normal in Hd as (_ & [e He] & Hfr & _).
    split; [rewrite Hca; set_solver|].
    intros p. destruct (decide (n' = n)) as [->|Hne].
    + rewrite He. by intros [= <-].
    + rewrite Hfr by done. apply Hc.
  - apply flag_declare_throw in Hd as (_ & Hctx & _).
    split; [rewrite Hca; set_solver|]. rewrite Hctx. apply Hc.
Qed.

Lemma rewrite_declare_restorable n args s n' :
  restorable s n' -> restorable (Rewrite.declare n args s).2 n'.
Proof.
  intros [Hin Hc].
  pose proof (rewrite_declare_cache n args s) as Hca.
  destruct (Rewrite.declare n args s) as [[v|e] s'] eqn:Hd; simpl in *.
  - apply rewrite_declare_normal in Hd as (_ & He & Hfr & _).
    split; [rewrite Hca; set_solver|].
    intros p. destruct (decide (n' = n)) as [->|Hne].
    + rewrite He. by intros [= <-].
    + rewrite Hfr by done. apply Hc.
  - apply rewrite_declare_throw in Hd as (_ & Hctx & _).
    split; [rewrite Hca; set_solver|]. rewrite Hctx. apply Hc.
Qed.

Lemma flag_declared_restorable n args s s' :
  Flag.declare n args s = (Normal VUndefined, s') -> restorable s' n.
Proof.
  intros Hd.
  apply flag_declare_normal in Hd as (_ & [e He] & _ & _ & _ & Hca & _).
  split; [rewrite Hca; set_solver|].
  intros p. rewrite He. by intros [= <-].
Qed.

Lemma rewrite_declared_restorable n args s s' :
  Rewrite.declare n args s = (Normal VUndefined, s') -> restorable s' n.
Proof.
  intros Hd.
  apply rewrite_declare_normal in Hd as (_ & He & _ & _ & _ & Hca & _).
  split; [rewrite Hca; set_solver|].
  intros p. rewrite He. by intros [= <-].
Qed.

Lemma flag_declarations_restorable w ds s rs s1 :
  Flag.run w (declarations ds) s = (rs, s1) ->
  (forall n, restorable s n -> restorable s1 n) /\
  (forall i d, ds !! i = Some d -> rs !! i = Some (Normal VUndefined) ->
     restorable s1 d.1).
Proof.
  revert s rs s1. induction ds as [|[n args] ds IH]; intros s rs s1; simpl.
  - intros [= <- <-]. split; [done|]. intros i d Hi. by rewrite lookup_nil in Hi.
  - destruct (Flag.declare n args s) as [r s'] eqn:Hd.
    destruct (Flag.run w (declarations ds) s') as [rs' s2] eqn:Hrun.
    intros [= <- <-]. destruct (IH _ _ _ Hrun) as [IH1 IH2].
    split.
    + intros n' Hn'. apply IH1.
      pose proof (flag_declare_restorable n args s n' Hn') as H.
      by rewrite Hd in H.
    + intros [|i] d Hi Hr; simpl in *; simplify_eq.
      * apply IH1. simpl. by eapply flag_declared_restorable.
      * by eapply IH2.
Qed.

Lemma rewrite_declarations_restorable w ds s rs s1 :
  Rewrite.run w (declarations ds) s = (rs, s1) ->
  (forall n, restorable s n -> restorable s1 n) /\
  (forall i d, ds !! i = Some d -> rs !! i = Some (Normal VUndefined) ->
     restorable s1 d.1).
Proof.
  revert s rs s1. induction ds as [|[n args] ds IH]; intros s rs s1; simpl.
  - intros [= <- <-]. split; [done|]. intros i d Hi. by rewrite lookup_nil in Hi.
  - destruct (Rewrite.declare n args s) as [r s'] eqn:Hd.
    destruct (Rewrite.run w (declarations ds) s') as [rs' s2] eqn:Hrun.
    intros [= <- <-]. destruct (IH _ _ _ Hrun) as [IH1 IH2].
    split.
    + intros n' Hn'. apply IH1.
      pose proof (rewrite_declare_restorable n args s n' Hn') as H.
      by rewrite Hd in H.
    + intros [|i] d Hi Hr; simpl in *; simplify_eq.
      * apply IH1. simpl. by eapply rewrite_declared_restorable.
      * by eapply IH2.
Qed.

(** A declaration throws exactly on a name that is stuck, and whether a
    name is stuck, and what a stuck name holds, is beyond the reach of
    declarations. *)
Lemma define_accessor_stuck k en c n :
  (exists e, define_accessor k en c n = Throw e) <-> stuck c n.
Proof.
  unfold define_accessor, stuck.
  destruct (own c !! n) as [p|].
  - destruct (p_configurable p); split; try done; [by intros [? ?]|eauto].
  - destruct (extensible c); split; try done; [by intros [? ?]|eauto].
Qed.

Lemma define_accessor_stuck_other k en c n c' n' :
  define_accessor k en c n = Normal c' ->
  ~ stuck c' n /\
  (n' ≠ n -> (stuck c' n' <-> stuck c n') /\ own c' !! n' = own c !! n').
Proof.
  intros Hd. apply define_accessor_normal in Hd as ([e He] & Hfr & Hx).
  split.
  - unfold stuck. by rewrite He.
  - intros Hne. unfold stuck. by rewrite Hfr, Hx.
Qed.

Lemma flag_declare_unfold n args s :
  (Flag.declare n args s).1
    = match define_accessor (length (heap s)) None (ctx s) n with
      | Normal _ => Normal VUndefined
      | Throw e => Throw e
      end /\
  ctx (Flag.declare n args s).2
    = match define_accessor (length (heap s)) None (ctx s) n with
      | Normal c => c
      | Throw _ => ctx s
      end.
Proof. unfold Flag.declare. simpl. by destruct (define_accessor _ _ _ _). Qed.

Lemma rewrite_declare_unfold n args s :
  (Rewrite.declare n args s).1
    = match define_accessor (length (heap s)) (Some true) (ctx s) n with
      | Normal _ => Normal VUndefined
      | Throw e => Throw e
      end /\
  ctx (Rewrite.declare n args s).2
    = match define_accessor (length (heap s)) (Some true) (ctx s) n with
      | Normal c => c
      | Throw _ => ctx s
      end.
Proof. unfold Rewrite.declare. simpl. by destruct (define_accessor _ _ _ _). Qed.

Lemma define_accessor_stuck_step k en c n r c1 n' :
  r = match define_accessor k en c n with
      | Normal _ => Normal VUndefined
      | Throw e => Throw e
      end ->
  c1 = match define_accessor k en c n with
       | Normal c' => c'
       | Throw _ => c
       end ->
  (stuck c1 n' <-> stuck c n') /\
  (stuck c n' -> own c1 !! n' = own c !! n') /\
  (forall e, r = Throw e -> stuck c n).
Proof.
  intros -> ->.
  destruct (define_accessor k en c n) as [c'|e] eqn:Hd.
  - destruct (define_accessor_stuck_other _ _ _ _ _ n' Hd) as [Hn Hother].
    assert (~ stuck c n) as Hnot.
    { rewrite <- define_accessor_stuck. intros [e He]. rewrite Hd in He. done. }
    destruct (decide (n' = n)) as [->|Hne].
    + split_and!; [tauto|tauto|done].
    + destruct (Hother Hne) as [Hiff Heq]. split_and!; done.
  - split_and!; try done. intros _ _.
    exact (proj1 (define_accessor_stuck k en c n) (ex_intro _ e Hd)).
Qed.

Lemma flag_declarations_stuck w ds s n :
  (stuck (ctx (Flag.run w (declarations ds) s).2) n <-> stuck (ctx s) n) /\
  (stuck (ctx s) n ->
     own (ctx (Flag.run w (declarations ds) s).2) !! n = own (ctx s) !! n) /\
  (forall i d e, ds !! i = Some d ->
     (Flag.run w (declarations ds) s).1 !! i = Some (Throw e) ->
     d.1 = n -> stuck (ctx s) n).
Proof.
  revert s. induction ds as [|[n0 args] ds IH]; intros s; simpl.
  - split_and!; try done.
  - destruct (flag_declare_unfold n0 args s) as [Hr Hc].
    destruct (Flag.declare n0 args s) as [r s'] eqn:Hd. simpl in *.
    destruct (IH s') as (IH1 & IH2 & IH3).
    destruct (Flag.run w (declarations ds) s') as [rs s2] eqn:Hrun. simpl in *.
    destruct (define_accessor_stuck_step _ _ _ _ _ _ n Hr Hc) as (S1 & S2 & _).
    split_and!.
    + by rewrite IH1.
    + intros Hs. rewrite IH2 by by apply S1. by apply S2.
    + intros [|i] d e Hi Hri Hdn; simpl in *; simplify_eq.
      * by destruct (define_accessor_stuck_step _ _ _ _ _ _ n0 eq_refl Hc)
          as (_ & _ & S3); eapply S3.
      * apply S1. by eapply IH3.
Qed.

Lemma rewrite_declarations_stuck w ds s n :
  (stuck (ctx (Rewrite.run w (declarations ds) s).2) n <-> stuck (ctx s) n) /\
  (stuck (ctx s) n ->
     own (ctx (Rewrite.run w (declarations ds) s).2) !! n = own (ctx s) !! n) /\
  (forall i d e, ds !! i = Some d ->
     (Rewrite.run w (declarations ds) s).1 !! i = Some (Throw e) ->
     d.1 = n -> stuck (ctx s) n).
Proof.
  revert s. induction ds as [|[n0 args] ds IH]; intros s; simpl.
  - split_and!; try done.
  - destruct (rewrite_declare_unfold n0 args s) as [Hr Hc].
    destruct (Rewrite.declare n0 args s) as [r s'] eqn:Hd. simpl in *.
    destruct (IH s') as (IH1 & IH2 & IH3).
    destruct (Rewrite.run w (declarations ds) s') as [rs s2] eqn:Hrun. simpl in *.
    destruct (define_accessor_stuck_step _ _ _ _ _ _ n Hr Hc) as (S1 & S2 & _).
    split_and!.
    + by rewrite IH1.
    + intros Hs. rewrite IH2 by by apply S1. by apply S2.
    + intros [|i] d e Hi Hri Hdn; simpl in *; simplify_eq.
      * by destruct (define_accessor_stuck_step _ _ _ _ _ _ n0 eq_refl Hc)
          as (_ & _ & S3); eapply S3.
      * apply S1. by eapply IH3.
Qed.

Lemma stuck_restore {K} (s : state K) n :
  stuck (ctx s) n -> own (ctx (restore s).2) !! n = own (ctx s) !! n.
Proof.
  unfold stuck. simpl. rewrite restore_loop_lookup.
  destruct (own (ctx s) !! n) as [p|]; [|done].
  intros ->. by rewrite andb_false_r.
Qed.

(** ** Restore *)

(** C7. After any sequence of declarations, [restore] leaves the context
    without a property at every name whose declaration went through, and
    leaves the registry empty; it does not throw, and a second [restore]
    changes nothing and does not throw either.  The registry may hold a name
    several times, and may hold names pushed before the sequence.  (A name
    whose declaration threw never had a property installed by the engine:
    it holds after [restore] what it held before the declarations.) *)
Theorem restore_clears_declared (w : world) (ds : list (string * list value)) :
  (forall s : state Flag.closure,
     let r := Flag.run w (declarations ds) s in
     let s2 := (restore r.2).2 in
     (forall i d, ds !! i = Some d -> r.1 !! i = Some (Normal VUndefined) ->
        hasOwnProperty (ctx s2) d.1 = false) /\
     (forall i d e, ds !! i = Some d -> r.1 !! i = Some (Throw e) ->
        own (ctx s2) !! d.1 = own (ctx s) !! d.1) /\
     cache s2 = [] /\
     (restore r.2).1 = Normal VUndefined /\
     restore s2 = (Normal VUndefined, s2)) /\
  (forall s : state Rewrite.closure,
     let r := Rewrite.run w (declarations ds) s in
     let s2 := (restore r.2).2 in
     (forall i d, ds !! i = Some d -> r.1 !! i = Some (Normal VUndefined) ->
        hasOwnProperty (ctx s2) d.1 = false) /\
     (forall i d e, ds !! i = Some d -> r.1 !! i = Some (Throw e) ->
        own (ctx s2) !! d.1 = own (ctx s) !! d.1) /\
     cache s2 = [] /\
     (restore r.2).1 = Normal VUndefined /\
     restore s2 = (Normal VUndefined, s2)) .
Proof.
  split; intros s r s2; subst s2; (split; [|split; [|done]]).
  - intros i d Hi Hr. apply hasOwnProperty_false, restorable_restore. subst r.
    destruct (Flag.run w (declarations ds) s) as [rs s1] eqn:Hrun.
    eapply flag_declarations_restorable; eauto.
  - intros i d e Hi Hr. subst r.
    destruct (flag_declarations_stuck w ds s d.1) as (H1 & H2 & H3).
    assert (stuck (ctx s) d.1) as Hs by by eapply H3.
    rewrite stuck_restore by by apply H1. by apply H2.
  - intros i d Hi Hr. apply hasOwnProperty_false, restorable_restore. subst r.
    destruct (Rewrite.run w (declarations ds) s) as [rs s1] eqn:Hrun.
    eapply rewrite_declarations_restorable; eauto.
  - intros i d e Hi Hr. subst r.
    destruct (rewrite_declarations_stuck w ds s d.1) as (H1 & H2 & H3).
    assert (stuck (ctx s) d.1) as Hs by by eapply H3.
    rewrite stuck_restore by by apply H1. by apply H2.
Qed.

Lemma restore_clears_declared_witness :
  hasOwnProperty
    (ctx (restore (Flag.run spy_world
                     (declarations [("a", [VNum 1]); ("b", []); ("a", [VNum 2])])
                     flag_fresh).2).2) "a" = false /\
  hasOwnProperty
    (ctx (restore (Rewrite.run spy_world
                     (declarations [("a", [VNum 1]); ("b", []); ("a", [VNum 2])])
                     rewrite_fresh).2).2) "a" = false.
Proof.
  pose proof (restore_clears_declared spy_world
                [("a", [VNum 1]); ("b", []); ("a", [VNum 2])]) as [HF HR].
  split.
  - exact (proj1 (HF flag_fresh) 0 ("a", [VNum 1]) eq_refl eq_refl).
  - exact (proj1 (HR rewrite_fresh) 0 ("a", [VNum 1]) eq_refl eq_refl).
Defined.

(** ** The registry along a run *)

Lemma cache_sound_same {K} (s s' : state K) :
  ctx s' = ctx s -> cache s' = cache s -> cache_sound s -> cache_sound s'.
Proof. unfold cache_sound. intros -> ->. done. Qed.

Lemma cache_sound_define {K} (s s' : state K) k en n :
  cache_sound s ->
  cache s' = n :: cache s ->
  ctx s' = match define_accessor k en (ctx s) n with
           | Normal c' => c'
           | Throw _ => ctx s
           end ->
  cache_sound s'.
Proof.
  intros Hs Hca Hctx n'. rewrite Hca, elem_of_cons.
  destruct (define_accessor k en (ctx s) n) as [c'|e] eqn:Hdef; rewrite Hctx.
  - apply define_accessor_normal in Hdef as ([e He] & Hfr & Hx).
    destruct (decide (n' = n)) as [->|Hne]; [by rewrite He|].
    intros [?|Hin]; [done|]. rewrite Hfr, Hx by done. by apply Hs.
  - pose proof (proj1 (define_accessor_stuck k en (ctx s) n) (ex_intro _ e Hdef))
      as Hst.
    intros [->|Hin]; [|by apply Hs].
    unfold stuck in Hst. destruct (own (ctx s) !! n) as [[d|k' e' c']|]; done.
Qed.

Lemma flag_declare_sound n args s :
  cache_sound s -> cache_sound (Flag.declare n args s).2.
Proof.
  intros Hs. eapply (cache_sound_define s); [done| |].
  - apply flag_declare_cache.
  - apply flag_declare_unfold.
Qed.

Lemma rewrite_declare_sound n args s :
  cache_sound s -> cache_sound (Rewrite.declare n args s).2.
Proof.
  intros Hs. eapply (cache_sound_define s); [done| |].
  - apply rewrite_declare_cache.
  - apply rewrite_declare_unfold.
Qed.

Lemma Put_sound {K} (setter : nat -> value -> state K -> state K) n v s :
  (forall k v s, ctx (setter k v s) = ctx s /\ cache (setter k v s) = cache s) ->
  cache_sound s -> cache_sound (Put setter n v s).
Proof.
  intros Hset Hs. unfold Put.
  destruct (own (ctx s) !! n) as [[d|k e c]|] eqn:Hn.
  - destruct (writable d); [|done]. intros n' Hin. simpl in *.
    specialize (Hs n' Hin). destruct (decide (n' = n)) as [->|Hne].
    + rewrite lookup_insert_eq. by rewrite Hn in Hs.
    + by rewrite lookup_insert_ne.
  - destruct (Hset k v s). by eapply cache_sound_same.
  - destruct (extensible (ctx s)) eqn:Hx; [|done]. intros n' Hin. simpl in *.
    specialize (Hs n' Hin). destruct (decide (n' = n)) as [->|Hne].
    + rewrite Hn in Hs. congruence.
    + by rewrite lookup_insert_ne.
Qed.

Lemma flag_assign_sound n v s :
  cache_sound s -> cache_sound (Flag.assign n v s).
Proof. by apply Put_sound. Qed.

Lemma rewrite_assign_sound n v s :
  cache_sound s -> cache_sound (Rewrite.assign n v s).
Proof. by apply Put_sound. Qed.

Lemma flag_call_sound w v s :
  cache_sound s -> cache_sound (Flag.call w v s).2.
Proof.
  intros Hs. destruct v; simpl; try done. by apply flag_declare_sound.
Qed.

Lemma rewrite_call_sound w v s :
  cache_sound s -> cache_sound (Rewrite.call w v s).2.
Proof.
  intros Hs. destruct v; simpl; try done. by apply rewrite_declare_sound.
Qed.

Lemma flag_getter_sound w k s :
  cache_sound s -> cache_sound (Flag.getter w k s).2.
Proof.
  intros Hs. unfold Flag.getter.
  destruct (heap s !! k) as [cl|]; [|done].
  destruct (Flag.isMemoized cl); [done|]. cbv zeta.
  destruct (is_function _ && negb _); [|done].
  match goal with
  | |- context [Flag.call w ?v ?s1] =>
      pose proof (flag_call_sound w v s1) as Hc;
      destruct (Flag.call w v s1) as [[r|e] s2]
  end; simpl in *; apply Hc; done.
Qed.

Lemma rewrite_getter_sound w k s :
  cache_sound s -> cache_sound (Rewrite.getter w k s).2.
Proof.
  intros Hs. unfold Rewrite.getter.
  destruct (heap s !! k) as [cl|]; [|done]. cbv zeta.
  destruct (is_function _ && negb _); [|by apply rewrite_assign_sound].
  pose proof (rewrite_call_sound w (Rewrite.subject cl) s Hs) as Hc.
  destruct (Rewrite.call w (Rewrite.subject cl) s) as [[r|e] s2]; simpl in *;
    [by apply rewrite_assign_sound|done].
Qed.

Lemma restore_sound {K} (s : state K) : cache_sound (restore s).2.
Proof. intros n. simpl. by rewrite elem_of_nil. Qed.

Lemma flag_step_sound w o s :
  cache_sound s -> cache_sound (Flag.step w o s).2.
Proof.
  intros Hs. destruct o as [n args|n|n v|]; simpl.
  - by apply flag_declare_sound.
  - unfold Flag.read, Get. destruct (own (ctx s) !! n) as [[d|k e c]|]; try done.
    by apply flag_getter_sound.
  - by apply flag_assign_sound.
  - apply restore_sound.
Qed.

Lemma rewrite_step_sound w o s :
  cache_sound s -> cache_sound (Rewrite.step w o s).2.
Proof.
  intros Hs. destruct o as [n args|n|n v|]; simpl.
  - by apply rewrite_declare_sound.
  - unfold Rewrite.read, Get. destruct (own (ctx s) !! n) as [[d|k e c]|]; try done.
    by apply rewrite_getter_sound.
  - by apply rewrite_assign_sound.
  - apply restore_sound.
Qed.

Lemma flag_run_sound w ops s :
  cache_sound s -> cache_sound (Flag.run w ops s).2.
Proof.
  revert s. induction ops as [|o ops IH]; intros s Hs; [done|]. simpl.
  pose proof (flag_step_sound w o s Hs) as Hs'.
  destruct (Flag.step w o s) as [r s']. specialize (IH s' Hs').
  by destruct (Flag.run w ops s').
Qed.

Lemma rewrite_run_sound w ops s :
  cache_sound s -> cache_sound (Rewrite.run w ops s).2.
Proof.
  revert s. induction ops as [|o ops IH]; intros s Hs; [done|]. simpl.
  pose proof (rewrite_step_sound w o s Hs) as Hs'.
  destruct (Rewrite.step w o s) as [r s']. specialize (IH s' Hs').
  by destruct (Rewrite.run w ops s').
Qed.

(** On a sound registry, [restore] deletes accessors only. *)
Lemma restore_keeps_data {K} (s : state K) n d :
  cache_sound s -> own (ctx s) !! n = Some (Data d) ->
  own (ctx (restore s).2) !! n = Some (Data d).
Proof.
  intros Hs Hn. simpl. rewrite restore_loop_lookup, Hn.
  destruct (decide (n ∈ cache s)) as [Hin|Hin].
  - specialize (Hs n Hin). rewrite Hn in Hs. simpl. by rewrite Hs, andb_false_r.
  - by rewrite bool_decide_eq_false_2.
Qed.

Lemma restore_frame_generic {K} (s : state K) :
  (forall n, n ∉ cache s -> own (ctx (restore s).2) !! n = own (ctx s) !! n) /\
  (forall n, own (ctx (restore s).2) !! n ≠ own (ctx s) !! n ->
     n ∈ cache s /\ own (ctx (restore s).2) !! n = None) /\
  (forall m d, own (ctx s) !! m = Some (Data d) -> value_of d = VDeclare ->
     m ∉ cache s \/ configurable d = false ->
     own (ctx (restore s).2) !! m = Some (Data d)) /\
  extensible (ctx (restore s).2) = extensible (ctx s) /\
  heap (restore s).2 = heap s /\
  calls (restore s).2 = calls s.
Proof.
  simpl. split_and!; try done.
  - intros n Hn. by apply restore_loop_other.
  - intros n. rewrite restore_loop_lookup.
    destruct (own (ctx s) !! n) as [p|]; [|done].
    destruct (decide (n ∈ cache s)) as [Hin|Hin].
    + rewrite bool_decide_eq_true_2 by done. simpl.
      by destruct (p_configurable p).
    + rewrite bool_decide_eq_false_2 by done. done.
  - intros m d Hm _ Hor. rewrite restore_loop_lookup, Hm. simpl.
    destruct Hor as [Hin| ->].
    + by rewrite bool_decide_eq_false_2.
    + by rewrite andb_false_r.
  - apply restore_loop_extensible.
Qed.


(** ** Reading a declared property *)

(** Reading or assigning a name that holds an accessor runs the getter or
    the setter of its closure. *)
Lemma flag_read_accessor w s n k e c :
  own (ctx s) !! n = Some (Accessor k e c) ->
  Flag.read w n s = Flag.getter w k s.
Proof. intros H. unfold Flag.read, Get. by rewrite H. Qed.

Lemma rewrite_read_accessor w s n k e c :
  own (ctx s) !! n = Some (Accessor k e c) ->
  Rewrite.read w n s = Rewrite.getter w k s.
Proof. intros H. unfold Rewrite.read, Get. by rewrite H. Qed.

Lemma rewrite_assign_accessor s n k e c v :
  own (ctx s) !! n = Some (Accessor k e c) ->
  Rewrite.assign n v s = Rewrite.setter k v s.
Proof. intros H. unfold Rewrite.assign, Put. by rewrite H. Qed.

Lemma flag_assign_accessor s n k e c v :
  own (ctx s) !! n = Some (Accessor k e c) ->
  Flag.assign n v s = Flag.setter k v s.
Proof. intros H. unfold Flag.assign, Put. by rewrite H. Qed.

(** A spy under the flag-based getter: handed back, nothing called. *)
Lemma flag_getter_mock w f k s cl :
  heap s !! k = Some cl -> Flag.subject cl = VFun f -> getCall w f = true ->
  exists s' cl',
    Flag.getter w k s = (Normal (VFun f), s') /\
    ctx s' = ctx s /\ calls s' = calls s /\
    heap s' !! k = Some cl' /\ Flag.subject cl' = VFun f.
Proof.
  intros Hk Hs Hm. unfold Flag.getter. rewrite Hk.
  destruct (Flag.isMemoized cl) eqn:Hmemo.
  - exists s, cl. by rewrite Hs.
  - rewrite Hs. simpl. rewrite Hm. simpl.
    eexists _, _. split; [done|]. split; [done|]. split; [done|]. split.
    + simpl. rewrite list_lookup_alter, Hk. simpl. by rewrite decide_True.
    + done.
Qed.

(** A spy under the self-rewriting getter, for the accessor its closure was
    declared with. *)
Lemma rewrite_getter_mock w f k s cl e c :
  heap s !! k = Some cl -> Rewrite.subject cl = VFun f -> getCall w f = true ->
  own (ctx s) !! Rewrite.name cl = Some (Accessor k e c) ->
  exists s',
    Rewrite.getter w k s = (Normal (VFun f), s') /\
    ctx s' = ctx s /\ calls s' = calls s /\
    heap s' !! k = Some cl.
Proof.
  intros Hk Hs Hm Hn. unfold Rewrite.getter. rewrite Hk, Hs. simpl.
  rewrite Hm. simpl.
  rewrite (rewrite_assign_accessor _ _ _ _ _ _ Hn).
  eexists. split_and!; try done.
  simpl. rewrite list_lookup_alter, Hk. simpl. rewrite decide_True by done.
  destruct cl; simpl in *; by subst.
Qed.

Lemma flag_reads_mock w f n k e c reads :
  getCall w f = true ->
  forall s cl,
    own (ctx s) !! n = Some (Accessor k e c) ->
    heap s !! k = Some cl -> Flag.subject cl = VFun f ->
    (Flag.run w (replicate reads (OpRead n)) s).1 = replicate reads (Normal (VFun f)) /\
    calls (Flag.run w (replicate reads (OpRead n)) s).2 = calls s.
Proof.
  intros Hm. induction reads as [|reads IH]; intros s cl Hn Hk Hs; [done|].
  simpl. rewrite (flag_read_accessor _ _ _ _ _ _ Hn).
  destruct (flag_getter_mock w f k s cl Hk Hs Hm)
    as (s' & cl' & -> & Hctx & Hcalls & Hk' & Hs').
  rewrite <- Hctx in Hn. destruct (IH s' cl' Hn Hk' Hs') as [IH1 IH2].
  destruct (Flag.run w (replicate reads (OpRead n)) s') as [rs s2].
  simpl in *. by rewrite IH1, IH2.
Qed.

Lemma rewrite_reads_mock w f n k e c reads :
  getCall w f = true ->
  forall s cl,
    own (ctx s) !! n = Some (Accessor k e c) ->
    heap s !! k = Some cl -> Rewrite.subject cl = VFun f ->
    Rewrite.name cl = n ->
    (Rewrite.run w (replicate reads (OpRead n)) s).1
      = replicate reads (Normal (VFun f)) /\
    calls (Rewrite.run w (replicate reads (OpRead n)) s).2 = calls s.
Proof.
  intros Hm. induction reads as [|reads IH]; intros s cl Hn Hk Hs Hname; [done|].
  simpl. rewrite (rewrite_read_accessor _ _ _ _ _ _ Hn).
  assert (own (ctx s) !! Rewrite.name cl = Some (Accessor k e c)) as Hn'
    by by rewrite Hname.
  destruct (rewrite_getter_mock w f k s cl e c Hk Hs Hm Hn')
    as (s' & -> & Hctx & Hcalls & Hk').
  rewrite <- Hctx in Hn. destruct (IH s' cl Hn Hk' Hs Hname) as [IH1 IH2].
  destruct (Rewrite.run w (replicate reads (OpRead n)) s') as [rs s2].
  simpl in *. by rewrite IH1, IH2.
Qed.

(** C8. A function that has [getCall] (a spy), declared as the subject of
    [n]: every read of [context[n]], the first and the later ones, yields
    that function, and no function is called. *)
Theorem mock_returned_uninvoked (w : world) (f : nat) (n : string) (reads : nat) :
  getCall w f = true ->
  (forall s s1 : state Flag.closure,
     Flag.declare n [VFun f] s = (Normal VUndefined, s1) ->
     (Flag.run w (replicate reads (OpRead n)) s1).1
       = replicate reads (Normal (VFun f)) /\
     calls (Flag.run w (replicate reads (OpRead n)) s1).2 = calls s) /\
  (forall s s1 : state Rewrite.closure,
     Rewrite.declare n [VFun f] s = (Normal VUndefined, s1) ->
     (Rewrite.run w (replicate reads (OpRead n)) s1).1
       = replicate reads (Normal (VFun f)) /\
     calls (Rewrite.run w (replicate reads (OpRead n)) s1).2 = calls s).
Proof.
  intros Hm. split; intros s s1 Hd.
  - apply flag_declare_normal in Hd
      as (_ & [e He] & _ & _ & Hcalls & _ & cl & Hh & _ & Hs & _).
    rewrite <- Hcalls.
    apply (flag_reads_mock w f n (length (heap s)) e true reads Hm s1 cl);
      [done| |done].
    rewrite Hh, lookup_app_r, Nat.sub_diag by done. done.
  - apply rewrite_declare_normal in Hd
      as (_ & He & _ & _ & Hcalls & _ & cl & Hh & Hname & Hs).
    rewrite <- Hcalls.
    apply (rewrite_reads_mock w f n (length (heap s)) true true reads Hm s1 cl);
      [done| |done|done].
    rewrite Hh, lookup_app_r, Nat.sub_diag by done. done.
Qed.

Lemma mock_returned_uninvoked_witness :
  (Flag.run spy_world (replicate 3 (OpRead "spy"))
     (Flag.declare "spy" [VFun 0] flag_fresh).2).1
    = replicate 3 (Normal (VFun 0)) /\
  (Rewrite.run spy_world (replicate 3 (OpRead "spy"))
     (Rewrite.declare "spy" [VFun 0] rewrite_fresh).2).1
    = replicate 3 (Normal (VFun 0)).
Proof.
  split.
  - apply (proj1 (mock_returned_uninvoked spy_world 0 "spy" 3 eq_refl)
             flag_fresh).
    reflexivity.
  - apply (proj2 (mock_returned_uninvoked spy_world 0 "spy" 3 eq_refl)
             rewrite_fresh).
    reflexivity.
Defined.

(** ** Attaching *)

Lemma adopt_lookup o n : own (adopt o) !! n = Data <$> fields o !! n.
Proof. unfold adopt. simpl. apply lookup_fmap. Qed.

Lemma flag_lazy_fresh w : Flag.lazy w (Some empty_object) None = Normal flag_fresh.
Proof. reflexivity. Qed.

Lemma rewrite_lazy_fresh : Rewrite.lazy (Some empty_object) None = Normal rewrite_fresh.
Proof. reflexivity. Qed.

(** [lazy] of the self-rewriting version: it goes through exactly when the
    property can be defined, and then only the value at [m] is new. *)
Lemma rewrite_lazy_normal c method :
  let m := or_default method "set" in
  let o := default empty_object c in
  can_define o m = true ->
  exists s, Rewrite.lazy c method = Normal s /\
    installed s m /\
    (forall n, n ≠ m -> own (ctx s) !! n = Data <$> fields o !! n) /\
    extensible (ctx s) = o_extensible o /\
    cache s = [] /\ heap s = [] /\ calls s = [].
Proof.
  intros m o Hcan. unfold Rewrite.lazy, define_value, can_define in *.
  fold m o. rewrite adopt_lookup.
  destruct (fields o !! m) as [d|] eqn:Hm; simpl in *; rewrite Hcan;
    eexists; (split; [done|]); simpl;
    (split; [eexists; split; [apply lookup_insert_eq|done]|]);
    (split; [|done]); intros n Hn;
    by rewrite lookup_insert_ne, lookup_fmap.
Qed.

Lemma rewrite_lazy_throw c method :
  let m := or_default method "set" in
  let o := default empty_object c in
  can_define o m = false ->
  Rewrite.lazy c method = Throw TypeError.
Proof.
  intros m o Hcan. unfold Rewrite.lazy, define_value, can_define in *.
  fold m o. rewrite adopt_lookup.
  by destruct (fields o !! m) as [d|] eqn:Hm; simpl in *; rewrite Hcan.
Qed.

(** [lazy] of the flag-based version. *)
Lemma flag_lazy_normal w o method :
  let m := or_default method "lazy" in
  can_put o m = true ->
  exists s, Flag.lazy w (Some o) method = Normal s /\
    installed s m /\
    (forall n, n ≠ m -> own (ctx s) !! n = Data <$> fields o !! n) /\
    extensible (ctx s) = o_extensible o /\
    cache s = [] /\ heap s = [] /\ calls s = [].
Proof.
  intros m Hcan. unfold Flag.lazy, Flag.assign, Flag.read, Put, Get, can_put in *.
  fold m. simpl. rewrite lookup_fmap.
  destruct (fields o !! m) as [d|] eqn:Hm; simpl in *; rewrite Hcan; simpl;
    rewrite lookup_insert_eq; simpl;
    eexists; (split; [done|]); simpl;
    (split; [eexists; split; [apply lookup_insert_eq|done]|]);
    (split; [|done]); intros n Hn;
    by rewrite lookup_insert_ne, lookup_fmap.
Qed.

Lemma flag_lazy_ignored w o method :
  let m := or_default method "lazy" in
  can_put o m = false ->
  Flag.lazy w (Some o) method =
    if nullish (default VUndefined (value_of <$> fields o !! m))
    then Throw TypeError
    else Normal (Flag.init (adopt o)).
Proof.
  intros m Hcan. unfold Flag.lazy, Flag.assign, Flag.read, Put, Get, can_put in *.
  fold m. simpl. rewrite lookup_fmap.
  destruct (fields o !! m) as [d|] eqn:Hm; simpl in *; rewrite Hcan; simpl.
  - rewrite lookup_fmap, Hm. simpl. by destruct (value_of d).
  - by rewrite lookup_fmap, Hm.
Qed.

(** C5, as amended. With the method name left out (or empty) the
    declaration function goes under "set" in the self-rewriting version and
    under "lazy" in the flag-based version.  Whenever the self-rewriting
    [lazy] returns, [context["set"]] is the declaration function; whenever
    the flag-based [lazy] returns on a context that takes an assignment to
    "lazy", [context["lazy"]] is the declaration function and
    [context["set"]] is what it was. *)
Theorem default_method_name :
  (forall c, Rewrite.lazy c None = Rewrite.lazy c (Some "set") /\
             Rewrite.lazy c (Some "") = Rewrite.lazy c (Some "set")) /\
  (forall w c, Flag.lazy w c None = Flag.lazy w c (Some "lazy") /\
               Flag.lazy w c (Some "") = Flag.lazy w c (Some "lazy")) /\
  (forall c s, Rewrite.lazy c None = Normal s -> installed s "set") /\
  (forall w o s, Flag.lazy w (Some o) None = Normal s ->
     can_put o "lazy" = true ->
     installed s "lazy" /\ own (ctx s) !! "set" = Data <$> fields o !! "set").
Proof.
  split_and!; try done.
  - intros c s Hs.
    destruct (can_define (default empty_object c) (or_default None "set")) eqn:Hcan.
    + destruct (rewrite_lazy_normal c None Hcan) as (s' & Hs' & Hi & _).
      assert (s' = s) as -> by congruence. exact Hi.
    + rewrite (rewrite_lazy_throw c None Hcan) in Hs. done.
  - intros w o s Hs Hcan.
    destruct (flag_lazy_normal w o None Hcan) as (s' & Hs' & Hi & Hfr & _).
    assert (s' = s) as -> by congruence. split; [exact Hi|]. by apply Hfr.
Qed.

Lemma default_method_name_witness :
  installed rewrite_fresh "set" /\
  installed flag_fresh "lazy" /\
  own (ctx flag_fresh) !! "set" = Data <$> fields empty_object !! "set".
Proof.
  destruct default_method_name as (_ & _ & HR & HF).
  split; [exact (HR (Some empty_object) rewrite_fresh eq_refl)|].
  exact (HF spy_world empty_object flag_fresh eq_refl eq_refl).
Defined.

(** C5 as stated fails for src/lazy.js: after [lazy({})] the declaration
    function is at "lazy", and the context owns nothing at "set". *)
Lemma flag_default_is_not_set :
  Flag.lazy spy_world (Some empty_object) None = Normal flag_fresh /\
  installed flag_fresh "lazy" /\
  own (ctx flag_fresh) !! "set" = None /\
  ~ installed flag_fresh "set".
Proof.
  split_and!; try done.
  - eexists. split; [reflexivity|done].
  - intros (d & Hd & _). done.
Qed.

(** ** A declaration that fails *)

(** C4, as amended. When the property cannot be defined, the declaration
    function throws a [TypeError] and leaves the context as it was, but the
    name has been pushed before and stays in the registry, as its latest
    entry.  The [delete] that a later [restore] tries on that name changes
    nothing at it. *)
Theorem failed_declare_keeps_name :
  (forall n args (s s' : state Flag.closure) e,
     Flag.declare n args s = (Throw e, s') ->
     e = TypeError /\ ctx s' = ctx s /\ calls s' = calls s /\
     cache s' = n :: cache s /\
     own (ctx (restore s').2) !! n = own (ctx s) !! n) /\
  (forall n args (s s' : state Rewrite.closure) e,
     Rewrite.declare n args s = (Throw e, s') ->
     e = TypeError /\ ctx s' = ctx s /\ calls s' = calls s /\
     cache s' = n :: cache s /\
     own (ctx (restore s').2) !! n = own (ctx s) !! n).
Proof.
  assert (forall k en c n e, define_accessor k en c n = Throw e ->
            forall l, own (restore_loop l c) !! n = own c !! n) as Hkeep.
  { intros k en c n e Hd l. rewrite restore_loop_lookup.
    unfold define_accessor in Hd.
    destruct (own c !! n) as [p|]; [|done].
    destruct (p_configurable p); [done|]. by rewrite andb_false_r. }
  split; intros n args s s' e Hd.
  - pose proof (flag_declare_cache n args s) as Hca. rewrite Hd in Hca.
    pose proof Hd as (-> & Hctx & Hcalls)%flag_declare_throw.
    split_and!; try done.
    unfold Flag.declare in Hd. simpl in Hd.
    destruct (define_accessor _ _ _ _) eqn:Hdef; simplify_eq. simpl.
    eapply (Hkeep _ _ _ _ _ Hdef (n :: cache s)).
  - pose proof (rewrite_declare_cache n args s) as Hca. rewrite Hd in Hca.
    pose proof Hd as (-> & Hctx & Hcalls)%rewrite_declare_throw.
    split_and!; try done.
    unfold Rewrite.declare in Hd. simpl in Hd.
    destruct (define_accessor _ _ _ _) eqn:Hdef; simplify_eq. simpl.
    eapply (Hkeep _ _ _ _ _ Hdef (n :: cache s)).
Qed.

Lemma failed_declare_keeps_name_witness :
  cache (Flag.declare "foo" [VNum 2]
           (Flag.init (adopt (fixed_object "foo" (VNum 1))))).2 = ["foo"] /\
  cache (Rewrite.declare "set" [VNum 1] rewrite_fresh).2 = ["set"].
Proof.
  destruct failed_declare_keeps_name as [HF HR]. split.
  - refine (proj1 (proj2 (proj2 (proj2
      (HF "foo" [VNum 2] (Flag.init (adopt (fixed_object "foo" (VNum 1))))
          _ TypeError _))))).
    reflexivity.
  - refine (proj1 (proj2 (proj2 (proj2
      (HR "set" [VNum 1] rewrite_fresh _ TypeError _))))).
    reflexivity.
Defined.

(** C4 as stated fails in both versions: the name is pushed before the
    property is defined.  [lazy({}).set('set', 1)] throws in the
    self-rewriting version and leaves "set" registered; so does
    [context.lazy('foo', 2)] in the flag-based version when "foo" is a
    property that is not configurable. *)
Lemma failed_declare_registered :
  Rewrite.lazy (Some empty_object) None = Normal rewrite_fresh /\
  (Rewrite.declare "set" [VNum 1] rewrite_fresh).1 = Throw TypeError /\
  "set" ∈ cache (Rewrite.declare "set" [VNum 1] rewrite_fresh).2 /\
  (exists s, Flag.lazy spy_world (Some (fixed_object "foo" (VNum 1))) None = Normal s /\
     (Flag.declare "foo" [VNum 2] s).1 = Throw TypeError /\
     "foo" ∈ cache (Flag.declare "foo" [VNum 2] s).2).
Proof.
  split_and!; try reflexivity.
  - vm_compute. set_solver.
  - eexists. split; [reflexivity|]. split; [reflexivity|].
    vm_compute. set_solver.
Qed.

(** ** Accessors and their closures along a run *)

Lemma closures_bound_mono {K} (s s' : state K) :
  ctx s' = ctx s -> length (heap s) <= length (heap s') ->
  closures_bound s -> closures_bound s'.
Proof.
  intros Hc Hl Hs n k e c. rewrite Hc. intros Hn. specialize (Hs n k e c Hn). lia.
Qed.

Lemma closures_bound_define {K} (s s' : state K) en n :
  closures_bound s ->
  length (heap s') = S (length (heap s)) ->
  ctx s' = match define_accessor (length (heap s)) en (ctx s) n with
           | Normal c' => c'
           | Throw _ => ctx s
           end ->
  closures_bound s'.
Proof.
  intros Hs Hl Hctx n' k e c. rewrite Hctx, Hl.
  destruct (define_accessor _ en (ctx s) n) as [c'|e'] eqn:Hdef.
  - apply define_accessor_normal in Hdef as ([e0 He] & Hfr & _).
    destruct (decide (n' = n)) as [->|Hne].
    + rewrite He. intros [= <- _ _]. lia.
    + rewrite Hfr by done. intros Hn. specialize (Hs n' k e c Hn). lia.
  - intros Hn. specialize (Hs n' k e c Hn). lia.
Qed.

Lemma flag_declare_bound n args s :
  closures_bound s -> closures_bound (Flag.declare n args s).2.
Proof.
  intros Hs. eapply (closures_bound_define s); [done| |apply flag_declare_unfold].
  unfold Flag.declare. simpl. destruct (define_accessor _ _ _ _); simpl;
    rewrite length_app; simpl; lia.
Qed.

Lemma rewrite_declare_bound n args s :
  closures_bound s -> closures_bound (Rewrite.declare n args s).2.
Proof.
  intros Hs. eapply (closures_bound_define s); [done| |apply rewrite_declare_unfold].
  unfold Rewrite.declare. simpl. destruct (define_accessor _ _ _ _); simpl;
    rewrite length_app; simpl; lia.
Qed.

Lemma Put_bound {K} (setter : nat -> value -> state K -> state K) n v s :
  (forall k v s, ctx (setter k v s) = ctx s /\
                 length (heap (setter k v s)) = length (heap s)) ->
  closures_bound s -> closures_bound (Put setter n v s).
Proof.
  intros Hset Hs. unfold Put.
  destruct (own (ctx s) !! n) as [[d|k e c]|] eqn:Hn.
  - destruct (writable d); [|done]. intros n' k e c. simpl.
    destruct (decide (n' = n)) as [->|Hne].
    + by rewrite lookup_insert_eq.
    + rewrite lookup_insert_ne by done. apply Hs.
  - destruct (Hset k v s) as [Hc Hl]. apply (closures_bound_mono s); [done| |done]. lia.
  - destruct (extensible (ctx s)); [|done]. intros n' k e c. simpl.
    destruct (decide (n' = n)) as [->|Hne].
    + by rewrite lookup_insert_eq.
    + rewrite lookup_insert_ne by done. apply Hs.
Qed.

Lemma flag_assign_bound n v s :
  closures_bound s -> closures_bound (Flag.assign n v s).
Proof.
  apply Put_bound. intros k v' s'. split; [done|]. simpl. apply length_alter.
Qed.

Lemma rewrite_assign_bound n v s :
  closures_bound s -> closures_bound (Rewrite.assign n v s).
Proof.
  apply Put_bound. intros k v' s'. split; [done|]. simpl. apply length_alter.
Qed.

Lemma flag_getter_bound w k s :
  closures_bound s -> closures_bound (Flag.getter w k s).2.
Proof.
  intros Hs. unfold Flag.getter.
  destruct (heap s !! k) as [cl|]; [|done].
  destruct (Flag.isMemoized cl); [done|]. cbv zeta.
  match goal with
  | |- context [with_heap s ?h] =>
      assert (closures_bound (with_heap s h)) as Hs1
        by (apply (closures_bound_mono s); [done| |done]; simpl;
            by rewrite length_alter)
  end.
  destruct (is_function _ && negb _); [|done].
  match goal with
  | |- context [Flag.call w ?v ?s1] =>
      assert (closures_bound (Flag.call w v s1).2) as Hc
        by (destruct v; simpl; try done; by apply flag_declare_bound);
      destruct (Flag.call w v s1) as [[r|e] s2]
  end; simpl in *; [|done].
  apply (closures_bound_mono s2); [done| |done]. simpl. by rewrite length_alter.
Qed.

Lemma rewrite_getter_bound w k s :
  closures_bound s -> closures_bound (Rewrite.getter w k s).2.
Proof.
  intros Hs. unfold Rewrite.getter.
  destruct (heap s !! k) as [cl|]; [|done]. cbv zeta.
  destruct (is_function _ && negb _); [|by apply rewrite_assign_bound].
  assert (closures_bound (Rewrite.call w (Rewrite.subject cl) s).2) as Hc
    by (destruct (Rewrite.subject cl); simpl; try done;
        by apply rewrite_declare_bound).
  destruct (Rewrite.call w (Rewrite.subject cl) s) as [[r|e] s2]; simpl in *;
    [by apply rewrite_assign_bound|done].
Qed.

Lemma restore_bound {K} (s : state K) :
  closures_bound s -> closures_bound (restore s).2.
Proof.
  intros Hs n k e c. simpl. rewrite restore_loop_lookup.
  destruct (own (ctx s) !! n) as [p|] eqn:Hn; [|done].
  destruct (bool_decide _ && _); [done|]. intros [= ->]. by eapply Hs.
Qed.

Lemma flag_step_bound w o s :
  closures_bound s -> closures_bound (Flag.step w o s).2.
Proof.
  intros Hs. destruct o as [n args|n|n v|]; simpl.
  - by apply flag_declare_bound.
  - unfold Flag.read, Get. destruct (own (ctx s) !! n) as [[d|k e c]|]; try done.
    by apply flag_getter_bound.
  - by apply flag_assign_bound.
  - by apply restore_bound.
Qed.

Lemma rewrite_step_bound w o s :
  closures_bound s -> closures_bound (Rewrite.step w o s).2.
Proof.
  intros Hs. destruct o as [n args|n|n v|]; simpl.
  - by apply rewrite_declare_bound.
  - unfold Rewrite.read, Get. destruct (own (ctx s) !! n) as [[d|k e c]|]; try done.
    by apply rewrite_getter_bound.
  - by apply rewrite_assign_bound.
  - by apply restore_bound.
Qed.

Lemma adopt_bound {K} o (s : state K) m :
  (forall n, n ≠ m -> own (ctx s) !! n = Data <$> fields o !! n) ->
  (exists d, own (ctx s) !! m = Some (Data d)) \/ own (ctx s) !! m = Data <$> fields o !! m ->
  closures_bound s.
Proof.
  intros Hfr Hm n k e c. destruct (decide (n = m)) as [->|Hne].
  - destruct Hm as [[d ->]| ->]; [done|]. by destruct (fields o !! m).
  - rewrite Hfr by done. by destruct (fields o !! n).
Qed.

(** The getters' case of a closure missing from the heap is not reached:
    in every state the engine gets to, each accessor has its closure. *)
Lemma flag_run_bound w o m ops s0 :
  Flag.lazy w (Some o) m = Normal s0 ->
  closures_bound (Flag.run w ops s0).2.
Proof.
  intros Hs0.
  assert (closures_bound s0) as Hb.
  { destruct (can_put o (or_default m "lazy")) eqn:Hcan.
    - destruct (flag_lazy_normal w o m Hcan) as (s & Hs & (d & Hd & _) & Hfr & _).
      assert (s = s0) as -> by congruence.
      eapply adopt_bound; [exact Hfr|]. left. eauto.
    - rewrite (flag_lazy_ignored w o m Hcan) in Hs0.
      destruct (nullish _); simplify_eq.
      apply (adopt_bound o _ (or_default m "lazy")).
      + intros n _. apply adopt_lookup.
      + right. apply adopt_lookup. }
  clear Hs0. revert s0 Hb. induction ops as [|op ops IH]; intros s Hb; [done|].
  simpl. pose proof (flag_step_bound w op s Hb) as Hb'.
  destruct (Flag.step w op s) as [r s']. specialize (IH s' Hb').
  by destruct (Flag.run w ops s').
Qed.

Lemma rewrite_run_bound w c m ops s0 :
  Rewrite.lazy c m = Normal s0 ->
  closures_bound (Rewrite.run w ops s0).2.
Proof.
  intros Hs0.
  assert (closures_bound s0) as Hb.
  { destruct (can_define (default empty_object c) (or_default m "set")) eqn:Hcan.
    - destruct (rewrite_lazy_normal c m Hcan) as (s & Hs & (d & Hd & _) & Hfr & _).
      assert (s = s0) as -> by congruence.
      eapply adopt_bound; [exact Hfr|]. left. eauto.
    - by rewrite (rewrite_lazy_throw c m Hcan) in Hs0. }
  clear Hs0. revert s0 Hb. induction ops as [|op ops IH]; intros s Hb; [done|].
  simpl. pose proof (rewrite_step_bound w op s Hb) as Hb'.
  destruct (Rewrite.step w op s) as [r s']. specialize (IH s' Hb').
  by destruct (Rewrite.run w ops s').
Qed.

(** ** What restore leaves alone *)

Lemma flag_lazy_cache w c m s : Flag.lazy w c m = Normal s -> cache s = [].
Proof.
  destruct c as [o|]; [|done]. intros Hs.
  destruct (can_put o (or_default m "lazy")) eqn:Hcan.
  - destruct (flag_lazy_normal w o m Hcan) as (s' & Hs' & _ & _ & _ & ? & _).
    congruence.
  - rewrite (flag_lazy_ignored w o m Hcan) in Hs.
    destruct (nullish _); by simplify_eq.
Qed.

Lemma rewrite_lazy_cache c m s : Rewrite.lazy c m = Normal s -> cache s = [].
Proof.
  intros Hs.
  destruct (can_define (default empty_object c) (or_default m "set")) eqn:Hcan.
  - destruct (rewrite_lazy_normal c m Hcan) as (s' & Hs' & _ & _ & _ & ? & _).
    congruence.
  - by rewrite (rewrite_lazy_throw c m Hcan) in Hs.
Qed.

Lemma cache_sound_nil {K} (s : state K) : cache s = [] -> cache_sound s.
Proof. intros Hc n. by rewrite Hc, elem_of_nil. Qed.

(** The frame of [restore] on a state with a sound registry. *)
Lemma restore_frame_sound {K} (s : state K) :
  cache_sound s ->
  (forall n, n ∉ cache s -> own (ctx (restore s).2) !! n = own (ctx s) !! n) /\
  (forall n, own (ctx (restore s).2) !! n ≠ own (ctx s) !! n ->
     n ∈ cache s /\ own (ctx (restore s).2) !! n = None /\
     exists k e c, own (ctx s) !! n = Some (Accessor k e c)) /\
  (forall n d, own (ctx s) !! n = Some (Data d) ->
     own (ctx (restore s).2) !! n = Some (Data d)) /\
  (forall m, installed s m -> installed (restore s).2 m) /\
  extensible (ctx (restore s).2) = extensible (ctx s) /\
  heap (restore s).2 = heap s /\
  calls (restore s).2 = calls s.
Proof.
  intros Hs. destruct (restore_frame_generic s) as (H1 & H2 & _ & H4 & H5 & H6).
  split_and!; try done.
  - intros n Hne. destruct (H2 n Hne) as [Hin Hnone]. split_and!; try done.
    destruct (own (ctx s) !! n) as [[d|k e c]|] eqn:Hn.
    + by rewrite (restore_keeps_data s n d Hs Hn) in Hnone.
    + eauto.
    + by rewrite Hnone in Hne.
  - intros n d. by apply restore_keeps_data.
  - intros m (d & Hd & Hv). exists d. split; [|done]. by apply restore_keeps_data.
Qed.



(** ** Where one version does not do what the other does *)

(** C1 fails in src/unnamed/part_000.  The factory [f0] returns the
    function [f1]: the first read of [context.k] calls [f0] and yields
    [f1]; the second read calls [f1] and yields what it returns. *)
Theorem rewrite_invokes_returned_function :
  Rewrite.lazy (Some empty_object) None = Normal rewrite_fresh /\
  (Rewrite.run nested_world [OpDeclare "k" [VFun 0]; OpRead "k"; OpRead "k"]
     rewrite_fresh).1
    = [Normal VUndefined; Normal (VFun 1); Normal (VNum 1)] /\
  calls (Rewrite.run nested_world [OpDeclare "k" [VFun 0]; OpRead "k"; OpRead "k"]
           rewrite_fresh).2
    = [1; 0].
Proof. split_and!; reflexivity. Qed.

(** The same reads in src/lazy.js call [f0] once and yield [f1] twice. *)
Lemma flag_keeps_returned_function :
  (Flag.run nested_world [OpDeclare "k" [VFun 0]; OpRead "k"; OpRead "k"]
     flag_fresh).1
    = [Normal VUndefined; Normal (VFun 1); Normal (VFun 1)] /\
  calls (Flag.run nested_world [OpDeclare "k" [VFun 0]; OpRead "k"; OpRead "k"]
           flag_fresh).2
    = [0].
Proof. split; reflexivity. Qed.

(** C3 fails in src/lazy.js.  The factory [f0] throws: the first read of
    [context.k] throws what [f0] threw, with [isMemoized] already set; the
    second read calls nothing and yields [f0] itself. *)
Theorem flag_caches_failed_factory :
  Flag.lazy failing_world (Some empty_object) None = Normal flag_fresh /\
  (Flag.run failing_world [OpDeclare "k" [VFun 0]; OpRead "k"; OpRead "k"]
     flag_fresh).1
    = [Normal VUndefined; Throw (Raised (VStr "boom")); Normal (VFun 0)] /\
  calls (Flag.run failing_world [OpDeclare "k" [VFun 0]; OpRead "k"; OpRead "k"]
           flag_fresh).2
    = [0].
Proof. split_and!; reflexivity. Qed.

(** The same reads in src/unnamed/part_000 call [f0] each time. *)
Lemma rewrite_retries_failed_factory :
  (Rewrite.run failing_world [OpDeclare "k" [VFun 0]; OpRead "k"; OpRead "k"]
     rewrite_fresh).1
    = [Normal VUndefined; Throw (Raised (VStr "boom"));
       Throw (Raised (VStr "boom"))] /\
  calls (Rewrite.run failing_world [OpDeclare "k" [VFun 0]; OpRead "k"; OpRead "k"]
           rewrite_fresh).2
    = [0; 0].
Proof. split; reflexivity. Qed.

(** C6 fails in src/lazy.js.  After [lazy({})] and the declarations of
    "foo" and "baz", [Object.keys(context)] is ["lazy"]: the declaration
    function is listed, the two declared properties are not. *)
Theorem flag_declared_not_enumerable :
  Flag.lazy spy_world (Some empty_object) None = Normal flag_fresh /\
  keys (ctx (Flag.run spy_world
               [OpDeclare "foo" [VStr "bar"]; OpDeclare "baz" [VStr "qux"]]
               flag_fresh).2)
    = {[ "lazy" ]}.
Proof. split; [reflexivity|]. vm_compute. reflexivity. Qed.

(** The same declarations in src/unnamed/part_000 list exactly the two
    declared names. *)
Lemma rewrite_declared_enumerable :
  keys (ctx (Rewrite.run spy_world
               [OpDeclare "foo" [VStr "bar"]; OpDeclare "baz" [VStr "qux"]]
               rewrite_fresh).2)
    = {[ "foo"; "baz" ]}.
Proof. vm_compute. reflexivity. Qed.

(** ** Two facts used below *)

Lemma plain_function_eq w v :
  is_function v && negb (is_function v && has_getCall w v) = plain_function w v.
Proof. unfold plain_function. by destruct (is_function v), (has_getCall w v). Qed.

Lemma times_cons f log : times f (f :: log) = S (times f log).
Proof. unfold times. by rewrite filter_cons_True. Qed.

(** ** Enumerable names *)

Lemma elem_of_keys c n :
  n ∈ keys c <-> exists p, own c !! n = Some p /\ p_enumerable p = true.
Proof.
  unfold keys. rewrite elem_of_dom. unfold is_Some.
  setoid_rewrite map_lookup_filter_Some. simpl.
  split; [intros (p & ? & ?)|intros (p & ? & ?)]; by exists p.
Qed.

Lemma rewrite_lazy_keys c m s :
  Rewrite.lazy c m = Normal s ->
  keys (ctx s) = keys (adopt (default empty_object c)).
Proof.
  unfold Rewrite.lazy, define_value.
  set (o := adopt (default empty_object c)). set (n := or_default m "set").
  intros Hs. apply set_eq. intros x. rewrite !elem_of_keys.
  assert (forall d : data,
            (own o !! n = None /\ enumerable d = false) \/
            (exists p, own o !! n = Some p /\ p_enumerable p = enumerable d) ->
            ctx s = with_own o (<[n := Data d]> (own o)) ->
            (exists p, own (ctx s) !! x = Some p /\ p_enumerable p = true) <->
            (exists p, own o !! x = Some p /\ p_enumerable p = true)) as Hkey.
  { intros d Hd ->. cbn [own with_own].
    destruct (decide (x = n)) as [->|Hne].
    - rewrite lookup_insert_eq. destruct Hd as [[-> Hd]|(p & -> & Hd)].
      + split; [|by intros (? & ? & ?)]. intros (? & [= <-] & He).
        simpl in He. congruence.
      + split; intros (? & [= <-] & He); eexists; (split; [done|]);
          simpl in *; congruence.
    - by rewrite lookup_insert_ne. }
  destruct (own o !! n) as [[d|k e c']|] eqn:Hn.
  - destruct (configurable d || writable d); simplify_eq.
    eapply Hkey; [|done]. right. eexists. split; [done|]. done.
  - destruct c'; simplify_eq.
    eapply Hkey; [|done]. right. eexists. split; [done|]. done.
  - destruct (extensible o); simplify_eq.
    eapply Hkey; [|done]. left. done.
Qed.

Lemma rewrite_declare_keys n args s v s' :
  Rewrite.declare n args s = (Normal v, s') ->
  keys (ctx s') = keys (ctx s) ∪ {[ n ]}.
Proof.
  intros Hd. apply rewrite_declare_normal in Hd as (_ & Hn & Hfr & _).
  apply set_eq. intros x. rewrite elem_of_union, elem_of_singleton, !elem_of_keys.
  destruct (decide (x = n)) as [->|Hne].
  - rewrite Hn. split; [by right|]. intros _. eexists. by split.
  - rewrite Hfr by done. split; [by left|]. by intros [?|?].
Qed.

Lemma rewrite_declarations_keys w ds s :
  Forall (λ r, r = Normal VUndefined) (Rewrite.run w (declarations ds) s).1 ->
  keys (ctx (Rewrite.run w (declarations ds) s).2)
    = keys (ctx s) ∪ list_to_set ds.*1.
Proof.
  revert s. induction ds as [|[n args] ds IH]; intros s; simpl.
  - intros _. by rewrite (right_id_L ∅ (∪)).
  - destruct (Rewrite.declare n args s) as [r s'] eqn:Hd.
    specialize (IH s').
    destruct (Rewrite.run w (declarations ds) s') as [rs s2]. simpl in *.
    intros [-> Hrs]%Forall_cons. rewrite (IH Hrs).
    rewrite (rewrite_declare_keys _ _ _ _ _ Hd). by rewrite (assoc_L (∪)).
Qed.

(** In src/unnamed/part_000, when [lazy] and the declarations all go
    through, [Object.keys(context)] is made of the enumerable names the
    object had and the declared names, and of nothing else. *)
Theorem rewrite_declared_are_listed (w : world) (o : object) (m : option string)
    (ds : list (string * list value)) (s : state Rewrite.closure) :
  Rewrite.lazy (Some o) m = Normal s ->
  Forall (λ r, r = Normal VUndefined) (Rewrite.run w (declarations ds) s).1 ->
  keys (ctx (Rewrite.run w (declarations ds) s).2)
    = keys (adopt o) ∪ list_to_set ds.*1.
Proof.
  intros Hs Hrs. rewrite (rewrite_declarations_keys w ds s Hrs).
  by rewrite (rewrite_lazy_keys _ _ _ Hs).
Qed.

Lemma rewrite_declared_are_listed_witness :
  keys (ctx (Rewrite.run spy_world
               (declarations [("foo", [VStr "bar"]); ("baz", [VStr "qux"])])
               rewrite_fresh).2)
    = keys (adopt empty_object)
      ∪ list_to_set [("foo", [VStr "bar"]); ("baz", [VStr "qux"])].*1.
Proof.
  apply (rewrite_declared_are_listed spy_world empty_object None).
  - reflexivity.
  - by repeat constructor.
Defined.

(** ** Declared properties along a run *)

Lemma names_kept_refl {K} (name_of : K -> string) h : names_kept name_of h h.
Proof. intros k cl Hk. eauto. Qed.

Lemma names_kept_trans {K} (name_of : K -> string) h1 h2 h3 :
  names_kept name_of h1 h2 -> names_kept name_of h2 h3 -> names_kept name_of h1 h3.
Proof.
  intros H12 H23 k cl Hk. destruct (H12 k cl Hk) as (cl2 & Hk2 & Hn2).
  destruct (H23 k cl2 Hk2) as (cl3 & Hk3 & Hn3). exists cl3. split; [done|congruence].
Qed.

Lemma names_kept_alter {K} (name_of : K -> string) (g : K -> K) k h :
  (forall x, name_of (g x) = name_of x) -> names_kept name_of h (alter g k h).
Proof.
  intros Hg k' cl Hk'. rewrite list_lookup_alter.
  destruct (decide (k = k')) as [->|Hne].
  - rewrite Hk'. simpl. eexists. split; [done|]. apply Hg.
  - eauto.
Qed.

Lemma names_kept_app {K} (name_of : K -> string) h h' :
  names_kept name_of h (h ++ h').
Proof. intros k cl Hk. exists cl. split; [by apply lookup_app_l_Some|done]. Qed.

Lemma attached_ok_mono {K} (name_of : K -> string) (s s' : state K) :
  ctx s' = ctx s ->
  (forall n, n ∈ cache s -> n ∈ cache s') ->
  names_kept name_of (heap s) (heap s') ->
  attached_ok name_of s -> attached_ok name_of s'.
Proof.
  intros Hc Hca Hh Hs n k e c. rewrite Hc. intros Hn.
  destruct (Hs n k e c Hn) as (-> & Hin & cl & Hk & Hname).
  destruct (Hh k cl Hk) as (cl' & Hk' & Hname').
  split_and!; [done|by apply Hca|]. exists cl'. split; [done|congruence].
Qed.

Lemma attached_ok_define {K} (name_of : K -> string) (s s' : state K) en n cl :
  attached_ok name_of s ->
  cache s' = n :: cache s ->
  heap s' = heap s ++ [cl] -> name_of cl = n ->
  ctx s' = match define_accessor (length (heap s)) en (ctx s) n with
           | Normal c' => c'
           | Throw _ => ctx s
           end ->
  attached_ok name_of s'.
Proof.
  intros Hs Hca Hh Hname Hctx n' k e c. rewrite Hctx, Hca, Hh.
  assert (forall k0 e0 c0, own (ctx s) !! n' = Some (Accessor k0 e0 c0) ->
            c0 = true /\ n' ∈ n :: cache s /\
            exists cl0, (heap s ++ [cl]) !! k0 = Some cl0 /\ name_of cl0 = n') as Hold.
  { intros k0 e0 c0 Hn'. destruct (Hs n' k0 e0 c0 Hn') as (-> & Hin & cl0 & Hk0 & Hn0).
    split_and!; [done|by apply elem_of_cons; right|].
    exists cl0. split; [by apply lookup_app_l_Some|done]. }
  destruct (define_accessor _ en (ctx s) n) as [c'|e'] eqn:Hdef; [|apply Hold].
  apply define_accessor_normal in Hdef as ([e0 He] & Hfr & _).
  destruct (decide (n' = n)) as [->|Hne].
  - rewrite He. intros [= <- _ <-]. split_and!; [done|by apply elem_of_cons; left|].
    exists cl. split; [|done]. by rewrite lookup_app_r, Nat.sub_diag.
  - rewrite Hfr by done. apply Hold.
Qed.

Lemma Put_attached {K} (name_of : K -> string)
    (setter : nat -> value -> state K -> state K) n v s :
  (forall k v s, ctx (setter k v s) = ctx s /\ cache (setter k v s) = cache s /\
                 names_kept name_of (heap s) (heap (setter k v s))) ->
  attached_ok name_of s -> attached_ok name_of (Put setter n v s).
Proof.
  intros Hset Hs. unfold Put.
  destruct (own (ctx s) !! n) as [[d|k e c]|] eqn:Hn.
  - destruct (writable d); [|done]. intros n' k e c. simpl.
    destruct (decide (n' = n)) as [->|Hne].
    + by rewrite lookup_insert_eq.
    + rewrite lookup_insert_ne by done. apply Hs.
  - destruct (Hset k v s) as (Hc & Hca & Hh).
    apply (attached_ok_mono name_of s); [done| |done|done]. by rewrite Hca.
  - destruct (extensible (ctx s)); [|done]. intros n' k e c. simpl.
    destruct (decide (n' = n)) as [->|Hne].
    + by rewrite lookup_insert_eq.
    + rewrite lookup_insert_ne by done. apply Hs.
Qed.

(** With every accessor configurable and registered, [restore] leaves no
    accessor behind. *)
Lemma restore_no_accessor {K} (name_of : K -> string) (s : state K) n k e c :
  attached_ok name_of s -> own (ctx (restore s).2) !! n ≠ Some (Accessor k e c).
Proof.
  intros Hs. simpl. rewrite restore_loop_lookup.
  destruct (own (ctx s) !! n) as [[d|k' e' c']|] eqn:Hn; [|  |done].
  - by destruct (bool_decide _ && _).
  - destruct (Hs n k' e' c' Hn) as (-> & Hin & _).
    by rewrite bool_decide_eq_true_2.
Qed.

Lemma restore_attached {K} (name_of : K -> string) (s : state K) :
  attached_ok name_of s -> attached_ok name_of (restore s).2.
Proof.
  intros Hs n k e c Hn. by destruct (restore_no_accessor name_of s n k e c Hs).
Qed.

Lemma flag_declare_attached n args s :
  attached_ok Flag.name s -> attached_ok Flag.name (Flag.declare n args s).2.
Proof.
  intros Hs.
  eapply (attached_ok_define Flag.name s _ None n
            {| Flag.name := n; Flag.subject := subject_of args;
               Flag.isMemoized := false |}); [done| | |done|].
  - apply flag_declare_cache.
  - unfold Flag.declare. simpl. by destruct (define_accessor _ _ _ _).
  - apply flag_declare_unfold.
Qed.

Lemma rewrite_declare_attached n args s :
  attached_ok Rewrite.name s -> attached_ok Rewrite.name (Rewrite.declare n args s).2.
Proof.
  intros Hs.
  eapply (attached_ok_define Rewrite.name s _ (Some true) n
            {| Rewrite.name := n; Rewrite.subject := subject_of args |});
    [done| | |done|].
  - apply rewrite_declare_cache.
  - unfold Rewrite.declare. simpl. by destruct (define_accessor _ _ _ _).
  - apply rewrite_declare_unfold.
Qed.

Lemma flag_assign_attached n v s :
  attached_ok Flag.name s -> attached_ok Flag.name (Flag.assign n v s).
Proof.
  apply Put_attached. intros k v' s'. split_and!; [done|done|].
  simpl. by apply names_kept_alter.
Qed.

Lemma rewrite_assign_attached n v s :
  attached_ok Rewrite.name s -> attached_ok Rewrite.name (Rewrite.assign n v s).
Proof.
  apply Put_attached. intros k v' s'. split_and!; [done|done|].
  simpl. by apply names_kept_alter.
Qed.

Lemma flag_call_attached w v s :
  attached_ok Flag.name s -> attached_ok Flag.name (Flag.call w v s).2.
Proof.
  intros Hs. destruct v; simpl; try done. by apply flag_declare_attached.
Qed.

Lemma rewrite_call_attached w v s :
  attached_ok Rewrite.name s -> attached_ok Rewrite.name (Rewrite.call w v s).2.
Proof.
  intros Hs. destruct v; simpl; try done. by apply rewrite_declare_attached.
Qed.

Lemma flag_getter_attached w k s :
  attached_ok Flag.name s -> attached_ok Flag.name (Flag.getter w k s).2.
Proof.
  intros Hs. unfold Flag.getter.
  destruct (heap s !! k) as [cl|]; [|done].
  destruct (Flag.isMemoized cl); [done|]. cbv zeta.
  match goal with
  | |- context [with_heap s ?h] =>
      assert (attached_ok Flag.name (with_heap s h)) as Hs1
        by (apply (attached_ok_mono Flag.name s); [done|done| |done]; simpl;
            by apply names_kept_alter)
  end.
  destruct (is_function _ && negb _); [|done].
  match goal with
  | |- context [Flag.call w ?v ?s1] =>
      pose proof (flag_call_attached w v s1 Hs1) as Hc;
      destruct (Flag.call w v s1) as [[r|e] s2]
  end; simpl in *; [|done].
  apply (attached_ok_mono Flag.name s2); [done|done| |done]. simpl.
  by apply names_kept_alter.
Qed.

Lemma rewrite_getter_attached w k s :
  attached_ok Rewrite.name s -> attached_ok Rewrite.name (Rewrite.getter w k s).2.
Proof.
  intros Hs. unfold Rewrite.getter.
  destruct (heap s !! k) as [cl|]; [|done]. cbv zeta.
  destruct (is_function _ && negb _); [|by apply rewrite_assign_attached].
  pose proof (rewrite_call_attached w (Rewrite.subject cl) s Hs) as Hc.
  destruct (Rewrite.call w (Rewrite.subject cl) s) as [[r|e] s2]; simpl in *;
    [by apply rewrite_assign_attached|done].
Qed.

Lemma flag_step_attached w o s :
  attached_ok Flag.name s -> attached_ok Flag.name (Flag.step w o s).2.
Proof.
  intros Hs. destruct o as [n args|n|n v|]; simpl.
  - by apply flag_declare_attached.
  - unfold Flag.read, Get. destruct (own (ctx s) !! n) as [[d|k e c]|]; try done.
    by apply flag_getter_attached.
  - by apply flag_assign_attached.
  - by apply restore_attached.
Qed.

Lemma rewrite_step_attached w o s :
  attached_ok Rewrite.name s -> attached_ok Rewrite.name (Rewrite.step w o s).2.
Proof.
  intros Hs. destruct o as [n args|n|n v|]; simpl.
  - by apply rewrite_declare_attached.
  - unfold Rewrite.read, Get. destruct (own (ctx s) !! n) as [[d|k e c]|]; try done.
    by apply rewrite_getter_attached.
  - by apply rewrite_assign_attached.
  - by apply restore_attached.
Qed.

Lemma no_accessor_attached {K} (name_of : K -> string) (s : state K) :
  (forall n k e c, own (ctx s) !! n ≠ Some (Accessor k e c)) ->
  attached_ok name_of s.
Proof. intros Hno n k e c Hn. by destruct (Hno n k e c). Qed.

Lemma flag_lazy_no_accessor w o m s n k e c :
  Flag.lazy w (Some o) m = Normal s -> own (ctx s) !! n ≠ Some (Accessor k e c).
Proof.
  intros Hs.
  destruct (can_put o (or_default m "lazy")) eqn:Hcan.
  - destruct (flag_lazy_normal w o m Hcan) as (s' & Hs' & (d & Hd & _) & Hfr & _).
    assert (s' = s) as -> by congruence.
    destruct (decide (n = or_default m "lazy")) as [->|Hne]; [by rewrite Hd|].
    rewrite Hfr by done. by destruct (fields o !! n).
  - rewrite (flag_lazy_ignored w o m Hcan) in Hs.
    destruct (nullish _); simplify_eq. simpl. rewrite lookup_fmap.
    by destruct (fields o !! n).
Qed.

Lemma rewrite_lazy_no_accessor c m s n k e c' :
  Rewrite.lazy c m = Normal s -> own (ctx s) !! n ≠ Some (Accessor k e c').
Proof.
  intros Hs.
  destruct (can_define (default empty_object c) (or_default m "set")) eqn:Hcan.
  - destruct (rewrite_lazy_normal c m Hcan) as (s' & Hs' & (d & Hd & _) & Hfr & _).
    assert (s' = s) as -> by congruence.
    destruct (decide (n = or_default m "set")) as [->|Hne]; [by rewrite Hd|].
    rewrite Hfr by done. by destruct (fields (default empty_object c) !! n).
  - by rewrite (rewrite_lazy_throw c m Hcan) in Hs.
Qed.

Lemma flag_run_attached w o m ops s0 :
  Flag.lazy w (Some o) m = Normal s0 ->
  attached_ok Flag.name (Flag.run w ops s0).2.
Proof.
  intros Hs0.
  assert (attached_ok Flag.name s0) as Hb.
  { apply no_accessor_attached. intros n k e c.
    by eapply flag_lazy_no_accessor. }
  clear Hs0. revert s0 Hb. induction ops as [|op ops IH]; intros s Hb; [done|].
  simpl. pose proof (flag_step_attached w op s Hb) as Hb'.
  destruct (Flag.step w op s) as [r s']. specialize (IH s' Hb').
  by destruct (Flag.run w ops s').
Qed.

Lemma rewrite_run_attached w c m ops s0 :
  Rewrite.lazy c m = Normal s0 ->
  attached_ok Rewrite.name (Rewrite.run w ops s0).2.
Proof.
  intros Hs0.
  assert (attached_ok Rewrite.name s0) as Hb.
  { apply no_accessor_attached. intros n k e c'.
    by eapply rewrite_lazy_no_accessor. }
  clear Hs0. revert s0 Hb. induction ops as [|op ops IH]; intros s Hb; [done|].
  simpl. pose proof (rewrite_step_attached w op s Hb) as Hb'.
  destruct (Rewrite.step w op s) as [r s']. specialize (IH s' Hb').
  by destruct (Rewrite.run w ops s').
Qed.

(** ** Restore, whatever came before *)

(** In every state the engine reaches, a property that is declared (an
    accessor) is in the registry, can be deleted ([delete context[n]]
    removes it), and can be declared again: the declaration function does
    not throw on it. *)
Theorem declared_stays_replaceable (w : world) (m : option string) (ops : list op) :
  (forall o s0 n k e c, Flag.lazy w (Some o) m = Normal s0 ->
     let s := (Flag.run w ops s0).2 in
     own (ctx s) !! n = Some (Accessor k e c) ->
     n ∈ cache s /\
     hasOwnProperty (delete_property n (ctx s)) n = false /\
     forall args, (Flag.declare n args s).1 = Normal VUndefined) /\
  (forall o s0 n k e c, Rewrite.lazy o m = Normal s0 ->
     let s := (Rewrite.run w ops s0).2 in
     own (ctx s) !! n = Some (Accessor k e c) ->
     n ∈ cache s /\
     hasOwnProperty (delete_property n (ctx s)) n = false /\
     forall args, (Rewrite.declare n args s).1 = Normal VUndefined).
Proof.
  split.
  - intros o s0 n k e c Hs0 s Hn.
    destruct (flag_run_attached w o m ops s0 Hs0 n k e c Hn) as (-> & Hin & _).
    split_and!; [done| |].
    + apply hasOwnProperty_false. rewrite delete_property_lookup.
      fold s. rewrite Hn. simpl. by rewrite bool_decide_eq_true_2.
    + intros args. destruct (flag_declare_unfold n args s) as [-> _].
      destruct (define_accessor_unless (length (heap s)) None (ctx s) n)
        as [c' ->]; [|done].
      right. eexists. by split.
  - intros o s0 n k e c Hs0 s Hn.
    destruct (rewrite_run_attached w o m ops s0 Hs0 n k e c Hn) as (-> & Hin & _).
    split_and!; [done| |].
    + apply hasOwnProperty_false. rewrite delete_property_lookup.
      fold s. rewrite Hn. simpl. by rewrite bool_decide_eq_true_2.
    + intros args. destruct (rewrite_declare_unfold n args s) as [-> _].
      destruct (define_accessor_unless (length (heap s)) (Some true) (ctx s) n)
        as [c' ->]; [|done].
      right. eexists. by split.
Qed.

Lemma declared_stays_replaceable_witness :
  hasOwnProperty
    (delete_property "k"
       (ctx (Flag.run counting_world [OpDeclare "k" [VFun 0]; OpRead "k"]
               flag_fresh).2)) "k" = false /\
  hasOwnProperty
    (delete_property "k"
       (ctx (Rewrite.run counting_world [OpDeclare "k" [VFun 0]; OpRead "k"]
               rewrite_fresh).2)) "k" = false.
Proof.
  destruct (declared_stays_replaceable counting_world None
              [OpDeclare "k" [VFun 0]; OpRead "k"]) as [HF HR].
  split.
  - exact (proj1 (proj2 (HF empty_object flag_fresh "k" 0 false true
                            eq_refl eq_refl))).
  - exact (proj1 (proj2 (HR (Some empty_object) rewrite_fresh "k" 0 true true
                            eq_refl eq_refl))).
Defined.

Lemma context_eq (c c' : context) :
  own c = own c' -> extensible c = extensible c' -> c = c'.
Proof. destruct c, c'. simpl. by intros -> ->. Qed.

(** What [restore] leaves depends on which names are in the registry, not
    on their order nor on how often a name was pushed. *)
Theorem restore_order_irrelevant (l l' : list string) (c : context) :
  (forall n, n ∈ l <-> n ∈ l') ->
  restore_loop l c = restore_loop l' c.
Proof.
  intros Hl. apply context_eq.
  - apply map_eq. intros n. rewrite !restore_loop_lookup.
    destruct (own c !! n) as [p|]; [|done].
    by rewrite (bool_decide_ext _ _ (Hl n)).
  - by rewrite !restore_loop_extensible.
Qed.

Lemma restore_order_irrelevant_witness :
  restore_loop ["a"; "b"; "a"]
    (ctx (Flag.run spy_world (declarations [("a", []); ("b", []); ("a", [])])
            flag_fresh).2)
  = restore_loop ["b"; "a"]
      (ctx (Flag.run spy_world (declarations [("a", []); ("b", []); ("a", [])])
              flag_fresh).2).
Proof.
  apply restore_order_irrelevant. intros n.
  rewrite !elem_of_cons, elem_of_nil. tauto.
Defined.

(** ** Values that are not called *)

(** The flag-based getter on a subject it does not call: the subject is
    handed back, the closure keeps it, nothing else changes. *)
Lemma flag_getter_inert w k s cl :
  heap s !! k = Some cl -> plain_function w (Flag.subject cl) = false ->
  exists s' cl',
    Flag.getter w k s = (Normal (Flag.subject cl), s') /\
    ctx s' = ctx s /\ cache s' = cache s /\ calls s' = calls s /\
    heap s' !! k = Some cl' /\ Flag.subject cl' = Flag.subject cl.
Proof.
  intros Hk Hp. unfold Flag.getter. rewrite Hk.
  destruct (Flag.isMemoized cl) eqn:Hmemo.
  - by exists s, cl.
  - cbv zeta. rewrite plain_function_eq, Hp.
    eexists _, _. split; [done|]. split; [done|]. split; [done|].
    split; [done|]. split.
    + simpl. rewrite list_lookup_alter, Hk. simpl. by rewrite decide_True.
    + done.
Qed.

Lemma flag_reads_inert w n k e c v reads :
  plain_function w v = false ->
  forall s cl,
    own (ctx s) !! n = Some (Accessor k e c) ->
    heap s !! k = Some cl -> Flag.subject cl = v ->
    (Flag.run w (replicate reads (OpRead n)) s).1 = replicate reads (Normal v) /\
    calls (Flag.run w (replicate reads (OpRead n)) s).2 = calls s /\
    ctx (Flag.run w (replicate reads (OpRead n)) s).2 = ctx s /\
    cache (Flag.run w (replicate reads (OpRead n)) s).2 = cache s.
Proof.
  intros Hp. induction reads as [|reads IH]; intros s cl Hn Hk Hv; [done|].
  simpl. rewrite (flag_read_accessor _ _ _ _ _ _ Hn).
  rewrite <- Hv in Hp.
  destruct (flag_getter_inert w k s cl Hk Hp)
    as (s' & cl' & -> & Hctx & Hcache & Hcalls & Hk' & Hs').
  rewrite <- Hctx in Hn. rewrite Hv in Hs'.
  destruct (IH s' cl' Hn Hk' Hs') as (IH1 & IH2 & IH3 & IH4).
  destruct (Flag.run w (replicate reads (OpRead n)) s') as [rs s2].
  simpl in *. rewrite IH1, IH2, IH3, IH4, Hv. by split_and!.
Qed.

Lemma rewrite_reads_inert w n k e c v reads :
  plain_function w v = false ->
  forall s cl,
    own (ctx s) !! n = Some (Accessor k e c) ->
    heap s !! k = Some cl -> Rewrite.subject cl = v -> Rewrite.name cl = n ->
    (Rewrite.run w (replicate reads (OpRead n)) s).1 = replicate reads (Normal v) /\
    calls (Rewrite.run w (replicate reads (OpRead n)) s).2 = calls s /\
    ctx (Rewrite.run w (replicate reads (OpRead n)) s).2 = ctx s /\
    cache (Rewrite.run w (replicate reads (OpRead n)) s).2 = cache s.
Proof.
  intros Hp. induction reads as [|reads IH]; intros s cl Hn Hk Hv Hname; [done|].
  simpl. rewrite (rewrite_read_accessor _ _ _ _ _ _ Hn).
  unfold Rewrite.getter. rewrite Hk. cbv zeta.
  rewrite plain_function_eq, Hv, Hp, Hname.
  rewrite (rewrite_assign_accessor _ _ _ _ _ _ Hn).
  assert (heap (Rewrite.setter k v s) !! k = Some cl) as Hk'.
  { simpl. rewrite list_lookup_alter, Hk. simpl. rewrite decide_True by done.
    destruct cl; simpl in *; by subst. }
  destruct (IH (Rewrite.setter k v s) cl Hn Hk' Hv Hname) as (IH1 & IH2 & IH3 & IH4).
  destruct (Rewrite.run w (replicate reads (OpRead n)) (Rewrite.setter k v s))
    as [rs s2].
  simpl in *. rewrite IH1, IH2, IH3, IH4. by split_and!.
Qed.

(** A declaration whose stored subject is not a function the getter calls
    (a literal, an object, a spy; [null] when the value is left out, and
    also when more than one argument follows the name): every read of the
    property yields that subject, calls nothing and leaves the context and
    the registry as the declaration left them. *)
Theorem declared_value_read (w : world) (n : string) (args : list value)
    (reads : nat) :
  plain_function w (subject_of args) = false ->
  (forall s s1 : state Flag.closure,
     Flag.declare n args s = (Normal VUndefined, s1) ->
     (Flag.run w (replicate reads (OpRead n)) s1).1
       = replicate reads (Normal (subject_of args)) /\
     calls (Flag.run w (replicate reads (OpRead n)) s1).2 = calls s /\
     ctx (Flag.run w (replicate reads (OpRead n)) s1).2 = ctx s1 /\
     cache (Flag.run w (replicate reads (OpRead n)) s1).2 = n :: cache s) /\
  (forall s s1 : state Rewrite.closure,
     Rewrite.declare n args s = (Normal VUndefined, s1) ->
     (Rewrite.run w (replicate reads (OpRead n)) s1).1
       = replicate reads (Normal (subject_of args)) /\
     calls (Rewrite.run w (replicate reads (OpRead n)) s1).2 = calls s /\
     ctx (Rewrite.run w (replicate reads (OpRead n)) s1).2 = ctx s1 /\
     cache (Rewrite.run w (replicate reads (OpRead n)) s1).2 = n :: cache s).
Proof.
  intros Hp. split; intros s s1 Hd.
  - apply flag_declare_normal in Hd
      as (_ & [e He] & _ & _ & Hcalls & Hcache & cl & Hh & _ & Hs & _).
    rewrite <- Hcalls, <- Hcache.
    apply (flag_reads_inert w n (length (heap s)) e true _ reads Hp s1 cl);
      [done| |done].
    rewrite Hh, lookup_app_r, Nat.sub_diag by done. done.
  - apply rewrite_declare_normal in Hd
      as (_ & He & _ & _ & Hcalls & Hcache & cl & Hh & Hname & Hs).
    rewrite <- Hcalls, <- Hcache.
    apply (rewrite_reads_inert w n (length (heap s)) true true _ reads Hp s1 cl);
      [done| |done|done].
    rewrite Hh, lookup_app_r, Nat.sub_diag by done. done.
Qed.

Lemma declared_value_read_witness :
  (Flag.run counting_world (replicate 2 (OpRead "a"))
     (Flag.declare "a" [VNum 1; VNum 2] flag_fresh).2).1
    = replicate 2 (Normal VNull) /\
  (Rewrite.run counting_world (replicate 2 (OpRead "a"))
     (Rewrite.declare "a" [] rewrite_fresh).2).1
    = replicate 2 (Normal VNull).
Proof.
  split.
  - refine (proj1 (proj1 (declared_value_read counting_world "a"
                            [VNum 1; VNum 2] 2 eq_refl) flag_fresh _ _)).
    reflexivity.
  - refine (proj1 (proj2 (declared_value_read counting_world "a" [] 2 eq_refl)
                     rewrite_fresh _ _)).
    reflexivity.
Defined.

(** ** Assignment to a declared property *)

(** In every state the engine reaches, assigning to a declared property a
    value the getter does not call replaces what the property resolves to:
    the reads that follow yield the assigned value and call nothing (the
    factory declared before is not called for them), and the property stays
    the declared accessor. *)
Theorem assignment_overrides (w : world) (m : option string) (ops : list op)
    (n : string) (v : value) (reads : nat) :
  plain_function w v = false ->
  (forall o s0 k e c, Flag.lazy w (Some o) m = Normal s0 ->
     let s := (Flag.run w ops s0).2 in
     own (ctx s) !! n = Some (Accessor k e c) ->
     (Flag.run w (OpAssign n v :: replicate reads (OpRead n)) s).1
       = Normal v :: replicate reads (Normal v) /\
     calls (Flag.run w (OpAssign n v :: replicate reads (OpRead n)) s).2 = calls s /\
     ctx (Flag.run w (OpAssign n v :: replicate reads (OpRead n)) s).2 = ctx s) /\
  (forall o s0 k e c, Rewrite.lazy o m = Normal s0 ->
     let s := (Rewrite.run w ops s0).2 in
     own (ctx s) !! n = Some (Accessor k e c) ->
     (Rewrite.run w (OpAssign n v :: replicate reads (OpRead n)) s).1
       = Normal v :: replicate reads (Normal v) /\
     calls (Rewrite.run w (OpAssign n v :: replicate reads (OpRead n)) s).2 = calls s /\
     ctx (Rewrite.run w (OpAssign n v :: replicate reads (OpRead n)) s).2 = ctx s).
Proof.
  intros Hp. split.
  - intros o s0 k e c Hs0 s Hn.
    destruct (flag_run_attached w o m ops s0 Hs0 n k e c Hn)
      as (_ & _ & cl & Hk & Hname).
    fold s in Hk. simpl. rewrite (flag_assign_accessor _ _ _ _ _ _ Hn).
    destruct (flag_reads_inert w n k e c v reads Hp (Flag.setter k v s)
                {| Flag.name := Flag.name cl; Flag.subject := v;
                   Flag.isMemoized := false |}) as (H1 & H2 & H3 & _);
      [done| |done|].
    { simpl. rewrite list_lookup_alter, Hk. simpl. by rewrite decide_True. }
    destruct (Flag.run w (replicate reads (OpRead n)) (Flag.setter k v s))
      as [rs s2].
    simpl in *. by rewrite H1, H2, H3.
  - intros o s0 k e c Hs0 s Hn.
    destruct (rewrite_run_attached w o m ops s0 Hs0 n k e c Hn)
      as (_ & _ & cl & Hk & Hname).
    fold s in Hk. simpl. rewrite (rewrite_assign_accessor _ _ _ _ _ _ Hn).
    destruct (rewrite_reads_inert w n k e c v reads Hp (Rewrite.setter k v s)
                {| Rewrite.name := Rewrite.name cl; Rewrite.subject := v |})
      as (H1 & H2 & H3 & _); [done| |done|done|].
    { simpl. rewrite list_lookup_alter, Hk. simpl. by rewrite decide_True. }
    destruct (Rewrite.run w (replicate reads (OpRead n)) (Rewrite.setter k v s))
      as [rs s2].
    simpl in *. by rewrite H1, H2, H3.
Qed.

Lemma assignment_overrides_witness :
  (Flag.run counting_world (OpAssign "k" (VStr "tata") :: replicate 2 (OpRead "k"))
     (Flag.run counting_world [OpDeclare "k" [VFun 0]; OpRead "k"] flag_fresh).2).1
    = Normal (VStr "tata") :: replicate 2 (Normal (VStr "tata")) /\
  (Rewrite.run counting_world (OpAssign "k" (VStr "tata") :: replicate 2 (OpRead "k"))
     (Rewrite.run counting_world [OpDeclare "k" [VFun 0]; OpRead "k"]
        rewrite_fresh).2).1
    = Normal (VStr "tata") :: replicate 2 (Normal (VStr "tata")).
Proof.
  destruct (assignment_overrides counting_world None
              [OpDeclare "k" [VFun 0]; OpRead "k"] "k" (VStr "tata") 2 eq_refl)
    as [HF HR].
  split.
  - exact (proj1 (HF empty_object flag_fresh 0 false true eq_refl eq_refl)).
  - exact (proj1 (HR (Some empty_object) rewrite_fresh 0 true true eq_refl eq_refl)).
Defined.
(** ** The method property of the self-rewriting version *)

Lemma sealed_define_throws k en c m :
  own c !! m = Some (Data sealed_method) ->
  define_accessor k en c m = Throw TypeError.
Proof. intros Hm. unfold define_accessor. by rewrite Hm. Qed.

Lemma rewrite_declare_sealed n args s m :
  own (ctx s) !! m = Some (Data sealed_method) ->
  own (ctx (Rewrite.declare n args s).2) !! m = Some (Data sealed_method).
Proof.
  intros Hm. destruct (rewrite_declare_unfold n args s) as [_ ->].
  destruct (define_accessor _ _ _ _) as [c'|e] eqn:Hd; [|done].
  destruct (decide (m = n)) as [->|Hne].
  - by rewrite (sealed_define_throws _ _ _ _ Hm) in Hd.
  - apply define_accessor_normal in Hd as (_ & Hfr & _). by rewrite Hfr.
Qed.

Lemma rewrite_assign_sealed n v s m :
  own (ctx s) !! m = Some (Data sealed_method) ->
  own (ctx (Rewrite.assign n v s)) !! m = Some (Data sealed_method).
Proof.
  intros Hm. unfold Rewrite.assign, Put.
  destruct (own (ctx s) !! n) as [[d|k e c]|] eqn:Hn.
  - destruct (writable d) eqn:Hw; [|done]. simpl.
    destruct (decide (m = n)) as [->|Hne].
    + rewrite Hm in Hn. by simplify_eq.
    + by rewrite lookup_insert_ne.
  - done.
  - destruct (extensible (ctx s)); [|done]. simpl.
    destruct (decide (m = n)) as [->|Hne]; [congruence|].
    by rewrite lookup_insert_ne.
Qed.

Lemma rewrite_getter_sealed w k s m :
  own (ctx s) !! m = Some (Data sealed_method) ->
  own (ctx (Rewrite.getter w k s).2) !! m = Some (Data sealed_method).
Proof.
  intros Hm. unfold Rewrite.getter.
  destruct (heap s !! k) as [cl|]; [|done]. cbv zeta.
  destruct (is_function _ && negb _); [|by apply rewrite_assign_sealed].
  assert (own (ctx (Rewrite.call w (Rewrite.subject cl) s).2) !! m
          = Some (Data sealed_method)) as Hc
    by (destruct (Rewrite.subject cl); simpl; try done;
        by apply rewrite_declare_sealed).
  destruct (Rewrite.call w (Rewrite.subject cl) s) as [[r|e] s2]; simpl in *;
    [by apply rewrite_assign_sealed|done].
Qed.

Lemma restore_sealed {K} (s : state K) m :
  own (ctx s) !! m = Some (Data sealed_method) ->
  own (ctx (restore s).2) !! m = Some (Data sealed_method).
Proof.
  intros Hm. simpl. rewrite restore_loop_lookup, Hm. simpl.
  by rewrite andb_false_r.
Qed.

Lemma rewrite_run_sealed w ops s m :
  own (ctx s) !! m = Some (Data sealed_method) ->
  own (ctx (Rewrite.run w ops s).2) !! m = Some (Data sealed_method).
Proof.
  revert s. induction ops as [|o ops IH]; intros s Hm; [done|]. simpl.
  assert (own (ctx (Rewrite.step w o s).2) !! m = Some (Data sealed_method)) as Hm'.
  { destruct o as [n args|n|n v|]; simpl.
    - by apply rewrite_declare_sealed.
    - unfold Rewrite.read, Get.
      destruct (own (ctx s) !! n) as [[d|k e c]|]; try done.
      by apply rewrite_getter_sealed.
    - by apply rewrite_assign_sealed.
    - by apply restore_sealed. }
  destruct (Rewrite.step w o s) as [r s']. specialize (IH s' Hm').
  by destruct (Rewrite.run w ops s').
Qed.

(** In src/unnamed/part_000, on a context that had no property at the
    method name, the declaration function is there for good: after any run
    of declarations, reads, assignments and restores, [context[method]]
    still reads the declaration function; an assignment to that name changes
    nothing, a declaration of that name throws a [TypeError], [restore]
    does not remove it, and a second [lazy] on the context under the same
    name throws a [TypeError]. *)
Theorem rewrite_method_permanent (w : world) (c : option object)
    (m : option string) (ops : list op) (s0 : state Rewrite.closure) :
  fields (default empty_object c) !! or_default m "set" = None ->
  Rewrite.lazy c m = Normal s0 ->
  let s := (Rewrite.run w ops s0).2 in
  let mm := or_default m "set" in
  Rewrite.read w mm s = (Normal VDeclare, s) /\
  (forall v, Rewrite.assign mm v s = s) /\
  (forall args, (Rewrite.declare mm args s).1 = Throw TypeError) /\
  installed (restore s).2 mm /\
  define_value VDeclare (ctx s) mm = Throw TypeError /\
  (forall o', adopt o' = ctx s -> Rewrite.lazy (Some o') m = Throw TypeError).
Proof.
  intros Hfresh Hs0 s mm.
  assert (own (ctx s0) !! mm = Some (Data sealed_method)) as Hm0.
  { unfold Rewrite.lazy, define_value in Hs0. fold mm in Hs0.
    rewrite adopt_lookup in Hs0. fold mm in Hfresh. rewrite Hfresh in Hs0.
    simpl in Hs0. destruct (o_extensible _); simplify_eq. simpl.
    apply lookup_insert_eq. }
  assert (own (ctx s) !! mm = Some (Data sealed_method)) as Hm
    by by apply rewrite_run_sealed.
  assert (define_value VDeclare (ctx s) mm = Throw TypeError) as Hdef
    by (unfold define_value; by rewrite Hm).
  split_and!.
  - unfold Rewrite.read, Get. by rewrite Hm.
  - intros v. unfold Rewrite.assign, Put. by rewrite Hm.
  - intros args. destruct (rewrite_declare_unfold mm args s) as [-> _].
    by rewrite (sealed_define_throws _ _ _ _ Hm).
  - exists sealed_method. split; [by apply restore_sealed|done].
  - done.
  - intros o' Ho'. unfold Rewrite.lazy. simpl. fold mm. by rewrite Ho', Hdef.
Qed.

Lemma rewrite_method_permanent_witness :
  Rewrite.read counting_world "set"
    (Rewrite.run counting_world
       [OpAssign "set" (VNum 5); OpDeclare "set" [VNum 1]; OpRestore]
       rewrite_fresh).2
  = (Normal VDeclare,
     (Rewrite.run counting_world
        [OpAssign "set" (VNum 5); OpDeclare "set" [VNum 1]; OpRestore]
        rewrite_fresh).2).
Proof.
  exact (proj1 (rewrite_method_permanent counting_world (Some empty_object) None
                  [OpAssign "set" (VNum 5); OpDeclare "set" [VNum 1]; OpRestore]
                  rewrite_fresh eq_refl eq_refl)).
Defined.

(** ** The suite helpers of src/lazy-test.js *)

Lemma runner_times_app v l1 l2 :
  Runner.times v (l1 ++ l2) = Runner.times v l1 + Runner.times v l2.
Proof. unfold Runner.times. by rewrite filter_app, length_app. Qed.

Lemma runner_registered_more tests : forall l,
  foldl (λ suite t, Runner.test t.1 t.2 suite) (Some l) tests
  = Some (l ++ Runner.suite_of tests).
Proof.
  induction tests as [|t tests IH]; intros l.
  - simpl. by rewrite app_nil_r.
  - cbn [foldl].
    change (Runner.test t.1 t.2 (Some l))
      with (Some (l ++ [{| Runner.msg := t.1; Runner.fn := t.2 |}])).
    rewrite IH, <- app_assoc. done.
Qed.

Lemma runner_registered tests :
  foldl (λ suite t, Runner.test t.1 t.2 suite) None tests
  = match tests with [] => None | _ :: _ => Some (Runner.suite_of tests) end.
Proof.
  destruct tests as [|t tests]; [done|]. cbn [foldl].
  change (Runner.test t.1 t.2 None)
    with (Some [{| Runner.msg := t.1; Runner.fn := t.2 |}]).
  by rewrite runner_registered_more.
Qed.

Lemma runner_call_ext w t l1 l2 :
  (forall u, Runner.times u l1 = Runner.times u l2) ->
  Runner.call w t l1 = Runner.call w t l2.
Proof. intros H. unfold Runner.call. by rewrite H. Qed.

Lemma runner_loop w suite : forall fails log pre,
  (forall v, Runner.times v pre = Runner.times v log) ->
  Runner.loop w suite fails log
  = (fails ++ omap Runner.failed (Runner.verdicts w pre suite),
     rev (Runner.fn <$> suite) ++ log).
Proof.
  induction suite as [|t rest IH]; intros fails log pre Hpre.
  - simpl. by rewrite app_nil_r.
  - assert (Runner.verdicts w pre (t :: rest)
            = Runner.call w t log
              :: Runner.verdicts w (pre ++ [Runner.fn t]) rest) as Hv.
    { unfold Runner.verdicts. rewrite imap_cons. f_equal.
      - unfold Runner.outcome_at. simpl. rewrite app_nil_r.
        by apply runner_call_ext.
      - apply imap_ext. intros i t' _. simpl. unfold Runner.outcome_at. simpl.
        by rewrite <- app_assoc. }
    assert (forall v, Runner.times v (pre ++ [Runner.fn t])
                      = Runner.times v (Runner.fn t :: log)) as Hpre'.
    { intros v. rewrite runner_times_app, Hpre.
      change (Runner.fn t :: log) with ([Runner.fn t] ++ log).
      rewrite runner_times_app. lia. }
    rewrite Hv. simpl. rewrite <- app_assoc. simpl.
    destruct (Runner.call w t log) as [[v|e] t'];
      rewrite (IH _ _ _ Hpre'); unfold Runner.failed; simpl; [done|].
    by rewrite <- app_assoc.
Qed.

Lemma runner_report_ok w fails : forall out,
  Forall (λ f, Runner.unprintable w f = None) fails ->
  Runner.report w fails out = (out ++ (Runner.report_line <$> fails), None).
Proof.
  induction fails as [|f fails IH]; intros out Hall; simpl.
  - by rewrite app_nil_r.
  - apply Forall_cons in Hall as [Hf Hall]. rewrite Hf, (IH _ Hall).
    unfold Runner.puts. by rewrite <- app_assoc.
Qed.

Lemma runner_report_crash w fails : forall out,
  Exists (λ f, Runner.unprintable w f ≠ None) fails ->
  exists before f after e,
    fails = before ++ f :: after /\
    Forall (λ f, Runner.unprintable w f = None) before /\
    Runner.unprintable w f = Some e /\
    Runner.report w fails out = (out ++ (Runner.report_line <$> before), Some e).
Proof.
  induction fails as [|f fails IH]; intros out Hex; [by inversion Hex|].
  simpl. destruct (Runner.unprintable w f) as [e|] eqn:Hf.
  - exists [], f, fails, e. simpl. by rewrite app_nil_r.
  - apply Exists_cons in Hex as [Hex|Hex]; [done|].
    destruct (IH (Runner.puts (Runner.report_line f) out) Hex)
      as (before & f' & after & e & -> & Hall & Hf' & Hr).
    exists (f :: before), f', after, e. split_and!; try done.
    + by constructor.
    + change (Runner.Report (Runner.f_msg f) (Runner.err f) (Runner.f_fn f))
        with (Runner.report_line f).
      rewrite Hr. unfold Runner.puts. simpl. by rewrite <- app_assoc.
Qed.

Lemma runner_reports_no_summary (fails : list Runner.failure) :
  Forall (λ l, Runner.summary l = false) (Runner.report_line <$> fails).
Proof. apply Forall_fmap, Forall_forall. by intros f _. Qed.

Lemma runner_failed_in w suite f :
  f ∈ omap Runner.failed (Runner.verdicts w [] suite) <->
  exists i t e, suite !! i = Some t /\
    (Runner.outcome_at w [] suite i t).1 = Throw e /\
    f = {| Runner.f_msg := Runner.msg (Runner.outcome_at w [] suite i t).2;
           Runner.f_fn := Runner.fn (Runner.outcome_at w [] suite i t).2;
           Runner.err := e |}.
Proof.
  unfold Runner.verdicts. rewrite list_elem_of_omap. split.
  - intros (tr & Hin & Hf).
    apply elem_of_lookup_imap in Hin as (i & t & -> & Hi).
    unfold Runner.failed in Hf.
    destruct (Runner.outcome_at w [] suite i t).1 as [v|e] eqn:Ho; [done|].
    exists i, t, e. by simplify_eq.
  - intros (i & t & e & Hi & Ho & ->).
    exists (Runner.outcome_at w [] suite i t). split.
    + apply elem_of_lookup_imap. by exists i, t.
    + unfold Runner.failed. by rewrite Ho.
Qed.

Lemma runner_failed_verdicts w suite :
  omap Runner.failed (Runner.verdicts w [] suite) = [] <->
  forall i t, suite !! i = Some t ->
    exists v, (Runner.outcome_at w [] suite i t).1 = Normal v.
Proof.
  split.
  - intros Hnil i t Hi.
    destruct (Runner.outcome_at w [] suite i t).1 as [v|e] eqn:Ho; [by eexists|].
    assert ({| Runner.f_msg := Runner.msg (Runner.outcome_at w [] suite i t).2;
               Runner.f_fn := Runner.fn (Runner.outcome_at w [] suite i t).2;
               Runner.err := e |}
            ∈ omap Runner.failed (Runner.verdicts w [] suite)) as Hin.
    { apply runner_failed_in. by exists i, t, e. }
    rewrite Hnil in Hin. by apply elem_of_nil in Hin.
  - intros Hall.
    destruct (omap _ _) as [|f fs] eqn:Hom; [done|].
    assert (f ∈ omap Runner.failed (Runner.verdicts w [] suite))
      as Hin by (rewrite Hom; by constructor).
    apply runner_failed_in in Hin as (i & t & e & Hi & Ho & _).
    destruct (Hall i t Hi) as [v Hv]. congruence.
Qed.

Lemma runner_suite_fn tests : Runner.fn <$> Runner.suite_of tests = tests.*2.
Proof.
  unfold Runner.suite_of. rewrite <- list_fmap_compose. by apply list_fmap_ext.
Qed.

Lemma runner_script w tests :
  tests ≠ [] ->
  Runner.script w tests
  = (let '(out, st) :=
       Runner.print w
         (omap Runner.failed (Runner.verdicts w [] (Runner.suite_of tests)))
         (length tests) [] in
     {| Runner.stdout := out; Runner.tried := rev (tests.*2);
        Runner.status := st |}).
Proof.
  intros Hne. unfold Runner.script. rewrite runner_registered.
  destruct tests as [|t tests]; [done|]. unfold Runner.run.
  rewrite (runner_loop w _ [] [] []) by done.
  rewrite app_nil_r, app_nil_l, runner_suite_fn.
  unfold Runner.suite_of at 2. by rewrite length_fmap.
Qed.

(** The script of src/lazy-test.js, for at least one registered test and
    failures that can all be printed (the [fn] that the record of the
    failed test holds after the call has a [toString] that works, which
    [undefined] and [null] have not, and what the test threw has a [stack]
    to read, which [undefined] and [null] have not): [run] tries every
    registered [fn] once, in the order of registration, whether or not a
    test before it threw; a [fn] that is not a function counts as a
    failure; one report is printed for each failure, in that order, with
    the [msg] and the [fn] its record holds after the call, then one
    summary with the number of tests and of failures; the process exits
    with 0 when every test returned and with 1 otherwise. *)
Theorem runner_verdict (w : Runner.world) (tests : list (value * value)) :
  tests ≠ [] ->
  let suite := Runner.suite_of tests in
  let fails := omap Runner.failed (Runner.verdicts w [] suite) in
  Forall (λ f, Runner.unprintable w f = None) fails ->
  let p := Runner.script w tests in
  Runner.tried p = rev (tests.*2) /\
  Runner.stdout p
    = (Runner.report_line <$> fails)
      ++ [match fails with
          | [] => Runner.Passing (length tests)
          | _ :: _ => Runner.Completed (length tests) (length fails)
          end] /\
  Runner.status p
    = Runner.Exit (match fails with [] => 0 | _ :: _ => 1 end) /\
  (Runner.status p = Runner.Exit 0 <->
   forall i t, suite !! i = Some t ->
     exists v, (Runner.outcome_at w [] suite i t).1 = Normal v) /\
  (forall i t, suite !! i = Some t -> is_function (Runner.fn t) = false ->
     Runner.status p = Runner.Exit 1).
Proof.
  intros Hne suite fails Hprint p.
  assert (Runner.print w fails (length tests) []
          = ((Runner.report_line <$> fails)
             ++ [match fails with
                 | [] => Runner.Passing (length tests)
                 | _ :: _ => Runner.Completed (length tests) (length fails)
                 end],
             Runner.Exit (match fails with [] => 0 | _ :: _ => 1 end))) as Hpr.
  { unfold Runner.print. destruct fails as [|f fs] eqn:Hf; [done|].
    by rewrite (runner_report_ok _ _ _ Hprint). }
  subst p. rewrite (runner_script w tests Hne). fold suite. fold fails.
  rewrite Hpr. simpl.
  assert (Runner.Exit (match fails with [] => 0 | _ :: _ => 1 end) = Runner.Exit 0 <->
          forall i t, suite !! i = Some t ->
            exists v, (Runner.outcome_at w [] suite i t).1 = Normal v) as Hiff.
  { rewrite <- runner_failed_verdicts. fold suite. fold fails.
    destruct fails; split; intros H; done. }
  split_and!; try done.
  intros i t Hi Hnf.
  destruct fails as [|f fs] eqn:Hf; [|done]. exfalso.
  destruct (proj1 Hiff eq_refl i t Hi) as [v Hv].
  unfold Runner.outcome_at, Runner.call in Hv. by rewrite Hnf in Hv.
Qed.

Lemma runner_verdict_witness :
  Runner.status (Runner.script Runner.failing
                   [(VStr "fails", VFun 0); (VStr "no function", VNum 1)])
  = Runner.Exit 1.
Proof.
  refine (proj1 (proj2 (proj2
    (runner_verdict Runner.failing
       [(VStr "fails", VFun 0); (VStr "no function", VNum 1)] _ _)))).
  - done.
  - vm_compute. repeat constructor.
Defined.

(** The script of src/lazy-test.js ends without a summary and without an
    exit code of its own in these cases only: no test was registered
    ([run] reads [suite.length] of [undefined], a [TypeError], and nothing
    is written), or the report of some failure throws, at
    [test.fn.toString()], at [test.err.stack] or while it is formatted.
    What escapes then is what the first such report throws; the reports of
    the failures before it have been written, and nothing else; and every
    registered [fn] has still been tried once.  A test registered without
    a function, [test('x')], is such a failure, and so is a test that
    throws after it has removed the [fn] of its record: the script ends
    with an uncaught exception. *)
Theorem runner_uncaught (w : Runner.world) (tests : list (value * value)) :
  let suite := Runner.suite_of tests in
  let fails := omap Runner.failed (Runner.verdicts w [] suite) in
  let p := Runner.script w tests in
  ((exists e, Runner.status p = Runner.Uncaught e) <->
   tests = [] \/ Exists (λ f, Runner.unprintable w f ≠ None) fails) /\
  (forall e, Runner.status p = Runner.Uncaught e ->
     (tests = [] /\ e = TypeError /\ Runner.stdout p = [] \/
      exists before f after,
        fails = before ++ f :: after /\
        Forall (λ f, Runner.unprintable w f = None) before /\
        Runner.unprintable w f = Some e /\
        Runner.stdout p = Runner.report_line <$> before) /\
     Forall (λ l, Runner.summary l = false) (Runner.stdout p) /\
     Runner.tried p = rev (tests.*2)) /\
  (forall i t, suite !! i = Some t ->
     nullish (Runner.fn t) = true \/
     (exists e, (Runner.outcome_at w [] suite i t).1 = Throw e) /\
     nullish (Runner.fn (Runner.outcome_at w [] suite i t).2) = true ->
     exists e, Runner.status p = Runner.Uncaught e).
Proof.
  intros suite fails p.
  assert (forall i t, suite !! i = Some t ->
            nullish (Runner.fn t) = true \/
            (exists e, (Runner.outcome_at w [] suite i t).1 = Throw e) /\
            nullish (Runner.fn (Runner.outcome_at w [] suite i t).2) = true ->
            Exists (λ f, Runner.unprintable w f ≠ None) fails) as Hnull.
  { intros i t Hi Hn.
    assert (exists e, (Runner.outcome_at w [] suite i t).1 = Throw e /\
              nullish (Runner.fn (Runner.outcome_at w [] suite i t).2) = true)
      as (e & Ho & Hfn).
    { destruct Hn as [Hn|[[e He] Hn]]; [|by exists e].
      exists TypeError. unfold Runner.outcome_at, Runner.call.
      destruct (Runner.fn t) eqn:Hfn; try done; simpl; by rewrite Hfn. }
    apply Exists_exists.
    exists {| Runner.f_msg := Runner.msg (Runner.outcome_at w [] suite i t).2;
              Runner.f_fn := Runner.fn (Runner.outcome_at w [] suite i t).2;
              Runner.err := e |}. split.
    - apply runner_failed_in. by exists i, t, e.
    - unfold Runner.unprintable, Runner.source_of. simpl. by rewrite Hfn. }
  destruct (decide (tests = [])) as [Hnil|Hne].
  { subst p suite fails. rewrite Hnil. unfold Runner.script. simpl. split_and!.
    - split; [by left|by eexists].
    - intros e [= <-]. split_and!; try done. by left.
    - intros i t Hi. done. }
  subst p. rewrite (runner_script w tests Hne). fold suite. fold fails.
  destruct (decide (Forall (λ f, Runner.unprintable w f = None) fails))
    as [Hall|Hnall].
  - assert ((Runner.print w fails (length tests) []).2
            = Runner.Exit (match fails with [] => 0 | _ :: _ => 1 end)) as Hst.
    { unfold Runner.print. destruct fails as [|f fs] eqn:Hf; [done|].
      by rewrite (runner_report_ok _ _ _ Hall). }
    destruct (Runner.print w fails (length tests) []) as [out st].
    simpl in *. subst st.
    assert (~ Exists (λ f, Runner.unprintable w f ≠ None) fails) as Hnex.
    { intros Hex. apply Exists_exists in Hex as (f & Hin & Hf).
      rewrite Forall_forall in Hall. by specialize (Hall f Hin). }
    split_and!.
    + split; [by intros [e ?]|]. by intros [?|Hex].
    + by intros e ?.
    + intros i t Hi Hn. by destruct Hnex; eapply Hnull.
  - assert (Exists (λ f, Runner.unprintable w f ≠ None) fails) as Hex.
    { apply not_Forall_Exists in Hnall; [|intros f; apply _].
      eapply Exists_impl; [exact Hnall|]. by intros f Hf. }
    destruct (runner_report_crash w fails [] Hex)
      as (before & f & after & e & Hfails & Hbefore & Hf & Hrep).
    assert (Runner.print w fails (length tests) []
            = (Runner.report_line <$> before, Runner.Uncaught e)) as ->.
    { unfold Runner.print. destruct fails as [|f0 fs] eqn:Hfs; [by inversion Hex|].
      by rewrite Hrep. }
    simpl. split_and!.
    + split; [by right|by eexists].
    + intros e' [= <-]. split_and!; try done.
      * right. by exists before, f, after.
      * apply runner_reports_no_summary.
    + intros i t Hi Hn. by eexists.
Qed.

(** A test that throws after [delete this.fn] cannot be reported: the
    script ends at [test.fn.toString()], with nothing written. *)
Lemma runner_record_changed :
  Runner.script Runner.forgetful [(VStr "forgets", VFun 0); (VStr "fine", VFun 1)]
  = {| Runner.stdout := []; Runner.tried := [VFun 1; VFun 0];
       Runner.status := Runner.Uncaught TypeError |}.
Proof. reflexivity. Qed.

(** * The two models *)

(** ** The getters of the second model, unfolded *)

Lemma flag_getter_unfold w d k s :
  Reentrant.Flag.getter w d k s =
  match Reentrant.heap s !! k with
  | None => Some (Reentrant.Normal Reentrant.VUndefined, s)
  | Some cl =>
      if Reentrant.Flag.isMemoized cl
      then Some (Reentrant.Normal (Reentrant.Flag.subject cl), s) else
      if Reentrant.plain_function w (Reentrant.Flag.subject cl) then
        match d with
        | 0 => None
        | S d' =>
            match Reentrant.Flag.call w d' (Reentrant.Flag.subject cl)
                    (Reentrant.Flag.memoize k s) with
            | Some (Reentrant.Normal r, s2) =>
                Some (Reentrant.Normal r, Reentrant.Flag.store k r s2)
            | Some (Reentrant.Throw e, s2) => Some (Reentrant.Throw e, s2)
            | None => None
            end
        end
      else Some (Reentrant.Normal (Reentrant.Flag.subject cl),
                 Reentrant.Flag.memoize k s)
  end.
Proof.
  assert (forall v, Reentrant.is_function v
                    && negb (Reentrant.is_function v && Reentrant.has_getCall w v)
                    = Reentrant.plain_function w v) as Hp.
  { intros v. unfold Reentrant.plain_function.
    by destruct (Reentrant.is_function v), (Reentrant.has_getCall w v). }
  destruct d; simpl; destruct (Reentrant.heap s !! k) as [cl|]; try done;
    by rewrite Hp.
Qed.

Lemma rewrite_getter_unfold w d k s :
  Reentrant.Rewrite.getter w d k s =
  match Reentrant.heap s !! k with
  | None => Some (Reentrant.Normal Reentrant.VUndefined, s)
  | Some cl =>
      if Reentrant.plain_function w (Reentrant.Rewrite.subject cl) then
        match d with
        | 0 => None
        | S d' =>
            match Reentrant.Rewrite.call w d' (Reentrant.Rewrite.subject cl) s with
            | Some (Reentrant.Normal r, s1) =>
                match Reentrant.Rewrite.assign (Reentrant.Rewrite.name cl) r s1 with
                | Some s2 => Some (Reentrant.Normal r, s2)
                | None => None
                end
            | Some (Reentrant.Throw e, s1) => Some (Reentrant.Throw e, s1)
            | None => None
            end
        end
      else
        match Reentrant.Rewrite.assign (Reentrant.Rewrite.name cl)
                (Reentrant.Rewrite.subject cl) s with
        | Some s' => Some (Reentrant.Normal (Reentrant.Rewrite.subject cl), s')
        | None => None
        end
  end.
Proof.
  assert (forall v, Reentrant.is_function v
                    && negb (Reentrant.is_function v && Reentrant.has_getCall w v)
                    = Reentrant.plain_function w v) as Hp.
  { intros v. unfold Reentrant.plain_function.
    by destruct (Reentrant.is_function v), (Reentrant.has_getCall w v). }
  destruct d; simpl; destruct (Reentrant.heap s !! k) as [cl|]; try done;
    by rewrite Hp.
Qed.

(** ** The first model is the second one cut down *)

Lemma up_own c n : Reentrant.own (up_context c) !! n = up_property <$> own c !! n.
Proof. apply lookup_fmap. Qed.

Lemma up_configurable p : Reentrant.p_configurable (up_property p) = p_configurable p.
Proof. by destruct p. Qed.

Lemma up_enumerable p : Reentrant.p_enumerable (up_property p) = p_enumerable p.
Proof. by destruct p. Qed.

Lemma up_plain_function w v :
  Reentrant.plain_function (up_world w) (up_value v) = plain_function w v.
Proof. by destruct v. Qed.

Lemma up_with_own c m :
  Reentrant.with_own (up_context c) (up_property <$> m) = up_context (with_own c m).
Proof. done. Qed.

Lemma up_delete_property n c :
  Reentrant.delete_property n (up_context c) = up_context (delete_property n c).
Proof.
  unfold Reentrant.delete_property, delete_property. rewrite up_own.
  destruct (own c !! n) as [p|]; simpl; [|done]. rewrite up_configurable.
  destruct (p_configurable p); [|done].
  unfold up_context, Reentrant.with_own. simpl. by rewrite fmap_delete.
Qed.

Lemma up_restore_loop l : forall c,
  Reentrant.restore_loop l (up_context c) = up_context (restore_loop l c).
Proof.
  induction l as [|n l IH]; intros c; simpl; [done|].
  by rewrite up_delete_property, IH.
Qed.

Lemma up_define_accessor k en c n :
  Reentrant.define_accessor k en (up_context c) n
  = up_completion up_context (define_accessor k en c n).
Proof.
  unfold Reentrant.define_accessor, define_accessor. rewrite up_own.
  destruct (own c !! n) as [p|]; simpl.
  - rewrite up_configurable, up_enumerable. destruct (p_configurable p); [|done].
    simpl. f_equal. unfold up_context, Reentrant.with_own. simpl.
    by rewrite fmap_insert.
  - destruct (extensible c); [|done]. simpl. f_equal.
    unfold up_context, Reentrant.with_own. simpl. by rewrite fmap_insert.
Qed.

Lemma up_define_value v c n :
  Reentrant.define_value (up_value v) (up_context c) n
  = up_completion up_context (define_value v c n).
Proof.
  unfold Reentrant.define_value, define_value. rewrite up_own.
  destruct (own c !! n) as [[d|k e c']|]; simpl.
  - destruct (configurable d || writable d); [|done].
    simpl. f_equal. unfold up_context, Reentrant.with_own. simpl.
    by rewrite fmap_insert.
  - destruct c'; [|done]. simpl. f_equal.
    unfold up_context, Reentrant.with_own. simpl. by rewrite fmap_insert.
  - destruct (extensible c); [|done]. simpl. f_equal.
    unfold up_context, Reentrant.with_own. simpl. by rewrite fmap_insert.
Qed.

Lemma up_restore {K K'} (f : K -> K') (s : state K) :
  Reentrant.restore (up_state f s) = up_result f (restore s).
Proof.
  unfold Reentrant.restore, restore, up_result, up_state. simpl.
  by rewrite up_restore_loop.
Qed.

(** Writes and reads agree once the setters, respectively the getters, do. *)
Lemma up_Put {K K'} (f : K -> K') setter setter' n v s :
  (forall k v s, setter' k (up_value v) (up_state f s) = up_state f (setter k v s)) ->
  Reentrant.Put setter' n (up_value v) (up_state f s)
  = Some (up_state f (Put setter n v s)).
Proof.
  intros Hset. unfold Reentrant.Put, Put. simpl. rewrite lookup_fmap.
  destruct (own (ctx s) !! n) as [[d|k e c]|]; simpl.
  - destruct (writable d); [|done]. f_equal.
    unfold up_state, Reentrant.with_ctx, Reentrant.with_own, up_context. simpl.
    by rewrite fmap_insert.
  - by rewrite Hset.
  - rewrite lookup_empty. destruct (extensible (ctx s)); [|done]. f_equal.
    unfold up_state, Reentrant.with_ctx, Reentrant.with_own, up_context. simpl.
    by rewrite fmap_insert.
Qed.

Lemma up_Get {K K'} (f : K -> K') getter getter' n s :
  (forall k, getter' k (up_state f s) = Some (up_result f (getter k s))) ->
  Reentrant.Get getter' n (up_state f s) = Some (up_result f (Get getter n s)).
Proof.
  intros Hget. unfold Reentrant.Get, Get. simpl. rewrite lookup_fmap.
  destruct (own (ctx s) !! n) as [[d|k e c]|]; simpl;
    [done|apply Hget|by rewrite ?lookup_empty].
Qed.

(** *** src/lazy.js *)

Lemma up_flag_declare n args s :
  Reentrant.Flag.declare n (up_value <$> args) (up_state up_flag s)
  = up_result up_flag (Flag.declare n args s).
Proof.
  unfold Reentrant.Flag.declare, Flag.declare. simpl.
  rewrite length_fmap, up_define_accessor.
  assert (match up_value <$> args with
          | [value] => value
          | _ => Reentrant.VNull
          end = up_value (match args with [value] => value | _ => VNull end)) as ->
    by (by destruct args as [|? [|? ?]]).
  destruct (define_accessor _ _ _ _); simpl;
    unfold up_result, up_state, Reentrant.with_ctx; simpl;
    by rewrite fmap_app.
Qed.

Lemma up_flag_setter k v s :
  Reentrant.Flag.setter k (up_value v) (up_state up_flag s)
  = up_state up_flag (Flag.setter k v s).
Proof.
  unfold Reentrant.Flag.setter, Flag.setter, up_state, Reentrant.with_heap. simpl.
  f_equal. symmetry. apply list_fmap_alter. by apply Forall_true.
Qed.

Lemma up_flag_memoize k s :
  Reentrant.Flag.memoize k (up_state up_flag s)
  = up_state up_flag
      (with_heap s (alter (λ cl, {| Flag.name := Flag.name cl;
                                    Flag.subject := Flag.subject cl;
                                    Flag.isMemoized := true |}) k (heap s))).
Proof.
  unfold Reentrant.Flag.memoize, up_state, Reentrant.with_heap. simpl.
  f_equal. symmetry. apply list_fmap_alter. by apply Forall_true.
Qed.

Lemma up_flag_store k r s :
  Reentrant.Flag.store k (up_value r) (up_state up_flag s)
  = up_state up_flag
      (with_heap s (alter (λ cl, {| Flag.name := Flag.name cl;
                                    Flag.subject := r;
                                    Flag.isMemoized := Flag.isMemoized cl |})
                          k (heap s))).
Proof.
  unfold Reentrant.Flag.store, up_state, Reentrant.with_heap. simpl.
  f_equal. symmetry. apply list_fmap_alter. by apply Forall_true.
Qed.

Lemma up_flag_call w d v s :
  Reentrant.Flag.call (up_world w) d (up_value v) (up_state up_flag s)
  = Some (up_result up_flag (Flag.call w v s)).
Proof.
  destruct v; try done.
  change (Reentrant.Flag.call (up_world w) d (up_value VDeclare) (up_state up_flag s))
    with (Some (Reentrant.Flag.declare "undefined" (up_value <$> [])
                  (up_state up_flag s))).
  by rewrite up_flag_declare.
Qed.

Lemma up_flag_getter w d k s :
  Reentrant.Flag.getter (up_world w) (S d) k (up_state up_flag s)
  = Some (up_result up_flag (Flag.getter w k s)).
Proof.
  rewrite flag_getter_unfold. unfold Flag.getter.
  change (Reentrant.heap (up_state up_flag s)) with (up_flag <$> heap s).
  rewrite list_lookup_fmap.
  destruct (heap s !! k) as [cl|]; simpl; [|done].
  destruct (Flag.isMemoized cl); [done|].
  rewrite up_plain_function.
  replace (is_function (Flag.subject cl)
           && negb (is_function (Flag.subject cl) && has_getCall w (Flag.subject cl)))
    with (plain_function w (Flag.subject cl))
    by (unfold plain_function;
        by destruct (is_function (Flag.subject cl)), (has_getCall w (Flag.subject cl))).
  destruct (plain_function w (Flag.subject cl)).
  - rewrite up_flag_memoize, up_flag_call.
    destruct (Flag.call w (Flag.subject cl) _) as [[r|e] s2]; simpl; [|done].
    by rewrite up_flag_store.
  - by rewrite up_flag_memoize.
Qed.

Lemma up_flag_step w d o s :
  Reentrant.Flag.step (up_world w) (S d) (up_op o) (up_state up_flag s)
  = Some (up_result up_flag (Flag.step w o s)).
Proof.
  destruct o as [n args|n|n v|]; simpl.
  - unfold Reentrant.Flag.step, Reentrant.step. by rewrite up_flag_declare.
  - apply up_Get. intros k. apply up_flag_getter.
  - unfold Reentrant.Flag.step, Reentrant.step.
    by rewrite (up_Put up_flag Flag.setter _ n v s up_flag_setter).
  - unfold Reentrant.Flag.step, Reentrant.step. by rewrite up_restore.
Qed.

(** On a context that inherits nothing, with functions that leave it
    alone, the second model of src/lazy.js answers every run, at depth 1
    and more, as the first model does. *)
Lemma flag_models_agree w d ops : forall s,
  Reentrant.Flag.run (up_world w) (S d) (up_op <$> ops) (up_state up_flag s)
  = Some (up_completion up_value <$> (Flag.run w ops s).1,
          up_state up_flag (Flag.run w ops s).2).
Proof.
  induction ops as [|o ops IH]; intros s; [done|].
  change (Reentrant.Flag.run (up_world w) (S d) (up_op <$> o :: ops)
            (up_state up_flag s))
    with (match Reentrant.Flag.step (up_world w) (S d) (up_op o) (up_state up_flag s) with
          | Some (r, s1) =>
              match Reentrant.Flag.run (up_world w) (S d) (up_op <$> ops) s1 with
              | Some (rs, s2) => Some (r :: rs, s2)
              | None => None
              end
          | None => None
          end).
  rewrite up_flag_step. simpl.
  destruct (Flag.step w o s) as [r s1]. unfold up_result. simpl. rewrite IH.
  by destruct (Flag.run w ops s1).
Qed.

Lemma flag_models_attach w o m :
  Reentrant.Flag.lazy (up_world w) (Some (up_object o)) m
  = Some (up_completion (up_state up_flag) (Flag.lazy w (Some o) m)).
Proof.
  unfold Reentrant.Flag.lazy, Flag.lazy, Reentrant.Flag.assign, Flag.assign,
    Reentrant.Flag.read, Flag.read.
  change (Reentrant.or_default m "lazy") with (or_default m "lazy").
  assert (Reentrant.Flag.init (Reentrant.adopt (up_object o))
          = up_state up_flag (Flag.init (adopt o))) as ->.
  { unfold Reentrant.Flag.init, Flag.init, Reentrant.initial, initial, up_state. simpl.
    f_equal. unfold Reentrant.adopt, up_context. simpl. f_equal.
    rewrite <- !map_fmap_compose. by apply map_fmap_ext. }
  rewrite (up_Put up_flag Flag.setter _ _ VDeclare _ up_flag_setter).
  unfold Reentrant.Get, Get. simpl. rewrite lookup_fmap.
  destruct (own (ctx (Put Flag.setter (or_default m "lazy") VDeclare
                        (Flag.init (adopt o)))) !! or_default m "lazy")
    as [[dd|k e c]|] eqn:Hn; simpl.
  - by destruct (value_of dd).
  - exfalso. unfold Put in Hn. simpl in Hn. rewrite lookup_fmap in Hn.
    destruct (fields o !! or_default m "lazy") as [d0|] eqn:Hf; simpl in Hn.
    + destruct (writable d0); simpl in Hn.
      * by rewrite lookup_insert_eq in Hn.
      * by rewrite lookup_fmap, Hf in Hn.
    + destruct (o_extensible o); simpl in Hn.
      * by rewrite lookup_insert_eq in Hn.
      * by rewrite lookup_fmap, Hf in Hn.
  - by rewrite lookup_empty.
Qed.

(** *** src/unnamed/part_000 *)

Lemma up_rewrite_declare n args s :
  Reentrant.Rewrite.declare n (up_value <$> args) (up_state up_rewrite s)
  = up_result up_rewrite (Rewrite.declare n args s).
Proof.
  unfold Reentrant.Rewrite.declare, Rewrite.declare. simpl.
  rewrite length_fmap, up_define_accessor.
  assert (match up_value <$> args with
          | [value] => value
          | _ => Reentrant.VNull
          end = up_value (match args with [value] => value | _ => VNull end)) as ->
    by (by destruct args as [|? [|? ?]]).
  destruct (define_accessor _ _ _ _); simpl;
    unfold up_result, up_state, Reentrant.with_ctx; simpl;
    by rewrite fmap_app.
Qed.

Lemma up_rewrite_setter k v s :
  Reentrant.Rewrite.setter k (up_value v) (up_state up_rewrite s)
  = up_state up_rewrite (Rewrite.setter k v s).
Proof.
  unfold Reentrant.Rewrite.setter, Rewrite.setter, up_state, Reentrant.with_heap.
  simpl. f_equal. symmetry. apply list_fmap_alter. by apply Forall_true.
Qed.

Lemma up_rewrite_assign n v s :
  Reentrant.Rewrite.assign n (up_value v) (up_state up_rewrite s)
  = Some (up_state up_rewrite (Rewrite.assign n v s)).
Proof. apply up_Put, up_rewrite_setter. Qed.

Lemma up_rewrite_call w d v s :
  Reentrant.Rewrite.call (up_world w) d (up_value v) (up_state up_rewrite s)
  = Some (up_result up_rewrite (Rewrite.call w v s)).
Proof.
  destruct v; try done.
  change (Reentrant.Rewrite.call (up_world w) d (up_value VDeclare)
            (up_state up_rewrite s))
    with (Some (Reentrant.Rewrite.declare "undefined" (up_value <$> [])
                  (up_state up_rewrite s))).
  by rewrite up_rewrite_declare.
Qed.

Lemma up_rewrite_getter w d k s :
  Reentrant.Rewrite.getter (up_world w) (S d) k (up_state up_rewrite s)
  = Some (up_result up_rewrite (Rewrite.getter w k s)).
Proof.
  rewrite rewrite_getter_unfold. unfold Rewrite.getter.
  change (Reentrant.heap (up_state up_rewrite s)) with (up_rewrite <$> heap s).
  rewrite list_lookup_fmap.
  destruct (heap s !! k) as [cl|]; simpl; [|done].
  rewrite up_plain_function.
  replace (is_function (Rewrite.subject cl)
           && negb (is_function (Rewrite.subject cl)
                    && has_getCall w (Rewrite.subject cl)))
    with (plain_function w (Rewrite.subject cl))
    by (unfold plain_function;
        by destruct (is_function (Rewrite.subject cl)),
                    (has_getCall w (Rewrite.subject cl))).
  destruct (plain_function w (Rewrite.subject cl)).
  - rewrite up_rewrite_call.
    destruct (Rewrite.call w (Rewrite.subject cl) s) as [[r|e] s2]; simpl; [|done].
    by rewrite up_rewrite_assign.
  - by rewrite up_rewrite_assign.
Qed.

Lemma up_rewrite_step w d o s :
  Reentrant.Rewrite.step (up_world w) (S d) (up_op o) (up_state up_rewrite s)
  = Some (up_result up_rewrite (Rewrite.step w o s)).
Proof.
  destruct o as [n args|n|n v|]; simpl.
  - unfold Reentrant.Rewrite.step, Reentrant.step. by rewrite up_rewrite_declare.
  - apply up_Get. intros k. apply up_rewrite_getter.
  - unfold Reentrant.Rewrite.step, Reentrant.step.
    change (Reentrant.Put Reentrant.Rewrite.setter n (up_value v)
              (up_state up_rewrite s))
      with (Reentrant.Rewrite.assign n (up_value v) (up_state up_rewrite s)).
    by rewrite up_rewrite_assign.
  - unfold Reentrant.Rewrite.step, Reentrant.step. by rewrite up_restore.
Qed.

(** The same for src/unnamed/part_000. *)
Lemma rewrite_models_agree w d ops : forall s,
  Reentrant.Rewrite.run (up_world w) (S d) (up_op <$> ops) (up_state up_rewrite s)
  = Some (up_completion up_value <$> (Rewrite.run w ops s).1,
          up_state up_rewrite (Rewrite.run w ops s).2).
Proof.
  induction ops as [|o ops IH]; intros s; [done|].
  change (Reentrant.Rewrite.run (up_world w) (S d) (up_op <$> o :: ops)
            (up_state up_rewrite s))
    with (match Reentrant.Rewrite.step (up_world w) (S d) (up_op o)
                  (up_state up_rewrite s) with
          | Some (r, s1) =>
              match Reentrant.Rewrite.run (up_world w) (S d) (up_op <$> ops) s1 with
              | Some (rs, s2) => Some (r :: rs, s2)
              | None => None
              end
          | None => None
          end).
  rewrite up_rewrite_step. simpl.
  destruct (Rewrite.step w o s) as [r s1]. unfold up_result. simpl. rewrite IH.
  by destruct (Rewrite.run w ops s1).
Qed.

Lemma rewrite_models_attach w c m :
  Reentrant.Rewrite.lazy (up_world w) (up_object <$> c) m
  = up_completion (up_state up_rewrite) (Rewrite.lazy c m).
Proof.
  unfold Reentrant.Rewrite.lazy, Rewrite.lazy.
  change (Reentrant.or_default m "set") with (or_default m "set").
  assert (Reentrant.adopt (default (Reentrant.empty_object (up_world w))
                             (up_object <$> c))
          = up_context (adopt (default empty_object c))) as ->.
  { destruct c as [o|]; simpl.
    - unfold Reentrant.adopt, up_context. simpl. f_equal.
      rewrite <- !map_fmap_compose. by apply map_fmap_ext.
    - unfold Reentrant.adopt, up_context, Reentrant.empty_object. simpl.
      by rewrite !fmap_empty. }
  change Reentrant.VDeclare with (up_value VDeclare).
  rewrite up_define_value. by destruct (define_value _ _ _).
Qed.

(** * The engine entered from its own getter

    From here on the names are those of [Reentrant]: the caller's
    functions act on the context, the context inherits, and [restore] is a
    value. *)

Import Reentrant.

(** ** The object model *)

Lemma re_define_accessor_throws k en c n e :
  define_accessor k en c n = Throw e -> e = TypeError.
Proof. unfold define_accessor. repeat case_match; congruence. Qed.

Lemma re_define_accessor_normal k en c n c' :
  define_accessor k en c n = Normal c' ->
  (exists e, own c' !! n = Some (Accessor k e true)) /\
  (forall n', n' ≠ n -> own c' !! n' = own c !! n') /\
  extensible c' = extensible c /\ inherited c' = inherited c.
Proof.
  unfold define_accessor. intros H.
  repeat case_match; simplify_eq; simpl;
    (split; [eexists; apply lookup_insert_eq|]);
    (split; [intros n' Hn'; by rewrite lookup_insert_ne|done]).
Qed.

Lemma re_delete_property_lookup n c n' :
  own (delete_property n c) !! n' =
  match own c !! n' with
  | Some p => if bool_decide (n' = n) && p_configurable p then None else Some p
  | None => None
  end.
Proof.
  unfold delete_property.
  destruct (decide (n' = n)) as [->|Hne].
  - rewrite bool_decide_eq_true_2 by done. simpl.
    destruct (own c !! n) as [p|] eqn:Hp; [|by rewrite Hp].
    destruct (p_configurable p); simpl; [apply lookup_delete_eq|by rewrite Hp].
  - rewrite bool_decide_eq_false_2 by done. simpl.
    destruct (own c !! n) as [p|] eqn:Hp; [|by destruct (own c !! n')].
    destruct (p_configurable p); simpl.
    + rewrite lookup_delete_ne by done. by destruct (own c !! n').
    + by destruct (own c !! n').
Qed.

Lemma re_delete_property_frame n c :
  extensible (delete_property n c) = extensible c /\
  inherited (delete_property n c) = inherited c.
Proof. unfold delete_property. by repeat case_match. Qed.

Lemma re_restore_loop_lookup l c n :
  own (restore_loop l c) !! n =
  match own c !! n with
  | Some p => if bool_decide (n ∈ l) && p_configurable p then None else Some p
  | None => None
  end.
Proof.
  revert c. induction l as [|n0 l IH]; intros c; simpl.
  - by destruct (own c !! n).
  - rewrite IH, re_delete_property_lookup.
    destruct (own c !! n) as [p|]; [|done].
    destruct (decide (n = n0)) as [->|Hne].
    + rewrite bool_decide_eq_true_2 by done.
      rewrite (bool_decide_eq_true_2 (n0 ∈ n0 :: l)) by (by left).
      destruct (p_configurable p) eqn:Hc; simpl; [done|].
      by rewrite Hc, andb_false_r.
    + rewrite bool_decide_eq_false_2 by done. simpl.
      replace (bool_decide (n ∈ n0 :: l)) with (bool_decide (n ∈ l)); [done|].
      apply bool_decide_ext. rewrite elem_of_cons. tauto.
Qed.

Lemma re_restore_loop_frame l c :
  extensible (restore_loop l c) = extensible c /\
  inherited (restore_loop l c) = inherited c.
Proof.
  revert c. induction l as [|n0 l IH]; intros c; simpl; [done|].
  destruct (IH (delete_property n0 c)) as [-> ->].
  apply re_delete_property_frame.
Qed.

Lemma re_adopt_lookup o n : own (adopt o) !! n = to_property <$> fields o !! n.
Proof. unfold adopt. simpl. apply lookup_fmap. Qed.

(** ** What every operation keeps *)

Section Kept.

Context {K : Type} (name_of : K -> string).

Lemma re_names_kept_refl (h : list K) : names_kept name_of h h.
Proof. intros k cl Hk. eauto. Qed.

Lemma re_names_kept_trans (h1 h2 h3 : list K) :
  names_kept name_of h1 h2 -> names_kept name_of h2 h3 -> names_kept name_of h1 h3.
Proof.
  intros H12 H23 k cl Hk. destruct (H12 k cl Hk) as (cl2 & Hk2 & Hn2).
  destruct (H23 k cl2 Hk2) as (cl3 & Hk3 & Hn3). exists cl3. split; [done|congruence].
Qed.

Lemma re_names_kept_alter (g : K -> K) k (h : list K) :
  (forall x, name_of (g x) = name_of x) -> names_kept name_of h (alter g k h).
Proof.
  intros Hg k' cl Hk'. rewrite list_lookup_alter.
  destruct (decide (k = k')) as [->|Hne].
  - rewrite Hk'. simpl. eexists. split; [done|]. apply Hg.
  - eauto.
Qed.

Lemma re_names_kept_app (h h' : list K) : names_kept name_of h (h ++ h').
Proof. intros k cl Hk. exists cl. split; [by apply lookup_app_l_Some|done]. Qed.

Lemma evolves_refl (s : state K) : evolves name_of s s.
Proof.
  split_and!; try done; [apply re_names_kept_refl|by exists []].
Qed.

Lemma evolves_trans (s1 s2 s3 : state K) :
  evolves name_of s1 s2 -> evolves name_of s2 s3 -> evolves name_of s1 s3.
Proof.
  intros (Hn1 & Hi1 & Hx1 & [l1 Hl1] & Hf1 & Ha1) (Hn2 & Hi2 & Hx2 & [l2 Hl2] & Hf2 & Ha2).
  split_and!.
  - by eapply re_names_kept_trans.
  - congruence.
  - congruence.
  - exists (l2 ++ l1). by rewrite Hl2, Hl1, app_assoc.
  - eauto.
  - eauto.
Qed.

(** A step that leaves the context as it is, keeps the registry or extends
    it, and keeps the names of the closures. *)
Lemma evolves_inside (s s' : state K) :
  ctx s' = ctx s ->
  (forall n, n ∈ cache s -> n ∈ cache s') ->
  names_kept name_of (heap s) (heap s') ->
  (exists l, calls s' = l ++ calls s) ->
  evolves name_of s s'.
Proof.
  intros Hc Hca Hh Hl. split_and!; try done; try (by rewrite Hc).
  intros Hs n k e c. rewrite Hc. intros Hn.
  destruct (Hs n k e c Hn) as (-> & Hin & cl & Hk & Hname).
  destruct (Hh k cl Hk) as (cl' & Hk' & Hname').
  split_and!; [done|by apply Hca|]. exists cl'. split; [done|congruence].
Qed.

(** A data property written at [n]. *)
Lemma evolves_write (s : state K) n d :
  evolves name_of s (with_ctx s (with_own (ctx s) (<[n := Data d]> (own (ctx s))))).
Proof.
  split_and!; simpl; try done.
  - apply re_names_kept_refl.
  - by exists [].
  - intros n' e c. destruct (decide (n' = n)) as [->|Hne].
    + by rewrite lookup_insert_eq.
    + by rewrite lookup_insert_ne.
  - intros Hs n' k e c. simpl. destruct (decide (n' = n)) as [->|Hne].
    + by rewrite lookup_insert_eq.
    + rewrite lookup_insert_ne by done. apply Hs.
Qed.

Lemma evolves_delete (s : state K) n :
  evolves name_of s (with_ctx s (delete_property n (ctx s))).
Proof.
  destruct (re_delete_property_frame n (ctx s)) as [Hx Hi].
  split_and!; simpl; try done.
  - apply re_names_kept_refl.
  - by exists [].
  - intros n' e c. rewrite re_delete_property_lookup.
    destruct (own (ctx s) !! n') as [p|]; [|done].
    by destruct (bool_decide _ && _).
  - intros Hs n' k e c. simpl. rewrite re_delete_property_lookup.
    destruct (own (ctx s) !! n') as [p|] eqn:Hn'; [|done].
    destruct (bool_decide _ && _); [done|]. intros [= ->]. exact (Hs n' k e c Hn').
Qed.

(** With every accessor of the engine configurable and registered,
    [restore] leaves none behind. *)
Lemma re_restore_no_accessor (s : state K) n k e c :
  attached_ok name_of s -> own (ctx (restore s).2) !! n ≠ Some (Accessor k e c).
Proof.
  intros Hs. simpl. rewrite re_restore_loop_lookup.
  destruct (own (ctx s) !! n) as [[d|k' e' c'|e' c']|] eqn:Hn; [| | |done].
  - by destruct (bool_decide _ && _).
  - destruct (Hs n k' e' c' Hn) as (-> & Hin & _).
    by rewrite bool_decide_eq_true_2.
  - by destruct (bool_decide _ && _).
Qed.

Lemma evolves_restore (s : state K) : evolves name_of s (restore s).2.
Proof.
  destruct (re_restore_loop_frame (cache s) (ctx s)) as [Hx Hi].
  split_and!; simpl; try done.
  - apply re_names_kept_refl.
  - by exists [].
  - intros n e c. rewrite re_restore_loop_lookup.
    destruct (own (ctx s) !! n) as [p|]; [|done].
    by destruct (bool_decide _ && _).
  - intros Hs n k e c Hn. by destruct (re_restore_no_accessor s n k e c Hs).
Qed.

Lemma evolves_logged (s : state K) f : evolves name_of s (logged f s).
Proof.
  apply evolves_inside; try done; [apply re_names_kept_refl|by exists [f]].
Qed.

(** The call of [Object.defineProperty] in the declaration function. *)
Lemma evolves_define (s s' : state K) en n cl :
  cache s' = n :: cache s ->
  heap s' = heap s ++ [cl] -> name_of cl = n ->
  calls s' = calls s ->
  ctx s' = match define_accessor (length (heap s)) en (ctx s) n with
           | Normal c' => c'
           | Throw _ => ctx s
           end ->
  evolves name_of s s'.
Proof.
  intros Hca Hh Hname Hcl Hctx.
  assert (forall n', n' ≠ n -> own (ctx s') !! n' = own (ctx s) !! n') as Hfr.
  { intros n' Hn'. rewrite Hctx.
    destruct (define_accessor _ en (ctx s) n) as [c'|e'] eqn:Hdef; [|done].
    apply re_define_accessor_normal in Hdef as (_ & Hfr & _). by apply Hfr. }
  split_and!.
  - rewrite Hh. apply re_names_kept_app.
  - rewrite Hctx. destruct (define_accessor _ en (ctx s) n) as [c'|e'] eqn:Hdef; [|done].
    by apply re_define_accessor_normal in Hdef as (_ & _ & _ & ?).
  - rewrite Hctx. destruct (define_accessor _ en (ctx s) n) as [c'|e'] eqn:Hdef; [|done].
    by apply re_define_accessor_normal in Hdef as (_ & _ & ? & _).
  - exists []. by rewrite Hcl.
  - intros n' e c. destruct (decide (n' = n)) as [->|Hne]; [|by rewrite Hfr].
    rewrite Hctx. destruct (define_accessor _ en (ctx s) n) as [c'|e'] eqn:Hdef; [|done].
    apply re_define_accessor_normal in Hdef as ([e0 He] & _). by rewrite He.
  - intros Hs n' k e c. rewrite Hca, Hh.
    assert (forall k0 e0 c0, own (ctx s) !! n' = Some (Accessor k0 e0 c0) ->
              c0 = true /\ n' ∈ n :: cache s /\
              exists cl0, (heap s ++ [cl]) !! k0 = Some cl0 /\ name_of cl0 = n') as Hold.
    { intros k0 e0 c0 Hn'. destruct (Hs n' k0 e0 c0 Hn') as (-> & Hin & cl0 & Hk0 & Hn0).
      split_and!; [done|by apply elem_of_cons; right|].
      exists cl0. split; [by apply lookup_app_l_Some|done]. }
    destruct (decide (n' = n)) as [->|Hne]; [|rewrite Hfr by done; apply Hold].
    rewrite Hctx. destruct (define_accessor _ en (ctx s) n) as [c'|e'] eqn:Hdef;
      [|apply Hold].
    apply re_define_accessor_normal in Hdef as ([e0 He] & _).
    rewrite He. intros [= <- _ <-]. split_and!; [done|by apply elem_of_cons; left|].
    exists cl. split; [|done]. by rewrite lookup_app_r, Nat.sub_diag.
Qed.

(** *** Reads, writes and calls built on a version's three functions *)

Variable declare : string -> list value -> state K -> completion value * state K.
Variable setter : nat -> value -> state K -> state K.
Variable getter : nat -> state K -> option (completion value * state K).

Hypothesis declare_evolves : forall n args s, evolves name_of s (declare n args s).2.
Hypothesis setter_evolves : forall k v s, evolves name_of s (setter k v s).
Hypothesis getter_evolves :
  forall k s r s', getter k s = Some (r, s') -> evolves name_of s s'.

Lemma Put_evolves n v s s' : Put setter n v s = Some s' -> evolves name_of s s'.
Proof.
  unfold Put. intros H.
  repeat case_match; simplify_eq;
    try apply evolves_refl; try apply evolves_write; try apply setter_evolves.
Qed.

Lemma Get_evolves n s r s' : Get getter n s = Some (r, s') -> evolves name_of s s'.
Proof.
  unfold Get. intros H.
  repeat case_match; simplify_eq; try apply evolves_refl. by eapply getter_evolves.
Qed.

Lemma step_evolves o s r s' :
  step declare setter getter o s = Some (r, s') -> evolves name_of s s'.
Proof.
  destruct o as [n args|n|n v|n|]; simpl; intros H.
  - pose proof (declare_evolves n args s) as He.
    assert (declare n args s = (r, s')) as Hr by congruence. by rewrite Hr in He.
  - by eapply Get_evolves.
  - destruct (Put setter n v s) as [s1|] eqn:HP; simplify_eq. by eapply Put_evolves.
  - simplify_eq. apply evolves_delete.
  - pose proof (evolves_restore s) as He.
    assert (restore s = (r, s')) as Hr by congruence. by rewrite Hr in He.
Qed.

Lemma exec_evolves p : forall s r s',
  exec declare setter getter p s = Some (r, s') -> evolves name_of s s'.
Proof.
  induction p as [r0|o k IH]; intros s r s'; simpl; intros H.
  - simplify_eq. apply evolves_refl.
  - destruct (step declare setter getter o s) as [[r1 s1]|] eqn:Hs; [|done].
    eapply evolves_trans; [by eapply step_evolves|by eapply IH].
Qed.

Lemma call_evolves w v s r s' :
  call declare setter getter w v s = Some (r, s') -> evolves name_of s s'.
Proof.
  destruct v; simpl; intros H; try (simplify_eq; apply evolves_refl).
  - eapply evolves_trans; [apply evolves_logged|by eapply exec_evolves].
  - pose proof (declare_evolves "undefined" [] s) as He.
    assert (declare "undefined" [] s = (r, s')) as Hr by congruence.
    by rewrite Hr in He.
  - pose proof (evolves_restore s) as He.
    assert (restore s = (r, s')) as Hr by congruence. by rewrite Hr in He.
Qed.

Lemma steps_evolves ops : forall s rs s',
  steps declare setter getter ops s = Some (rs, s') -> evolves name_of s s'.
Proof.
  induction ops as [|o ops IH]; intros s rs s'; simpl; intros H.
  - simplify_eq. apply evolves_refl.
  - destruct (step declare setter getter o s) as [[r1 s1]|] eqn:Hs; [|done].
    destruct (steps declare setter getter ops s1) as [[rs2 s2]|] eqn:Hr; [|done].
    simplify_eq.
    eapply evolves_trans; [by eapply step_evolves|by eapply IH].
Qed.

End Kept.

(** *** src/lazy.js *)

Lemma flag_declare_evolves n args s : evolves Flag.name s (Flag.declare n args s).2.
Proof.
  eapply (evolves_define Flag.name s _ None n
            {| Flag.name := n; Flag.subject := subject_of args;
               Flag.isMemoized := false |}).
  - unfold Flag.declare. simpl. by destruct (define_accessor _ _ _ _).
  - unfold Flag.declare. simpl. by destruct (define_accessor _ _ _ _).
  - done.
  - unfold Flag.declare. simpl. by destruct (define_accessor _ _ _ _).
  - unfold Flag.declare. simpl. by destruct (define_accessor _ _ _ _).
Qed.

Lemma flag_setter_evolves k v s : evolves Flag.name s (Flag.setter k v s).
Proof.
  apply evolves_inside; try done; [by apply re_names_kept_alter|by exists []].
Qed.

Lemma flag_memoize_evolves k s : evolves Flag.name s (Flag.memoize k s).
Proof.
  apply evolves_inside; try done; [by apply re_names_kept_alter|by exists []].
Qed.

Lemma flag_store_evolves k r s : evolves Flag.name s (Flag.store k r s).
Proof.
  apply evolves_inside; try done; [by apply re_names_kept_alter|by exists []].
Qed.

Lemma flag_getter_evolves w d : forall k s r s',
  Flag.getter w d k s = Some (r, s') -> evolves Flag.name s s'.
Proof.
  induction d as [|d IH]; intros k s r s'; rewrite flag_getter_unfold;
    intros H.
  - destruct (heap s !! k) as [cl|]; [|simplify_eq; apply evolves_refl].
    destruct (Flag.isMemoized cl); [simplify_eq; apply evolves_refl|].
    destruct (plain_function w _); [done|].
    simplify_eq. apply flag_memoize_evolves.
  - destruct (heap s !! k) as [cl|]; [|simplify_eq; apply evolves_refl].
    destruct (Flag.isMemoized cl); [simplify_eq; apply evolves_refl|].
    destruct (plain_function w _); [|simplify_eq; apply flag_memoize_evolves].
    destruct (Flag.call w d _ _) as [[[r1|e1] s2]|] eqn:Hc; simplify_eq.
    + eapply evolves_trans; [apply flag_memoize_evolves|].
      eapply evolves_trans; [|apply flag_store_evolves].
      eapply call_evolves; [apply flag_declare_evolves|apply flag_setter_evolves| |exact Hc].
      apply IH.
    + eapply evolves_trans; [apply flag_memoize_evolves|].
      eapply call_evolves; [apply flag_declare_evolves|apply flag_setter_evolves| |exact Hc].
      apply IH.
Qed.

Lemma flag_step_evolves w d o s r s' :
  Flag.step w d o s = Some (r, s') -> evolves Flag.name s s'.
Proof.
  apply step_evolves;
    [apply flag_declare_evolves|apply flag_setter_evolves|apply flag_getter_evolves].
Qed.

Lemma flag_call_evolves w d v s r s' :
  Flag.call w d v s = Some (r, s') -> evolves Flag.name s s'.
Proof.
  apply call_evolves;
    [apply flag_declare_evolves|apply flag_setter_evolves|apply flag_getter_evolves].
Qed.

Lemma flag_run_evolves w d ops s rs s' :
  Flag.run w d ops s = Some (rs, s') -> evolves Flag.name s s'.
Proof.
  apply steps_evolves;
    [apply flag_declare_evolves|apply flag_setter_evolves|apply flag_getter_evolves].
Qed.

(** *** src/unnamed/part_000 *)

Lemma rewrite_declare_evolves n args s :
  evolves Rewrite.name s (Rewrite.declare n args s).2.
Proof.
  eapply (evolves_define Rewrite.name s _ (Some true) n
            {| Rewrite.name := n; Rewrite.subject := subject_of args |}).
  - unfold Rewrite.declare. simpl. by destruct (define_accessor _ _ _ _).
  - unfold Rewrite.declare. simpl. by destruct (define_accessor _ _ _ _).
  - done.
  - unfold Rewrite.declare. simpl. by destruct (define_accessor _ _ _ _).
  - unfold Rewrite.declare. simpl. by destruct (define_accessor _ _ _ _).
Qed.

Lemma rewrite_setter_evolves k v s : evolves Rewrite.name s (Rewrite.setter k v s).
Proof.
  apply evolves_inside; try done; [by apply re_names_kept_alter|by exists []].
Qed.

Lemma rewrite_assign_evolves n v s s' :
  Rewrite.assign n v s = Some s' -> evolves Rewrite.name s s'.
Proof. apply Put_evolves, rewrite_setter_evolves. Qed.

Lemma rewrite_getter_evolves w d : forall k s r s',
  Rewrite.getter w d k s = Some (r, s') -> evolves Rewrite.name s s'.
Proof.
  induction d as [|d IH]; intros k s r s'; rewrite rewrite_getter_unfold;
    intros H.
  - destruct (heap s !! k) as [cl|]; [|simplify_eq; apply evolves_refl].
    destruct (plain_function w _); [done|].
    destruct (Rewrite.assign _ _ _) as [s1|] eqn:Ha; simplify_eq.
    by eapply rewrite_assign_evolves.
  - destruct (heap s !! k) as [cl|]; [|simplify_eq; apply evolves_refl].
    destruct (plain_function w _).
    + destruct (Rewrite.call w d _ _) as [[[r1|e1] s2]|] eqn:Hc; simplify_eq.
      * destruct (Rewrite.assign _ _ _) as [s3|] eqn:Ha; simplify_eq.
        eapply evolves_trans; [|by eapply rewrite_assign_evolves].
        eapply call_evolves;
          [apply rewrite_declare_evolves|apply rewrite_setter_evolves| |exact Hc].
        apply IH.
      * eapply call_evolves;
          [apply rewrite_declare_evolves|apply rewrite_setter_evolves| |exact Hc].
        apply IH.
    + destruct (Rewrite.assign _ _ _) as [s1|] eqn:Ha; simplify_eq.
      by eapply rewrite_assign_evolves.
Qed.

Lemma rewrite_step_evolves w d o s r s' :
  Rewrite.step w d o s = Some (r, s') -> evolves Rewrite.name s s'.
Proof.
  apply step_evolves;
    [apply rewrite_declare_evolves|apply rewrite_setter_evolves
    |apply rewrite_getter_evolves].
Qed.

Lemma rewrite_call_evolves w d v s r s' :
  Rewrite.call w d v s = Some (r, s') -> evolves Rewrite.name s s'.
Proof.
  apply call_evolves;
    [apply rewrite_declare_evolves|apply rewrite_setter_evolves
    |apply rewrite_getter_evolves].
Qed.

Lemma rewrite_run_evolves w d ops s rs s' :
  Rewrite.run w d ops s = Some (rs, s') -> evolves Rewrite.name s s'.
Proof.
  apply steps_evolves;
    [apply rewrite_declare_evolves|apply rewrite_setter_evolves
    |apply rewrite_getter_evolves].
Qed.

(** ** Attaching *)

Lemma re_flag_lazy_fresh : Flag.lazy spy_world (Some plain_object) None = Some (Normal flag_fresh).
Proof. reflexivity. Qed.

Lemma re_rewrite_lazy_fresh : Rewrite.lazy spy_world None None = Normal rewrite_fresh.
Proof. reflexivity. Qed.

(** [lazy] of src/unnamed/part_000 goes through exactly when the property
    can be defined, and then only the property at [m] is new. *)
Lemma re_rewrite_lazy_normal w c method :
  let m := or_default method "set" in
  let o := default (empty_object w) c in
  can_define o m = true ->
  exists s, Rewrite.lazy w c method = Normal s /\
    installed s m /\
    (forall n, n ≠ m -> own (ctx s) !! n = to_property <$> fields o !! n) /\
    extensible (ctx s) = o_extensible o /\
    inherited (ctx s) = o_inherited o /\
    cache s = [] /\ heap s = [] /\ calls s = [].
Proof.
  intros m o Hcan. unfold Rewrite.lazy, define_value, can_define in *.
  fold m o. rewrite re_adopt_lookup.
  destruct (fields o !! m) as [[d|e c']|] eqn:Hm; simpl in *; rewrite Hcan;
    eexists; (split; [done|]); simpl;
    (split; [eexists; split; [apply lookup_insert_eq|done]|]);
    (split; [|done]); intros n Hn;
    by rewrite lookup_insert_ne, lookup_fmap.
Qed.

Lemma re_rewrite_lazy_throw w c method :
  let m := or_default method "set" in
  let o := default (empty_object w) c in
  can_define o m = false ->
  Rewrite.lazy w c method = Throw TypeError.
Proof.
  intros m o Hcan. unfold Rewrite.lazy, define_value, can_define in *.
  fold m o. rewrite re_adopt_lookup.
  by destruct (fields o !! m) as [[d|e c']|] eqn:Hm; simpl in *; rewrite Hcan.
Qed.

(** [lazy] of src/lazy.js: the assignment takes effect, ... *)
Lemma re_flag_lazy_normal w o method :
  let m := or_default method "lazy" in
  can_put o m = true ->
  exists s, Flag.lazy w (Some o) method = Some (Normal s) /\
    installed s m /\
    (forall n, n ≠ m -> own (ctx s) !! n = to_property <$> fields o !! n) /\
    extensible (ctx s) = o_extensible o /\
    inherited (ctx s) = o_inherited o /\
    cache s = [] /\ heap s = [] /\ calls s = [].
Proof.
  intros m Hcan.
  unfold Flag.lazy, Flag.assign, Flag.read, Put, Get, can_put in *.
  fold m. simpl. rewrite lookup_fmap.
  destruct (fields o !! m) as [[d|e c']|] eqn:Hm; simpl in *; [|done|].
  - rewrite Hcan. simpl. rewrite lookup_insert_eq. simpl.
    eexists. split; [done|]. simpl.
    split; [eexists; split; [apply lookup_insert_eq|done]|].
    split; [|done]. intros n Hn. by rewrite lookup_insert_ne, lookup_fmap.
  - apply andb_true_iff in Hcan as [Hx Hw]. rewrite Hx.
    destruct (o_inherited o !! m) as [[v []|]|] eqn:Hi; try done;
      simpl; rewrite lookup_insert_eq; simpl;
      (eexists; split; [done|]); simpl;
      (split; [eexists; split; [apply lookup_insert_eq|done]|]);
      (split; [|done]); intros n Hn; by rewrite lookup_insert_ne, lookup_fmap.
Qed.

(** ... or it is dropped, and the name reads what it read before. *)
Lemma re_flag_lazy_ignored w o method :
  let m := or_default method "lazy" in
  meets_accessor o m = false ->
  can_put o m = false ->
  Flag.lazy w (Some o) method =
    Some (match keep_restore w (lookup o m) with
          | Some e => Throw e
          | None => Normal (Flag.init (adopt o))
          end).
Proof.
  intros m Hacc Hcan.
  unfold Flag.lazy, Flag.assign, Flag.read, Put, Get, can_put,
    meets_accessor, lookup in *.
  fold m. simpl. rewrite lookup_fmap.
  destruct (fields o !! m) as [[d|e c']|] eqn:Hm; simpl in *; [|done|].
  - rewrite Hcan. simpl. rewrite lookup_fmap, Hm. simpl.
    by destruct (keep_restore w (value_of d)).
  - destruct (o_inherited o !! m) as [[v [|]|]|] eqn:Hi; try done; simpl.
    + rewrite andb_true_r in Hcan. rewrite Hcan. simpl.
      rewrite lookup_fmap, Hm. simpl. rewrite Hi. by destruct (keep_restore w v).
    + rewrite lookup_fmap, Hm. simpl. rewrite Hi. by destruct (keep_restore w v).
    + rewrite andb_true_r in Hcan. rewrite Hcan. simpl.
      rewrite lookup_fmap, Hm. simpl. by rewrite Hi.
Qed.

(** An accessor at the name is where the model stops. *)
Lemma re_flag_lazy_beyond w o method :
  let m := or_default method "lazy" in
  meets_accessor o m = true -> Flag.lazy w (Some o) method = None.
Proof.
  intros m Hacc.
  unfold Flag.lazy, Flag.assign, Flag.read, Put, Get, meets_accessor in *.
  fold m. simpl. rewrite lookup_fmap.
  destruct (fields o !! m) as [[d|e c']|] eqn:Hm; simpl in *; try done.
  by destruct (o_inherited o !! m) as [[v [|]|]|] eqn:Hi.
Qed.

(** C9, as amended.  The context is an ordinary object.  In
    src/unnamed/part_000, [lazy(context, method)] installs the declaration
    function as the value of an own data property [context[method]],
    leaves every other property as it was and returns the context with an
    empty registry, when the context has no own property at that name and
    is extensible, or has one that is configurable, or a data property
    that is writable; otherwise it throws a [TypeError].  In src/lazy.js,
    when the name is no accessor on the context or on its prototype chain,
    [lazy] does the same when the assignment takes effect: the context has
    a writable data property there, or it has no own property there, is
    extensible and does not inherit a read-only property at that name.
    Otherwise the assignment is dropped and the context stays as it was;
    [lazy] then throws a [TypeError] if the name, own or inherited, reads
    [undefined] or [null]; if it reads anything else, [lazy] stores
    [restore] on that value and, unless that throws, returns the context
    with no declaration function installed.  Without a context,
    src/lazy.js throws a [TypeError]. *)
Theorem attach_installs_when_possible :
  (forall w c method,
     let m := or_default method "set" in
     let o := default (empty_object w) c in
     if can_define o m
     then exists s, Rewrite.lazy w c method = Normal s /\
            installed s m /\
            (forall n, n ≠ m -> own (ctx s) !! n = to_property <$> fields o !! n) /\
            extensible (ctx s) = o_extensible o /\
            inherited (ctx s) = o_inherited o /\ cache s = []
     else Rewrite.lazy w c method = Throw TypeError) /\
  (forall w o method,
     let m := or_default method "lazy" in
     meets_accessor o m = false ->
     if can_put o m
     then exists s, Flag.lazy w (Some o) method = Some (Normal s) /\
            installed s m /\
            (forall n, n ≠ m -> own (ctx s) !! n = to_property <$> fields o !! n) /\
            extensible (ctx s) = o_extensible o /\
            inherited (ctx s) = o_inherited o /\ cache s = []
     else Flag.lazy w (Some o) method =
            Some (match keep_restore w (lookup o m) with
                  | Some e => Throw e
                  | None => Normal (Flag.init (adopt o))
                  end)) /\
  (forall w method, Flag.lazy w None method = Some (Throw TypeError)).
Proof.
  split_and!.
  - intros w c method m o. destruct (can_define o m) eqn:Hcan.
    + destruct (re_rewrite_lazy_normal w c method Hcan)
        as (s & ? & ? & ? & ? & ? & ? & _).
      by exists s.
    + by apply re_rewrite_lazy_throw.
  - intros w o method m Hacc. destruct (can_put o m) eqn:Hcan.
    + destruct (re_flag_lazy_normal w o method Hcan)
        as (s & ? & ? & ? & ? & ? & ? & _).
      by exists s.
    + by apply re_flag_lazy_ignored.
  - done.
Qed.

(** C9 as stated fails.  A frozen empty object makes both versions throw.
    A property at the name that is neither writable nor configurable makes
    src/unnamed/part_000 throw, and is left in place, not overwritten, by
    src/lazy.js.  And on a frozen object, under a name the object
    inherits, src/lazy.js returns the context as it was: nothing is
    installed and nothing is thrown. *)
Lemma attach_can_throw :
  Rewrite.lazy spy_world (Some frozen_object) None = Throw TypeError /\
  Flag.lazy spy_world (Some frozen_object) None = Some (Throw TypeError) /\
  Rewrite.lazy spy_world (Some (fixed_object "set" (VNum 0))) (Some "set")
    = Throw TypeError /\
  Flag.lazy spy_world (Some (fixed_object "lazy" (VNum 0))) (Some "lazy")
    = Some (Normal (Flag.init (adopt (fixed_object "lazy" (VNum 0))))) /\
  Flag.lazy spy_world (Some frozen_object) (Some "toString")
    = Some (Normal (Flag.init (adopt frozen_object))) /\
  own (adopt frozen_object) !! "toString" = None.
Proof. split_and!; reflexivity. Qed.

(** ** The states a caller can reach *)

Lemma re_no_accessor_attached {K} (name_of : K -> string) (s : state K) :
  (forall n k e c, own (ctx s) !! n ≠ Some (Accessor k e c)) ->
  attached_ok name_of s.
Proof. intros Hs n k e c Hn. by destruct (Hs n k e c). Qed.

Lemma re_adopt_no_accessor o n k e c : own (adopt o) !! n ≠ Some (Accessor k e c).
Proof. rewrite re_adopt_lookup. by destruct (fields o !! n) as [[]|]. Qed.

Lemma re_flag_lazy_start w o m s :
  Flag.lazy w (Some o) m = Some (Normal s) ->
  attached_ok Flag.name s /\ cache s = [] /\ heap s = [] /\ calls s = [] /\
  inherited (ctx s) = o_inherited o /\ extensible (ctx s) = o_extensible o /\
  forall n, n ≠ or_default m "lazy" ->
    own (ctx s) !! n = to_property <$> fields o !! n.
Proof.
  intros Hs.
  destruct (meets_accessor o (or_default m "lazy")) eqn:Hacc.
  { by rewrite (re_flag_lazy_beyond w o m Hacc) in Hs. }
  destruct (can_put o (or_default m "lazy")) eqn:Hcan.
  - destruct (re_flag_lazy_normal w o m Hcan)
      as (s' & Hs' & (d & Hd & _) & Hfr & ? & ? & ? & ? & ?).
    assert (s' = s) as -> by congruence. split_and!; try done.
    apply re_no_accessor_attached. intros n k e c.
    destruct (decide (n = or_default m "lazy")) as [->|Hne]; [by rewrite Hd|].
    rewrite Hfr by done. by destruct (fields o !! n) as [[]|].
  - rewrite (re_flag_lazy_ignored w o m Hacc Hcan) in Hs.
    destruct (keep_restore w _); simplify_eq. split_and!; try done.
    + apply re_no_accessor_attached. intros n k e c. apply re_adopt_no_accessor.
    + intros n _. apply re_adopt_lookup.
Qed.

Lemma re_rewrite_lazy_start w c m s :
  Rewrite.lazy w c m = Normal s ->
  attached_ok Rewrite.name s /\ cache s = [] /\ heap s = [] /\ calls s = [] /\
  inherited (ctx s) = o_inherited (default (empty_object w) c) /\
  extensible (ctx s) = o_extensible (default (empty_object w) c) /\
  installed s (or_default m "set") /\
  forall n, n ≠ or_default m "set" ->
    own (ctx s) !! n = to_property <$> fields (default (empty_object w) c) !! n.
Proof.
  intros Hs.
  destruct (can_define (default (empty_object w) c) (or_default m "set")) eqn:Hcan.
  - destruct (re_rewrite_lazy_normal w c m Hcan)
      as (s' & Hs' & Hinst & Hfr & ? & ? & ? & ? & ?).
    assert (s' = s) as -> by congruence. split_and!; try done.
    apply re_no_accessor_attached. intros n k e c'.
    destruct (decide (n = or_default m "set")) as [->|Hne].
    + destruct Hinst as (d & Hd & _). by rewrite Hd.
    + rewrite Hfr by done. by destruct (fields _ !! n) as [[]|].
  - by rewrite (re_rewrite_lazy_throw w c m Hcan) in Hs.
Qed.

(** In every state a caller reaches, whatever its functions do to the
    context while they run, every declared property is configurable,
    registered, and the accessor of a closure created for its name. *)
Lemma re_flag_run_attached w o m d ops s0 rs s :
  Flag.lazy w (Some o) m = Some (Normal s0) ->
  Flag.run w d ops s0 = Some (rs, s) ->
  attached_ok Flag.name s /\ inherited (ctx s) = o_inherited o /\
  extensible (ctx s) = o_extensible o.
Proof.
  intros Hs0 Hrun.
  destruct (re_flag_lazy_start w o m s0 Hs0) as (Hatt & _ & _ & _ & Hi & Hx & _).
  destruct (flag_run_evolves w d ops s0 rs s Hrun) as (_ & Hi' & Hx' & _ & _ & Hatt').
  split_and!; [by apply Hatt'|congruence|congruence].
Qed.

Lemma re_rewrite_run_attached w c m d ops s0 rs s :
  Rewrite.lazy w c m = Normal s0 ->
  Rewrite.run w d ops s0 = Some (rs, s) ->
  attached_ok Rewrite.name s /\
  inherited (ctx s) = o_inherited (default (empty_object w) c) /\
  extensible (ctx s) = o_extensible (default (empty_object w) c).
Proof.
  intros Hs0 Hrun.
  destruct (re_rewrite_lazy_start w c m s0 Hs0) as (Hatt & _ & _ & _ & Hi & Hx & _).
  destruct (rewrite_run_evolves w d ops s0 rs s Hrun) as (_ & Hi' & Hx' & _ & _ & Hatt').
  split_and!; [by apply Hatt'|congruence|congruence].
Qed.

(** ** Reading a declared property *)

Lemma re_plain_function_fun w f : getCall w f = false -> plain_function w (VFun f) = true.
Proof. intros Hf. unfold plain_function. simpl. by rewrite Hf. Qed.

Lemma re_flag_read_accessor w d n k e c s :
  own (ctx s) !! n = Some (Accessor k e c) -> Flag.read w d n s = Flag.getter w d k s.
Proof. unfold Flag.read, Get. by intros ->. Qed.

Lemma re_rewrite_read_accessor w d n k e c s :
  own (ctx s) !! n = Some (Accessor k e c) ->
  Rewrite.read w d n s = Rewrite.getter w d k s.
Proof. unfold Rewrite.read, Get. by intros ->. Qed.

Lemma re_flag_assign_accessor n k e c v s :
  own (ctx s) !! n = Some (Accessor k e c) ->
  Flag.assign n v s = Some (Flag.setter k v s).
Proof. unfold Flag.assign, Put. by intros ->. Qed.

Lemma re_rewrite_assign_accessor n k e c v s :
  own (ctx s) !! n = Some (Accessor k e c) ->
  Rewrite.assign n v s = Some (Rewrite.setter k v s).
Proof. unfold Rewrite.assign, Put. by intros ->. Qed.

Lemma re_flag_run_cons w d o ops s :
  Flag.run w d (o :: ops) s =
  match Flag.step w d o s with
  | Some (r, s1) =>
      match Flag.run w d ops s1 with
      | Some (rs, s2) => Some (r :: rs, s2)
      | None => None
      end
  | None => None
  end.
Proof. reflexivity. Qed.

Lemma re_rewrite_run_cons w d o ops s :
  Rewrite.run w d (o :: ops) s =
  match Rewrite.step w d o s with
  | Some (r, s1) =>
      match Rewrite.run w d ops s1 with
      | Some (rs, s2) => Some (r :: rs, s2)
      | None => None
      end
  | None => None
  end.
Proof. reflexivity. Qed.

Lemma re_flag_declare_normal n args s s1 :
  Flag.declare n args s = (Normal VUndefined, s1) ->
  (exists e, own (ctx s1) !! n = Some (Accessor (length (heap s)) e true)) /\
  heap s1 = heap s ++ [{| Flag.name := n; Flag.subject := subject_of args;
                          Flag.isMemoized := false |}] /\
  cache s1 = n :: cache s /\ calls s1 = calls s.
Proof.
  unfold Flag.declare. simpl.
  destruct (define_accessor _ _ _ _) as [c'|e'] eqn:Hdef; intros H; simplify_eq.
  apply re_define_accessor_normal in Hdef as (He & _). by split_and!.
Qed.

Lemma re_rewrite_declare_normal n args s s1 :
  Rewrite.declare n args s = (Normal VUndefined, s1) ->
  (exists e, own (ctx s1) !! n = Some (Accessor (length (heap s)) e true)) /\
  heap s1 = heap s ++ [{| Rewrite.name := n; Rewrite.subject := subject_of args |}] /\
  cache s1 = n :: cache s /\ calls s1 = calls s.
Proof.
  unfold Rewrite.declare. simpl.
  destruct (define_accessor _ _ _ _) as [c'|e'] eqn:Hdef; intros H; simplify_eq.
  apply re_define_accessor_normal in Hdef as (He & _). by split_and!.
Qed.

(** *** src/lazy.js *)

(** A memoized slot answers with its subject, at any depth, and changes
    nothing. *)
Lemma re_flag_reads_memoized w d n k e c v reads s cl :
  own (ctx s) !! n = Some (Accessor k e c) ->
  heap s !! k = Some cl -> Flag.isMemoized cl = true -> Flag.subject cl = v ->
  Flag.run w d (replicate reads (OpRead n)) s = Some (replicate reads (Normal v), s).
Proof.
  intros Hn Hk Hm Hv. induction reads as [|reads IH]; [done|].
  simpl replicate. rewrite re_flag_run_cons.
  change (Flag.step w d (OpRead n) s) with (Flag.read w d n s).
  rewrite (re_flag_read_accessor _ _ _ _ _ _ _ Hn), flag_getter_unfold, Hk, Hm, IH.
  by rewrite Hv.
Qed.

(** A slot whose subject the getter does not call is marked and answers
    with its subject. *)
Lemma re_flag_reads_inert w d n k e c v reads s cl :
  own (ctx s) !! n = Some (Accessor k e c) ->
  heap s !! k = Some cl -> Flag.subject cl = v -> plain_function w v = false ->
  exists s', Flag.run w d (replicate reads (OpRead n)) s
               = Some (replicate reads (Normal v), s') /\
             same_outside s s'.
Proof.
  intros Hn Hk Hv Hp. destruct reads as [|reads]; [by exists s|].
  simpl replicate. rewrite re_flag_run_cons.
  change (Flag.step w d (OpRead n) s) with (Flag.read w d n s).
  rewrite (re_flag_read_accessor _ _ _ _ _ _ _ Hn), flag_getter_unfold, Hk.
  destruct (Flag.isMemoized cl) eqn:Hm.
  - rewrite (re_flag_reads_memoized w d n k e c v reads s cl) by done.
    exists s. by rewrite Hv.
  - rewrite Hv, Hp.
    erewrite (re_flag_reads_memoized w d n k e c v reads (Flag.memoize k s)).
    + by exists (Flag.memoize k s).
    + done.
    + simpl. rewrite list_lookup_alter, Hk. simpl. by rewrite decide_True.
    + done.
    + done.
Qed.

(** The first read of a pending factory: the slot is marked, the factory
    is called, and what it returns is stored in the slot as the call left
    it.  If the call left the slot alone, every later read answers from
    it. *)
Lemma re_flag_pending_read w d n k e c cl f v s s2 reads :
  own (ctx s) !! n = Some (Accessor k e c) ->
  heap s !! k = Some cl -> Flag.isMemoized cl = false -> Flag.subject cl = VFun f ->
  getCall w f = false ->
  Flag.call w d (VFun f) (Flag.memoize k s) = Some (Normal v, s2) ->
  flag_slot_kept k n s2 ->
  Flag.run w (S d) (replicate (S reads) (OpRead n)) s
    = Some (replicate (S reads) (Normal v), Flag.store k v s2).
Proof.
  intros Hn Hk Hm Hs Hf Hcall [(e' & c' & Hn2) (cl2 & Hk2 & Hm2)].
  simpl replicate. rewrite re_flag_run_cons.
  change (Flag.step w (S d) (OpRead n) s) with (Flag.read w (S d) n s).
  rewrite (re_flag_read_accessor _ _ _ _ _ _ _ Hn), flag_getter_unfold, Hk, Hm, Hs.
  rewrite (re_plain_function_fun w f Hf), Hcall.
  erewrite (re_flag_reads_memoized w (S d) n k e' c' v reads (Flag.store k v s2)).
  - done.
  - done.
  - simpl. rewrite list_lookup_alter, Hk2. simpl. by rewrite decide_True.
  - done.
  - done.
Qed.

(** In src/lazy.js, take a factory [f] declared at [n], and suppose that
    its call, made by the first read, returns [v] and has left its own slot
    alone: when it returns, [n] is still the property declared and nothing
    was assigned to it in the meantime.  Whatever else the call did to the
    context (reading other lazy properties, which calls their factories,
    included), every read of [n] yields [v], and the reads after the first
    call nothing and change nothing: the run ends in the state the first
    read left. *)
Theorem flag_factory_called_once (w : world) (d : nat) (f : nat) (n : string)
    (reads : nat) (s s1 s2 : state Flag.closure) (v : value) :
  getCall w f = false ->
  Flag.declare n [VFun f] s = (Normal VUndefined, s1) ->
  Flag.call w d (VFun f) (Flag.memoize (length (heap s)) s1) = Some (Normal v, s2) ->
  flag_slot_kept (length (heap s)) n s2 ->
  Flag.run w (S d) (replicate (S reads) (OpRead n)) s1
    = Some (replicate (S reads) (Normal v), Flag.store (length (heap s)) v s2).
Proof.
  intros Hf Hdecl Hcall Hkept.
  apply re_flag_declare_normal in Hdecl as ([e He] & Hh & _).
  apply (re_flag_pending_read w d n (length (heap s)) e true
           {| Flag.name := n; Flag.subject := VFun f; Flag.isMemoized := false |}
           f v s1 s2 reads); try done.
  rewrite Hh. by rewrite lookup_app_r, Nat.sub_diag.
Qed.

(** *** src/unnamed/part_000 *)

(** A slot whose subject the getter does not call answers with it; the
    write-back goes to the setter of the same slot. *)
Lemma re_rewrite_reads_settled w d n k e c v reads :
  plain_function w v = false ->
  forall s cl,
    own (ctx s) !! n = Some (Accessor k e c) ->
    heap s !! k = Some cl -> Rewrite.subject cl = v -> Rewrite.name cl = n ->
    exists s', Rewrite.run w d (replicate reads (OpRead n)) s
                 = Some (replicate reads (Normal v), s') /\
               same_outside s s'.
Proof.
  intros Hp. induction reads as [|reads IH]; intros s cl Hn Hk Hv Hname.
  { by exists s. }
  simpl replicate. rewrite re_rewrite_run_cons.
  change (Rewrite.step w d (OpRead n) s) with (Rewrite.read w d n s).
  rewrite (re_rewrite_read_accessor _ _ _ _ _ _ _ Hn), rewrite_getter_unfold, Hk.
  rewrite Hv, Hp, Hname, (re_rewrite_assign_accessor _ _ _ _ _ _ Hn).
  assert (heap (Rewrite.setter k v s) !! k = Some cl) as Hk'.
  { simpl. rewrite list_lookup_alter, Hk. simpl. rewrite decide_True by done.
    destruct cl; simpl in *; by subst. }
  destruct (IH (Rewrite.setter k v s) cl Hn Hk' Hv Hname) as (s' & -> & Hs').
  exists s'. split; [done|]. exact Hs'.
Qed.

Lemma re_rewrite_pending_read w d n k e c cl f v s s2 reads :
  own (ctx s) !! n = Some (Accessor k e c) ->
  heap s !! k = Some cl -> Rewrite.name cl = n -> Rewrite.subject cl = VFun f ->
  getCall w f = false ->
  Rewrite.call w d (VFun f) s = Some (Normal v, s2) ->
  rewrite_slot_kept k n s2 ->
  plain_function w v = false ->
  exists s3, Rewrite.run w (S d) (replicate (S reads) (OpRead n)) s
               = Some (replicate (S reads) (Normal v), s3) /\
             same_outside s2 s3.
Proof.
  intros Hn Hk Hname Hs Hf Hcall (e' & c' & Hn2) Hp.
  destruct (rewrite_call_evolves w d _ _ _ _ Hcall) as (Hnames & _).
  destruct (Hnames k cl Hk) as (cl2 & Hk2 & Hname2).
  simpl replicate. rewrite re_rewrite_run_cons.
  change (Rewrite.step w (S d) (OpRead n) s) with (Rewrite.read w (S d) n s).
  rewrite (re_rewrite_read_accessor _ _ _ _ _ _ _ Hn), rewrite_getter_unfold, Hk, Hs.
  rewrite (re_plain_function_fun w f Hf), Hcall, Hname.
  rewrite (re_rewrite_assign_accessor _ _ _ _ _ _ Hn2).
  destruct (re_rewrite_reads_settled w (S d) n k e' c' v reads Hp
              (Rewrite.setter k v s2)
              {| Rewrite.name := Rewrite.name cl2; Rewrite.subject := v |})
    as (s3 & -> & Hs3); try done.
  - simpl. rewrite list_lookup_alter, Hk2. simpl. by rewrite decide_True.
  - simpl. congruence.
  - exists s3. split; [done|]. exact Hs3.
Qed.

(** In src/unnamed/part_000, take a factory [f] declared at [n], and
    suppose that its call, made by the first read, returns [v], that [v] is
    not a function the getter would call in turn, and that [n] is still the
    property declared when the call returns.  Whatever else the call did
    to the context, every read of [n] yields [v], and the reads after the
    first call nothing and leave the context and the registry as the call
    left them. *)
Theorem rewrite_factory_called_once (w : world) (d : nat) (f : nat) (n : string)
    (reads : nat) (s s1 s2 : state Rewrite.closure) (v : value) :
  getCall w f = false ->
  Rewrite.declare n [VFun f] s = (Normal VUndefined, s1) ->
  Rewrite.call w d (VFun f) s1 = Some (Normal v, s2) ->
  rewrite_slot_kept (length (heap s)) n s2 ->
  plain_function w v = false ->
  exists s3, Rewrite.run w (S d) (replicate (S reads) (OpRead n)) s1
               = Some (replicate (S reads) (Normal v), s3) /\
             same_outside s2 s3.
Proof.
  intros Hf Hdecl Hcall Hkept Hp.
  apply re_rewrite_declare_normal in Hdecl as ([e He] & Hh & _).
  apply (re_rewrite_pending_read w d n (length (heap s)) e true
           {| Rewrite.name := n; Rewrite.subject := VFun f |}
           f v s1 s2 reads); try done.
  rewrite Hh. by rewrite lookup_app_r, Nat.sub_diag.
Qed.

(** In src/unnamed/part_000 a factory that throws is not remembered.  The
    read throws what the call threw and ends in the state the call left,
    the slot untouched by the getter; and if the call itself left the slot
    as it was, the next read calls the factory again: it cannot complete
    without a new call of [f], and it throws what that call throws. *)
Theorem rewrite_failed_factory_retried (w : world) (d : nat) (f : nat)
    (n : string) (k : nat) (e c : bool) (cl : Rewrite.closure)
    (s s2 : state Rewrite.closure) (err : thrown) :
  own (ctx s) !! n = Some (Accessor k e c) ->
  heap s !! k = Some cl -> Rewrite.subject cl = VFun f ->
  getCall w f = false ->
  Rewrite.call w d (VFun f) s = Some (Throw err, s2) ->
  Rewrite.read w (S d) n s = Some (Throw err, s2) /\
  (own (ctx s2) !! n = Some (Accessor k e c) -> heap s2 !! k = Some cl ->
   (forall d' r s3, Rewrite.read w d' n s2 = Some (r, s3) ->
      exists l, calls s3 = l ++ f :: calls s2) /\
   (forall d' err' s3, Rewrite.call w d' (VFun f) s2 = Some (Throw err', s3) ->
      Rewrite.read w (S d') n s2 = Some (Throw err', s3))).
Proof.
  intros Hn Hk Hs Hf Hcall. split.
  - rewrite (re_rewrite_read_accessor _ _ _ _ _ _ _ Hn), rewrite_getter_unfold, Hk, Hs.
    by rewrite (re_plain_function_fun w f Hf), Hcall.
  - intros Hn2 Hk2. split.
    + intros d' r s3.
      rewrite (re_rewrite_read_accessor _ _ _ _ _ _ _ Hn2), rewrite_getter_unfold, Hk2, Hs.
      rewrite (re_plain_function_fun w f Hf).
      destruct d' as [|d']; [done|].
      destruct (Rewrite.call w d' (VFun f) s2) as [[[r1|e1] s4]|] eqn:Hc; [| |done].
      * destruct (Rewrite.assign _ _ _) as [s5|] eqn:Ha; intros H; simplify_eq.
        unfold Rewrite.call, call in Hc.
        apply (exec_evolves Rewrite.name) in Hc as (_ & _ & _ & [l1 Hl1] & _);
          [|apply rewrite_declare_evolves|apply rewrite_setter_evolves
           |apply rewrite_getter_evolves].
        apply rewrite_assign_evolves in Ha as (_ & _ & _ & [l2 Hl2] & _).
        exists (l2 ++ l1). rewrite Hl2, Hl1. simpl. by rewrite <- app_assoc.
      * intros H; simplify_eq.
        unfold Rewrite.call, call in Hc.
        apply (exec_evolves Rewrite.name) in Hc as (_ & _ & _ & [l1 Hl1] & _);
          [|apply rewrite_declare_evolves|apply rewrite_setter_evolves
           |apply rewrite_getter_evolves].
        exists l1. by rewrite Hl1.
    + intros d' err' s3 Hc.
      rewrite (re_rewrite_read_accessor _ _ _ _ _ _ _ Hn2), rewrite_getter_unfold, Hk2, Hs.
      by rewrite (re_plain_function_fun w f Hf), Hc.
Qed.

Lemma flag_factory_called_once_witness :
  (λ p, (p.1, calls p.2)) <$>
    Flag.run readme_world 3 (replicate 3 (OpRead "view"))
      (Flag.declare "view" [VFun 2] readme_flag).2
  = Some (replicate 3 (Normal (VObj 2)), [1; 0; 2]).
Proof.
  rewrite (flag_factory_called_once readme_world 2 2 "view" 2 readme_flag
             (Flag.declare "view" [VFun 2] readme_flag).2
             (default (Normal VUndefined, readme_flag)
                (Flag.call readme_world 2 (VFun 2)
                   (Flag.memoize 2 (Flag.declare "view" [VFun 2] readme_flag).2))).2
             (VObj 2)).
  - vm_compute. reflexivity.
  - reflexivity.
  - reflexivity.
  - vm_compute. reflexivity.
  - split; vm_compute; eauto.
Defined.

Lemma rewrite_factory_called_once_witness :
  exists s3,
    Rewrite.run readme_world 3 (replicate 3 (OpRead "view"))
      (Rewrite.declare "view" [VFun 2] readme_rewrite).2
    = Some (replicate 3 (Normal (VObj 2)), s3) /\
    calls s3 = [1; 0; 2].
Proof.
  destruct (rewrite_factory_called_once readme_world 2 2 "view" 2 readme_rewrite
              (Rewrite.declare "view" [VFun 2] readme_rewrite).2
              (default (Normal VUndefined, readme_rewrite)
                 (Rewrite.call readme_world 2 (VFun 2)
                    (Rewrite.declare "view" [VFun 2] readme_rewrite).2)).2
              (VObj 2)) as (s3 & Hrun & _ & _ & Hcalls).
  - reflexivity.
  - reflexivity.
  - vm_compute. reflexivity.
  - vm_compute. eauto.
  - reflexivity.
  - exists s3. split; [exact Hrun|]. rewrite Hcalls. vm_compute. reflexivity.
Defined.

Lemma rewrite_failed_factory_retried_witness :
  Rewrite.read failing_world 1 "k" (Rewrite.declare "k" [VFun 0] rewrite_fresh).2
  = Some (Throw (Raised (VStr "boom")),
          logged 0 (Rewrite.declare "k" [VFun 0] rewrite_fresh).2).
Proof.
  refine (proj1 (rewrite_failed_factory_retried failing_world 0 0 "k" 0 true true
                   {| Rewrite.name := "k"; Rewrite.subject := VFun 0 |}
                   (Rewrite.declare "k" [VFun 0] rewrite_fresh).2
                   (logged 0 (Rewrite.declare "k" [VFun 0] rewrite_fresh).2)
                   (Raised (VStr "boom")) _ _ _ _ _)); reflexivity.
Defined.

(** The condition on the slot is needed.  In src/lazy.js the factory
    [function () { this.k = 1; return g; }] resets the mark through the
    setter, so that the second read calls [g]; in src/unnamed/part_000 the
    factory [function () { this.k = 5; throw 'boom'; }] has replaced the
    subject before it throws, so that the second read yields 5 and the
    factory is not called again. *)
Lemma slot_must_be_kept :
  (λ p, (p.1, calls p.2)) <$>
    Flag.run meddling_world 1 [OpDeclare "k" [VFun 0]; OpRead "k"; OpRead "k"] flag_fresh
  = Some ([Normal VUndefined; Normal (VFun 1); Normal (VNum 7)], [1; 0]) /\
  (λ p, (p.1, calls p.2)) <$>
    Rewrite.run meddling_world 1 [OpDeclare "k" [VFun 3]; OpRead "k"; OpRead "k"]
      rewrite_fresh
  = Some ([Normal VUndefined; Throw (Raised (VStr "boom")); Normal (VNum 5)], [3]).
Proof. split; vm_compute; reflexivity. Qed.

(** ** On every state a caller reaches *)

Lemma re_Put_outside {K} (setter : nat -> value -> state K -> state K) n v s s' :
  (forall k v s, cache (setter k v s) = cache s /\ calls (setter k v s) = calls s) ->
  Put setter n v s = Some s' -> cache s' = cache s /\ calls s' = calls s.
Proof.
  intros Hset. unfold Put. intros H.
  repeat case_match; simplify_eq; try done; apply Hset.
Qed.

(** In every state a caller reaches, with functions that may have acted on
    the context in any way, a factory [f] assigned to a declared property
    is pending, whatever the property resolved to before: the next read
    calls it, and if that call returns [v] and leaves the slot alone
    (in src/unnamed/part_000: and [v] is not a function the getter calls
    in turn), that read and every later one yields [v], the later ones
    calling nothing. *)
Theorem assigned_factory_called_once (w : world) (m : option string)
    (d0 d : nat) (ops : list op) (n : string) (f : nat) (v : value)
    (reads : nat) :
  getCall w f = false ->
  (forall o s0 rs s k e c s2,
     Flag.lazy w (Some o) m = Some (Normal s0) ->
     Flag.run w d0 ops s0 = Some (rs, s) ->
     own (ctx s) !! n = Some (Accessor k e c) ->
     Flag.call w d (VFun f) (Flag.memoize k (Flag.setter k (VFun f) s))
       = Some (Normal v, s2) ->
     flag_slot_kept k n s2 ->
     Flag.run w (S d) (OpAssign n (VFun f) :: replicate (S reads) (OpRead n)) s
       = Some (Normal (VFun f) :: replicate (S reads) (Normal v),
               Flag.store k v s2)) /\
  (forall c0 s0 rs s k e c s2,
     Rewrite.lazy w c0 m = Normal s0 ->
     Rewrite.run w d0 ops s0 = Some (rs, s) ->
     own (ctx s) !! n = Some (Accessor k e c) ->
     Rewrite.call w d (VFun f) (Rewrite.setter k (VFun f) s) = Some (Normal v, s2) ->
     rewrite_slot_kept k n s2 ->
     plain_function w v = false ->
     exists s3,
       Rewrite.run w (S d) (OpAssign n (VFun f) :: replicate (S reads) (OpRead n)) s
         = Some (Normal (VFun f) :: replicate (S reads) (Normal v), s3) /\
       same_outside s2 s3).
Proof.
  intros Hf. split.
  - intros o s0 rs s k e c s2 Hs0 Hrun Hn Hcall Hkept.
    destruct (re_flag_run_attached w o m d0 ops s0 rs s Hs0 Hrun) as (Hatt & _).
    destruct (Hatt n k e c Hn) as (_ & _ & cl & Hk & Hname).
    rewrite re_flag_run_cons.
    change (Flag.step w (S d) (OpAssign n (VFun f)) s)
      with (match Flag.assign n (VFun f) s with
            | Some s' => Some (Normal (VFun f), s')
            | None => None
            end).
    rewrite (re_flag_assign_accessor _ _ _ _ _ _ Hn).
    erewrite (re_flag_pending_read w d n k e c _ f v (Flag.setter k (VFun f) s) s2).
    + done.
    + done.
    + simpl. rewrite list_lookup_alter, Hk. simpl. by rewrite decide_True.
    + done.
    + done.
    + done.
    + done.
    + done.
  - intros c0 s0 rs s k e c s2 Hs0 Hrun Hn Hcall Hkept Hp.
    destruct (re_rewrite_run_attached w c0 m d0 ops s0 rs s Hs0 Hrun) as (Hatt & _).
    destruct (Hatt n k e c Hn) as (_ & _ & cl & Hk & Hname).
    rewrite re_rewrite_run_cons.
    change (Rewrite.step w (S d) (OpAssign n (VFun f)) s)
      with (match Rewrite.assign n (VFun f) s with
            | Some s' => Some (Normal (VFun f), s')
            | None => None
            end).
    rewrite (re_rewrite_assign_accessor _ _ _ _ _ _ Hn).
    destruct (re_rewrite_pending_read w d n k e c
                {| Rewrite.name := Rewrite.name cl; Rewrite.subject := VFun f |}
                f v (Rewrite.setter k (VFun f) s) s2 reads)
      as (s3 & -> & Hs3); try done.
    + simpl. rewrite list_lookup_alter, Hk. simpl. by rewrite decide_True.
    + by exists s3.
Qed.

Lemma assigned_factory_called_once_witness :
  (λ p, (p.1, calls p.2)) <$>
    Flag.run readme_world 2
      (OpAssign "options" (VFun 0) :: replicate 2 (OpRead "options")) readme_flag
  = Some (Normal (VFun 0) :: replicate 2 (Normal (VObj 0)), [1; 0]).
Proof.
  destruct (assigned_factory_called_once readme_world None 0 1
              [OpDeclare "options" [VFun 0]; OpDeclare "model" [VFun 1]]
              "options" 0 (VObj 0) 1 eq_refl) as [HF _].
  rewrite (HF plain_object flag_fresh [Normal VUndefined; Normal VUndefined]
             readme_flag 0 false true
             (default (Normal VUndefined, readme_flag)
                (Flag.call readme_world 1 (VFun 0)
                   (Flag.memoize 0 (Flag.setter 0 (VFun 0) readme_flag)))).2).
  - vm_compute. reflexivity.
  - reflexivity.
  - reflexivity.
  - reflexivity.
  - vm_compute. reflexivity.
  - split; vm_compute; eauto.
Defined.

(** In every state a caller reaches, a read changes the context, the
    registry and the log of calls only through the function it calls.
    When the getter calls nothing (the name is no declared property, or
    its subject is memoized or not a function the getter calls), the read
    leaves all three as they were, at any depth, and it is answered unless
    the name is an accessor that is not the engine's, own or inherited.  When the getter
    calls the subject, the read completes exactly when that call does and
    as that call does, and leaves them as the call left them; in
    src/unnamed/part_000 this holds of the context as long as the name is
    still a declared property when the call returns, since the result is
    assigned to [context[name]]. *)
Theorem read_leaves_context (w : world) (m : option string) (d0 : nat)
    (ops : list op) (n : string) :
  (forall o s0 rs s,
     Flag.lazy w (Some o) m = Some (Normal s0) ->
     Flag.run w d0 ops s0 = Some (rs, s) ->
     match flag_calls w s n with
     | None =>
         (forall d r s', Flag.read w d n s = Some (r, s') -> same_outside s s') /\
         (forall d, is_Some (Flag.read w d n s) <-> foreign_at (ctx s) n = false)
     | Some (k, v) =>
         forall d,
           match Flag.call w d v (Flag.memoize k s) with
           | Some (r, s2) =>
               exists s', Flag.read w (S d) n s = Some (r, s') /\ same_outside s2 s'
           | None => Flag.read w (S d) n s = None
           end
     end) /\
  (forall c0 s0 rs s,
     Rewrite.lazy w c0 m = Normal s0 ->
     Rewrite.run w d0 ops s0 = Some (rs, s) ->
     match rewrite_calls w s n with
     | None =>
         (forall d r s', Rewrite.read w d n s = Some (r, s') -> same_outside s s') /\
         (forall d, is_Some (Rewrite.read w d n s) <-> foreign_at (ctx s) n = false)
     | Some (k, v) =>
         forall d,
           match Rewrite.call w d v s with
           | Some (Throw e, s2) => Rewrite.read w (S d) n s = Some (Throw e, s2)
           | Some (Normal r, s2) =>
               (forall r' s', Rewrite.read w (S d) n s = Some (r', s') ->
                  r' = Normal r /\ cache s' = cache s2 /\ calls s' = calls s2) /\
               ((exists k' e c, own (ctx s2) !! n = Some (Accessor k' e c)) ->
                exists s', Rewrite.read w (S d) n s = Some (Normal r, s') /\
                           same_outside s2 s')
           | None => Rewrite.read w (S d) n s = None
           end
     end).
Proof.
  split.
  - intros o s0 rs s Hs0 Hrun. unfold flag_calls, Flag.read, Get, foreign_at.
    destruct (own (ctx s) !! n) as [[dd|k e c|e c]|] eqn:Hn.
    + split; [|by split; eauto]. intros d r s' H. by simplify_eq.
    + destruct (heap s !! k) as [cl|] eqn:Hk.
      * destruct (Flag.isMemoized cl) eqn:Hm.
        { split.
          - intros d r s'. rewrite flag_getter_unfold, Hk, Hm. intros H. by simplify_eq.
          - intros d. rewrite flag_getter_unfold, Hk, Hm. by split; eauto. }
        destruct (plain_function w (Flag.subject cl)) eqn:Hp.
        { intros d. rewrite flag_getter_unfold, Hk, Hm, Hp.
          destruct (Flag.call w d _ _) as [[[r1|e1] s2]|] eqn:Hc; [| |done];
            by eexists. }
        split.
        -- intros d r s'. rewrite flag_getter_unfold, Hk, Hm, Hp. intros H.
           by simplify_eq.
        -- intros d. rewrite flag_getter_unfold, Hk, Hm, Hp. by split; eauto.
      * split.
        -- intros d r s'. rewrite flag_getter_unfold, Hk. intros H. by simplify_eq.
        -- intros d. rewrite flag_getter_unfold, Hk. by split; eauto.
    + split; [done|]. intros d. split; [by intros [? ?]|done].
    + split.
      * intros d r s' H. repeat case_match; by simplify_eq.
      * intros d.
        destruct (inherited (ctx s) !! n) as [[v b|]|]; split; eauto;
          try done; by intros [? ?].
  - intros c0 s0 rs s Hs0 Hrun.
    destruct (re_rewrite_run_attached w c0 m d0 ops s0 rs s Hs0 Hrun) as (Hatt & _).
    assert (forall k v s, cache (Rewrite.setter k v s) = cache s /\
                          calls (Rewrite.setter k v s) = calls s) as Hset by done.
    unfold rewrite_calls, Rewrite.read, Get, foreign_at.
    destruct (own (ctx s) !! n) as [[dd|k e c|e c]|] eqn:Hn.
    + split; [|by split; eauto]. intros d r s' H. by simplify_eq.
    + destruct (Hatt n k e c Hn) as (_ & _ & cl & Hk & Hname). rewrite Hk.
      destruct (plain_function w (Rewrite.subject cl)) eqn:Hp.
      * intros d. rewrite rewrite_getter_unfold, Hk, Hp, Hname.
        destruct (Rewrite.call w d _ _) as [[[r1|e1] s2]|] eqn:Hc; [|done|done].
        split.
        -- intros r' s'.
           destruct (Rewrite.assign n r1 s2) as [s3|] eqn:Ha; intros H; simplify_eq.
           destruct (re_Put_outside _ _ _ _ _ Hset Ha) as [-> ->]. done.
        -- intros (k' & e' & c' & Hn2).
           rewrite (re_rewrite_assign_accessor _ _ _ _ _ _ Hn2).
           by eexists.
      * split.
        -- intros d r s'. rewrite rewrite_getter_unfold, Hk, Hp, Hname.
           rewrite (re_rewrite_assign_accessor _ _ _ _ _ _ Hn).
           intros H. by simplify_eq.
        -- intros d. rewrite rewrite_getter_unfold, Hk, Hp, Hname.
           rewrite (re_rewrite_assign_accessor _ _ _ _ _ _ Hn). by split; eauto.
    + split; [done|]. intros d. split; [by intros [? ?]|done].
    + split.
      * intros d r s' H. repeat case_match; by simplify_eq.
      * intros d.
        destruct (inherited (ctx s) !! n) as [[v b|]|]; split; eauto;
          try done; by intros [? ?].
Qed.

Lemma read_leaves_context_witness :
  exists s',
    Flag.read readme_world 2 "options" readme_flag = Some (Normal (VObj 0), s') /\
    same_outside
      (default (Normal VUndefined, readme_flag)
         (Flag.call readme_world 1 (VFun 0) (Flag.memoize 0 readme_flag))).2 s'.
Proof.
  destruct (read_leaves_context readme_world None 0
              [OpDeclare "options" [VFun 0]; OpDeclare "model" [VFun 1]]
              "options") as [HF _].
  exact (HF plain_object flag_fresh [Normal VUndefined; Normal VUndefined]
           readme_flag eq_refl eq_refl 1).
Defined.

(** After any run, whatever the caller's functions did to the context
    during it, [restore] leaves no declared property behind and an empty
    registry; it adds nothing and changes no property that stays, leaves
    every name outside the registry as it was, and a read after it is
    answered without a call and changes nothing, unless the name is an
    accessor that is not the engine's. *)
Theorem restore_leaves_only_data (w : world) (m : option string) (d : nat)
    (ops : list op) :
  (forall o s0 rs s,
     Flag.lazy w (Some o) m = Some (Normal s0) ->
     Flag.run w d ops s0 = Some (rs, s) ->
     let s' := (restore s).2 in
     (forall n k e c, own (ctx s') !! n ≠ Some (Accessor k e c)) /\
     cache s' = [] /\
     (forall n p, own (ctx s') !! n = Some p -> own (ctx s) !! n = Some p) /\
     (forall n, n ∉ cache s -> own (ctx s') !! n = own (ctx s) !! n) /\
     (forall d' n,
        match Flag.read w d' n s' with
        | Some (r, s'') => s'' = s'
        | None => foreign_at (ctx s') n = true
        end)) /\
  (forall c0 s0 rs s,
     Rewrite.lazy w c0 m = Normal s0 ->
     Rewrite.run w d ops s0 = Some (rs, s) ->
     let s' := (restore s).2 in
     (forall n k e c, own (ctx s') !! n ≠ Some (Accessor k e c)) /\
     cache s' = [] /\
     (forall n p, own (ctx s') !! n = Some p -> own (ctx s) !! n = Some p) /\
     (forall n, n ∉ cache s -> own (ctx s') !! n = own (ctx s) !! n) /\
     (forall d' n,
        match Rewrite.read w d' n s' with
        | Some (r, s'') => s'' = s'
        | None => foreign_at (ctx s') n = true
        end)).
Proof.
  assert (forall {K} (s : state K) n p,
            own (ctx (restore s).2) !! n = Some p -> own (ctx s) !! n = Some p) as Hsub.
  { intros K s n p. simpl. rewrite re_restore_loop_lookup.
    destruct (own (ctx s) !! n) as [p'|]; [|done].
    by destruct (bool_decide _ && _). }
  assert (forall {K} (s : state K) n,
            n ∉ cache s -> own (ctx (restore s).2) !! n = own (ctx s) !! n) as Hout.
  { intros K s n Hn. simpl. rewrite re_restore_loop_lookup.
    rewrite bool_decide_eq_false_2 by done. by destruct (own (ctx s) !! n). }
  split.
  - intros o s0 rs s Hs0 Hrun s'.
    destruct (re_flag_run_attached w o m d ops s0 rs s Hs0 Hrun) as (Hatt & _).
    pose proof (fun n k e c => re_restore_no_accessor Flag.name s n k e c Hatt) as Hno.
    split_and!; try done; [apply Hsub|apply Hout|].
    intros d' n. unfold Flag.read, Get, foreign_at. fold s'.
    destruct (own (ctx s') !! n) as [[dd|k e c|e c]|] eqn:Hn.
    + done.
    + by destruct (Hno n k e c).
    + done.
    + by destruct (inherited (ctx s') !! n) as [[v b|]|].
  - intros c0 s0 rs s Hs0 Hrun s'.
    destruct (re_rewrite_run_attached w c0 m d ops s0 rs s Hs0 Hrun) as (Hatt & _).
    pose proof (fun n k e c => re_restore_no_accessor Rewrite.name s n k e c Hatt) as Hno.
    split_and!; try done; [apply Hsub|apply Hout|].
    intros d' n. unfold Rewrite.read, Get, foreign_at. fold s'.
    destruct (own (ctx s') !! n) as [[dd|k e c|e c]|] eqn:Hn.
    + done.
    + by destruct (Hno n k e c).
    + done.
    + by destruct (inherited (ctx s') !! n) as [[v b|]|].
Qed.

Lemma restore_leaves_only_data_witness :
  cache (restore (default ([], rewrite_fresh)
                    (Rewrite.run meddling_world 2
                       [OpDeclare "k" [VFun 2]; OpRead "k"] rewrite_fresh)).2).2 = [] /\
  own (ctx (restore (default ([], rewrite_fresh)
                       (Rewrite.run meddling_world 2
                          [OpDeclare "k" [VFun 2]; OpRead "k"] rewrite_fresh)).2).2)
    !! "k" = None.
Proof.
  destruct (restore_leaves_only_data meddling_world None 2
              [OpDeclare "k" [VFun 2]; OpRead "k"]) as [_ HR].
  destruct (HR None rewrite_fresh [Normal VUndefined; Normal (VNum 5)]
              (default ([], rewrite_fresh)
                 (Rewrite.run meddling_world 2
                    [OpDeclare "k" [VFun 2]; OpRead "k"] rewrite_fresh)).2)
    as (_ & Hc & _).
  - reflexivity.
  - vm_compute. reflexivity.
  - split; [exact Hc|]. vm_compute. reflexivity.
Defined.

(** ** The two versions side by side *)

Section Simulation.

Variable w : world.
Variable ms : list string.
Hypothesis w_tame : tame w.

Lemma re_plain_function_cases v :
  plain_function w v = true ->
  of_engine v = true \/ exists f, v = VFun f /\ getCall w f = false.
Proof.
  unfold plain_function. destruct v; simpl; try done; [|by left|by left].
  rewrite negb_true_iff. right. eauto.
Qed.

Lemma re_tame_result f i :
  exists v, invoke w f i = Ret (Normal v) /\
            plain_function w v = false /\ of_engine v = false.
Proof.
  destruct (w_tame f i) as (v & Hv & Hp). exists v. split_and!; try done.
  by destruct v.
Qed.

Lemma re_rewrite_names_alter (h : list Rewrite.closure) k k' g cl n :
  (forall x, Rewrite.name (g x) = Rewrite.name x) ->
  h !! k' = Some cl -> Rewrite.name cl = n ->
  exists cl', alter g k h !! k' = Some cl' /\ Rewrite.name cl' = n.
Proof.
  intros Hg Hk' Hn. rewrite list_lookup_alter.
  destruct (decide (k = k')) as [->|Hne].
  - rewrite Hk'. simpl. eexists. split; [done|]. by rewrite Hg.
  - eauto.
Qed.

Lemma re_related_view sa sb n :
  related w ms sa sb -> n ∉ ms -> flag_view sa n = rewrite_view sb n.
Proof.
  intros [_ _ _ _ Hheap Hown _] Hn. specialize (Hown n Hn).
  unfold flag_view, rewrite_view, rel_prop in *.
  destruct (own (ctx sa) !! n) as [[d|k e c|e c]|],
           (own (ctx sb) !! n) as [[d'|k' e' c'|e' c']|];
    try done; [by subst| |by destruct Hown as [-> ->]].
  destruct Hown as [<- <-]. f_equal.
  rewrite Forall2_lookup in Hheap. specialize (Hheap k).
  destruct Hheap as [a b (_ & Hs & _)|]; simpl; [by rewrite Hs|done].
Qed.

(** A change of the closures and of the log alone, on both sides. *)
Lemma re_related_heaps sa sb sa' sb' :
  related w ms sa sb ->
  ctx sa' = ctx sa -> ctx sb' = ctx sb ->
  cache sa' = cache sa -> cache sb' = cache sb ->
  Forall2 (rel_closure w) (heap sa') (heap sb') ->
  names_kept Rewrite.name (heap sb) (heap sb') ->
  calls sa' = calls sb' ->
  related w ms sa' sb'.
Proof.
  intros [Hca Hcl Hex Hin Hheap Hown Hnames] Hxa Hxb Hcaa Hcab Hh Hk Hl.
  split; try done; rewrite ?Hxa, ?Hxb, ?Hcaa, ?Hcab; try done.
  intros n k e c Hn Hacc. destruct (Hnames n k e c Hn Hacc) as (cl & Hcl' & Hname).
  destruct (Hk k cl Hcl') as (cl' & Hk' & Hname'). exists cl'. split; [done|congruence].
Qed.

(** The setters: both store the value; the flag is reset on one side. *)
Lemma re_related_setter sa sb k v :
  related w ms sa sb -> of_engine v = false ->
  related w ms (Flag.setter k v sa) (Rewrite.setter k v sb).
Proof.
  intros Hrel Hv. apply (re_related_heaps sa sb); try done.
  - apply Forall2_alter; [apply Hrel|]. intros a b _ _ (Hn & _). by split_and!.
  - by apply re_names_kept_alter.
  - apply Hrel.
Qed.

(** The getters, for a closure that is the accessor of its own name. *)
Lemma re_related_getter d sa sb k e c cb :
  related w ms sa sb ->
  heap sb !! k = Some cb ->
  own (ctx sb) !! Rewrite.name cb = Some (Accessor k e c) ->
  agree w ms (Flag.getter w d k sa) (Rewrite.getter w d k sb).
Proof.
  intros Hrel Hkb Hacc.
  destruct (Forall2_lookup_r _ _ _ _ _ (rel_heap _ _ _ _ Hrel) Hkb)
    as (ca & Hka & Hname & Hsubj & Hnd & Hmemo).
  rewrite flag_getter_unfold, rewrite_getter_unfold, Hka, Hkb, <- Hsubj.
  destruct (Flag.isMemoized ca) eqn:Hm.
  - (* memoized: the subject is handed back on both sides *)
    rewrite (Hmemo eq_refl).
    rewrite (re_rewrite_assign_accessor _ _ _ _ _ _ Hacc).
    split; [done|]. apply (re_related_heaps sa sb); try done; try apply Hrel.
    + apply Forall2_alter_r; [apply Hrel|]. intros a b Ha Hb (Hn' & Hs' & Hd' & Hm').
      assert (a = ca) as -> by congruence. by split_and!.
    + by apply re_names_kept_alter.
  - destruct (plain_function w (Flag.subject ca)) eqn:Hplain.
    + (* a factory: called once on both sides, its result stored *)
      destruct d as [|d]; [done|].
      destruct (re_plain_function_cases _ Hplain) as [?|(f & Hf & Hgc)]; [congruence|].
      rewrite Hf. unfold Flag.call, Rewrite.call, call.
      destruct (re_tame_result f (times f (calls sb))) as (v & Hv & Hvp & Hvd).
      change (calls (Flag.memoize k sa)) with (calls sa).
      rewrite (rel_calls _ _ _ _ Hrel), Hv. simpl exec.
      unfold Rewrite.assign, Put. simpl. rewrite Hacc.
      split; [done|]. apply (re_related_heaps sa sb); try done.
      * simpl. rewrite list_alter_alter_eq. apply Forall2_alter; [apply Hrel|].
        by intros a b _ _ (? & _); split_and!.
      * simpl. by apply re_names_kept_alter.
      * simpl. by rewrite (rel_calls _ _ _ _ Hrel).
    + (* a literal or a spy: handed back on both sides *)
      rewrite (re_rewrite_assign_accessor _ _ _ _ _ _ Hacc).
      split; [done|]. apply (re_related_heaps sa sb); try done; try apply Hrel.
      * apply Forall2_alter; [apply Hrel|].
        intros a b Ha Hb (Hn' & Hs' & Hd' & Hm').
        assert (a = ca) as -> by congruence. by split_and!.
      * by apply re_names_kept_alter.
Qed.

Lemma re_related_read d sa sb n :
  related w ms sa sb -> n ∉ ms ->
  agree w ms (Flag.read w d n sa) (Rewrite.read w d n sb).
Proof.
  intros Hrel Hn. pose proof (rel_own _ _ _ _ Hrel n Hn) as Hp.
  unfold Flag.read, Rewrite.read, Get, rel_prop in *.
  rewrite <- (rel_inherited _ _ _ _ Hrel).
  destruct (own (ctx sa) !! n) as [[dd|k e c|e c]|] eqn:Ha,
           (own (ctx sb) !! n) as [[dd'|k' e' c'|e' c']|] eqn:Hb; try done.
  - by subst dd'.
  - destruct Hp as [<- <-].
    destruct (rel_names _ _ _ _ Hrel n k e' c Hn Hb) as (cb & Hkb & Hname).
    rewrite <- Hname in Hb. by eapply re_related_getter.
  - by destruct (inherited (ctx sa) !! n) as [[]|].
Qed.

(** A data property written at the same name on both sides. *)
Lemma re_related_write sa sb n d :
  related w ms sa sb ->
  related w ms
    (with_ctx sa (with_own (ctx sa) (<[n := Data d]> (own (ctx sa)))))
    (with_ctx sb (with_own (ctx sb) (<[n := Data d]> (own (ctx sb))))).
Proof.
  intros [Hca Hcl Hex Hin Hheap Hown Hnames]. split; simpl; try done.
  - intros n' Hn'. destruct (decide (n' = n)) as [->|Hne].
    + by rewrite !lookup_insert_eq.
    + rewrite !lookup_insert_ne by done. by apply Hown.
  - intros n' k e c Hn'. destruct (decide (n' = n)) as [->|Hne].
    + by rewrite lookup_insert_eq.
    + rewrite lookup_insert_ne by done. by apply Hnames.
Qed.

Lemma re_related_assign sa sb n v :
  related w ms sa sb -> n ∉ ms -> of_engine v = false ->
  match Flag.assign n v sa, Rewrite.assign n v sb with
  | Some sa', Some sb' => related w ms sa' sb'
  | None, None => True
  | _, _ => False
  end.
Proof.
  intros Hrel Hn Hv. pose proof (rel_own _ _ _ _ Hrel n Hn) as Hp.
  unfold Flag.assign, Rewrite.assign, Put, rel_prop in *.
  rewrite <- (rel_inherited _ _ _ _ Hrel), <- (rel_extensible _ _ _ _ Hrel).
  destruct (own (ctx sa) !! n) as [[dd|k e c|e c]|] eqn:Ha,
           (own (ctx sb) !! n) as [[dd'|k' e' c'|e' c']|] eqn:Hb; try done.
  - subst dd'. destruct (writable dd); [|done]. by apply re_related_write.
  - destruct Hp as [<- <-]. by apply re_related_setter.
  - destruct (inherited (ctx sa) !! n) as [[v' [|]|]|]; try done;
      (destruct (extensible (ctx sa)); [|done]); by apply re_related_write.
Qed.

(** The two calls of [Object.defineProperty] go through together. *)
Lemma re_related_define k ca cb n :
  extensible ca = extensible cb ->
  rel_prop (own ca !! n) (own cb !! n) ->
  (exists e, define_accessor k None ca n =
               Normal (with_own ca (<[n := Accessor k e true]> (own ca))) /\
             define_accessor k (Some true) cb n =
               Normal (with_own cb (<[n := Accessor k true true]> (own cb)))) \/
  (define_accessor k None ca n = Throw TypeError /\
   define_accessor k (Some true) cb n = Throw TypeError).
Proof.
  intros Hex Hp. unfold define_accessor, rel_prop in *. rewrite <- Hex.
  destruct (own ca !! n) as [[d|k0 e c|e c]|],
           (own cb !! n) as [[d'|k0' e' c'|e' c']|];
    try done; simpl.
  - subst d'. destruct (configurable d); eauto.
  - destruct Hp as [<- <-]. destruct c; eauto.
  - destruct Hp as [<- <-]. destruct c; eauto.
  - destruct (extensible ca); eauto.
Qed.

Lemma re_related_declare sa sb n args :
  related w ms sa sb -> n ∉ ms -> of_engine (subject_of args) = false ->
  exists r sa' sb',
    Flag.declare n args sa = (r, sa') /\ Rewrite.declare n args sb = (r, sb') /\
    related w ms sa' sb'.
Proof.
  intros Hrel Hn Hs. pose proof (rel_own _ _ _ _ Hrel n Hn) as Hp.
  pose proof (Forall2_length _ _ _ (rel_heap _ _ _ _ Hrel)) as Hlen.
  unfold Flag.declare, Rewrite.declare. simpl. fold (subject_of args).
  rewrite <- Hlen.
  assert (Forall2 (rel_closure w)
            (heap sa ++ [{| Flag.name := n; Flag.subject := subject_of args;
                            Flag.isMemoized := false |}])
            (heap sb ++ [{| Rewrite.name := n;
                            Rewrite.subject := subject_of args |}])) as Hheap'.
  { apply Forall2_app; [apply Hrel|]. by repeat constructor. }
  assert (forall n' k e c, n' ∉ ms -> own (ctx sb) !! n' = Some (Accessor k e c) ->
            exists cl, (heap sb ++ [{| Rewrite.name := n;
                                       Rewrite.subject := subject_of args |}]) !! k
                       = Some cl /\ Rewrite.name cl = n') as Hnames'.
  { intros n' k e c Hn' Hk.
    destruct (rel_names _ _ _ _ Hrel n' k e c Hn' Hk) as (cl & Hcl & Hname).
    exists cl. split; [|done]. by apply lookup_app_l_Some. }
  destruct (re_related_define (length (heap sa)) (ctx sa) (ctx sb) n
              (rel_extensible _ _ _ _ Hrel) Hp) as [(e & -> & ->)|[-> ->]].
  - eexists _, _, _. split; [done|]. split; [done|].
    destruct Hrel as [Hca Hcl Hex Hin _ Hown Hnames]. split; simpl; try done.
    + by rewrite Hca.
    + intros n' Hn'. destruct (decide (n' = n)) as [->|Hne].
      * by rewrite !lookup_insert_eq.
      * rewrite !lookup_insert_ne by done. by apply Hown.
    + intros n' k e' c Hn'. destruct (decide (n' = n)) as [->|Hne].
      * rewrite lookup_insert_eq. intros [= <- <- <-].
        eexists. split.
        { rewrite Hlen. by rewrite lookup_app_r, Nat.sub_diag. }
        done.
      * rewrite lookup_insert_ne by done. by apply Hnames'.
  - eexists _, _, _. split; [done|]. split; [done|].
    destruct Hrel as [Hca Hcl Hex Hin _ Hown Hnames]. split; simpl; try done.
    by rewrite Hca.
Qed.

Lemma re_related_delete sa sb n :
  related w ms sa sb -> n ∉ ms ->
  deletable (ctx sa) n = deletable (ctx sb) n /\
  related w ms (with_ctx sa (delete_property n (ctx sa)))
               (with_ctx sb (delete_property n (ctx sb))).
Proof.
  intros Hrel Hn. pose proof (rel_own _ _ _ _ Hrel n Hn) as Hp.
  destruct Hrel as [Hca Hcl Hex Hin Hheap Hown Hnames]. split.
  - unfold deletable, rel_prop in *.
    destruct (own (ctx sa) !! n) as [[d|k e c|e c]|],
             (own (ctx sb) !! n) as [[d'|k' e' c'|e' c']|]; try done; simpl.
    + by subst.
    + by destruct Hp as [_ ->].
    + by destruct Hp as [_ ->].
  - destruct (re_delete_property_frame n (ctx sa)) as [Hxa Hia].
    destruct (re_delete_property_frame n (ctx sb)) as [Hxb Hib].
    split; simpl; try done; try congruence.
    + intros n' Hn'. specialize (Hown n' Hn'). rewrite !re_delete_property_lookup.
      unfold rel_prop in *.
      destruct (own (ctx sa) !! n') as [[d|k e c|e c]|],
               (own (ctx sb) !! n') as [[d'|k' e' c'|e' c']|]; try done; simpl.
      * subst d'. by destruct (bool_decide _ && _).
      * destruct Hown as [<- <-]. by destruct (bool_decide _ && _).
      * destruct Hown as [<- <-]. by destruct (bool_decide _ && _).
    + intros n' k e c Hn'. rewrite re_delete_property_lookup.
      destruct (own (ctx sb) !! n') as [p|] eqn:Hp'; [|done].
      destruct (bool_decide _ && _); [done|]. intros [= ->]. by eapply Hnames.
Qed.

Lemma re_related_restore sa sb :
  related w ms sa sb ->
  (restore sa).1 = (restore sb).1 /\
  related w ms (restore sa).2 (restore sb).2.
Proof.
  intros [Hca Hcl Hex Hin Hheap Hown Hnames]. split; [done|].
  destruct (re_restore_loop_frame (cache sa) (ctx sa)) as [Hxa Hia].
  destruct (re_restore_loop_frame (cache sb) (ctx sb)) as [Hxb Hib].
  split; simpl; try done; try congruence.
  - intros n Hn. specialize (Hown n Hn). rewrite !re_restore_loop_lookup, Hca.
    unfold rel_prop in *.
    destruct (own (ctx sa) !! n) as [[d|k e c|e c]|],
             (own (ctx sb) !! n) as [[d'|k' e' c'|e' c']|];
      try done; simpl.
    + subst d'. by destruct (bool_decide _ && _).
    + destruct Hown as [<- <-]. by destruct (bool_decide _ && _).
    + destruct Hown as [<- <-]. by destruct (bool_decide _ && _).
  - intros n k e c Hn. rewrite re_restore_loop_lookup.
    destruct (own (ctx sb) !! n) as [p|] eqn:Hp; [|done].
    destruct (bool_decide _ && _); [done|]. intros [= ->]. by eapply Hnames.
Qed.

Lemma re_related_step d sa sb o :
  related w ms sa sb -> tame_op ms o ->
  agree w ms (Flag.step w d o sa) (Rewrite.step w d o sb).
Proof.
  intros Hrel Ho. destruct o as [n args|n|n v|n|]; simpl in Ho.
  - destruct Ho as [Hn Hs].
    destruct (re_related_declare sa sb n args Hrel Hn Hs)
      as (r & sa' & sb' & Ha & Hb & Hrel').
    unfold Flag.step, Rewrite.step, step. by rewrite Ha, Hb.
  - by apply re_related_read.
  - destruct Ho as [Hn Hv].
    pose proof (re_related_assign sa sb n v Hrel Hn Hv) as H.
    unfold Flag.step, Rewrite.step, step.
    change (Put Flag.setter n v sa) with (Flag.assign n v sa).
    change (Put Rewrite.setter n v sb) with (Rewrite.assign n v sb).
    by destruct (Flag.assign n v sa), (Rewrite.assign n v sb).
  - destruct (re_related_delete sa sb n Hrel Ho) as [Hd Hrel'].
    unfold Flag.step, Rewrite.step, step. simpl. by rewrite Hd.
  - destruct (re_related_restore sa sb Hrel) as [Hr Hrel'].
    unfold Flag.step, Rewrite.step, step.
    destruct (restore sa) as [ra sa'], (restore sb) as [rb sb']. simpl in *.
    by subst.
Qed.

Lemma re_related_run d ops : forall sa sb,
  related w ms sa sb -> Forall (tame_op ms) ops ->
  agree w ms (Flag.run w d ops sa) (Rewrite.run w d ops sb).
Proof.
  induction ops as [|o ops IH]; intros sa sb Hrel Hops; [done|].
  apply Forall_cons in Hops as [Ho Hops].
  rewrite re_flag_run_cons, re_rewrite_run_cons.
  pose proof (re_related_step d sa sb o Hrel Ho) as Hstep.
  destruct (Flag.step w d o sa) as [[ra sa']|],
           (Rewrite.step w d o sb) as [[rb sb']|]; try done.
  destruct Hstep as [<- Hrel'].
  pose proof (IH sa' sb' Hrel' Hops) as Hrun.
  destruct (Flag.run w d ops sa') as [[rsa sa'']|],
           (Rewrite.run w d ops sb') as [[rsb sb'']|]; try done.
  destruct Hrun as [<- Hrel'']. done.
Qed.

(** With functions that leave the context alone and no accessor but the
    engine's, every operation is answered at depth 1 and more. *)
Lemma re_flag_getter_answers d k s :
  is_Some (Flag.getter w (S d) k s).
Proof.
  rewrite flag_getter_unfold.
  destruct (heap s !! k) as [cl|]; [|done].
  destruct (Flag.isMemoized cl); [done|].
  destruct (plain_function w (Flag.subject cl)); [|done].
  destruct (Flag.subject cl) as [| | | | | |f| |]; try done.
  - unfold Flag.call, call. change (calls (Flag.memoize k s)) with (calls s).
    destruct (w_tame f (times f (calls s))) as (v & Hv & _). by rewrite Hv.
  - unfold Flag.call, call. by destruct (Flag.declare _ _ _) as [[] ?].
Qed.

Lemma re_flag_step_answers d o s :
  answerable (ctx s) o -> is_Some (Flag.step w (S d) o s).
Proof.
  destruct o as [n args|n|n v|n|]; try done.
  - intros [Hf Hi]. unfold Flag.step, step, Get.
    destruct (own (ctx s) !! n) as [[dd|k e c|e c]|] eqn:Hn; try done.
    + apply re_flag_getter_answers.
    + by destruct (Hf e c).
    + by destruct (inherited (ctx s) !! n) as [[]|] eqn:Hin.
  - intros [Hf Hi]. unfold Flag.step, step, Put.
    destruct (own (ctx s) !! n) as [[dd|k e c|e c]|] eqn:Hn; try done.
    + by destruct (writable dd).
    + by destruct (Hf e c).
    + destruct (inherited (ctx s) !! n) as [[v' [|]|]|] eqn:Hin; try done;
        by destruct (extensible (ctx s)).
Qed.

Lemma re_flag_run_answers c0 d ops : forall s,
  (forall n e c, own (ctx s) !! n = Some (Foreign e c) ->
                 own c0 !! n = Some (Foreign e c)) ->
  inherited (ctx s) = inherited c0 ->
  Forall (answerable c0) ops ->
  is_Some (Flag.run w (S d) ops s).
Proof.
  induction ops as [|o ops IH]; intros s Hf Hi Hops; [done|].
  apply Forall_cons in Hops as [Ho Hops].
  rewrite re_flag_run_cons.
  destruct (re_flag_step_answers d o s) as [[r s1] Hstep].
  { destruct o; try done; destruct Ho as [Ho1 Ho2]; (split; [|by rewrite Hi]);
      intros e c Hn; by destruct (Ho1 e c); apply Hf. }
  rewrite Hstep.
  destruct (flag_step_evolves w (S d) o s r s1 Hstep) as (_ & Hi' & _ & _ & Hf' & _).
  destruct (IH s1) as [[rs s2] ->]; try done.
  - intros n e c Hn. by apply Hf, Hf'.
  - congruence.
Qed.

End Simulation.

(** Attached to the same object, the two versions start out related, off
    the two names the declaration function was put under. *)
Lemma re_related_attached w o ma mb sa sb :
  Flag.lazy w (Some o) ma = Some (Normal sa) ->
  Rewrite.lazy w (Some o) mb = Normal sb ->
  related w [or_default ma "lazy"; or_default mb "set"] sa sb.
Proof.
  intros Ha Hb.
  destruct (re_flag_lazy_start w o ma sa Ha)
    as (_ & Hca & Hha & Hcla & Hia & Hxa & Hfa).
  destruct (re_rewrite_lazy_start w (Some o) mb sb Hb)
    as (_ & Hcb & Hhb & Hclb & Hib & Hxb & _ & Hfb).
  simpl in *. split.
  - by rewrite Hca, Hcb.
  - by rewrite Hcla, Hclb.
  - by rewrite Hxa, Hxb.
  - by rewrite Hia, Hib.
  - rewrite Hha, Hhb. constructor.
  - intros n Hn. rewrite Hfa, Hfb by set_solver.
    unfold rel_prop. by destruct (fields o !! n) as [[]|].
  - intros n k e c Hn. rewrite Hfb by set_solver. by destruct (fields o !! n) as [[]|].
Qed.



